(** * zeromq.node: the socket wrapper of [zmq.js] and its dispatch engine

    A shallow embedding of [zmq.js]: the [Socket] wrapper, its outgoing
    queue, [send], the dispatch engine [_flush], the lifecycle operations
    [bind], [bindSync], [connect], and [createSocket].

    The native binding ([./build/default/binding]), node's [IOWatcher],
    [EventEmitter] and [util.inspect] are external collaborators: they
    appear as interfaces (type classes) and parameters.  State is passed
    explicitly; every call the wrapper makes on a collaborator is recorded
    in a ghost [trace] so that orderings can be stated.

    Conventions of the model:
    - loops that the source does not bound ([while (true)], the
      [do ... while] of the receive) take fuel and give [None] when it
      runs out; the send burst follows the queue and needs none;
    - the binding and [EventEmitter] throw [Error] objects and nothing
      else;
    - the engine comes twice.  First with the listeners the wrapper is
      written for ([Script]): they act on the socket through [send] and
      what they throw is an [Error] object, so that the assignments
      [e.flags] and [e.outgoing] in the [catch] succeed.  Then, in [Wide],
      with listeners at large, which may throw [null] or [undefined] and
      call the socket's other methods, [close] among them.  The first
      engine is the second with listeners of the first kind
      ([engine_restricted]);
    - the [_flush] a listener reaches through [send] is the engine
      itself, called re-entrantly;
    - the handler registered with [process.on('exit', ...)] runs when the
      process ends and is left out. *)

From Stdlib Require Import ZArith List String Bool Lia.
From Stdlib.Strings Require Import Byte.
Import ListNotations.
Local Open Scope Z_scope.

(** ** JavaScript numbers as used by the wrapper

    The readiness bitmask and the send flags go through [&], [|] and [~],
    which work on the 32-bit two's complement reading of their operands. *)

Definition ToInt32 (z : Z) : Z := (z + 2 ^ 31) mod 2 ^ 32 - 2 ^ 31.

Definition js_and (a b : Z) : Z := Z.land (ToInt32 a) (ToInt32 b).
Definition js_or (a b : Z) : Z := Z.lor (ToInt32 a) (ToInt32 b).
Definition js_not (a : Z) : Z := Z.lnot (ToInt32 a).

(** Truthiness of a number: everything but zero. *)
Definition truthy (z : Z) : bool := negb (z =? 0).

(** ** Values, errors and results *)

Definition Buffer := list byte.

Inductive JsVal :=
| VUndefined
| VNum (z : Z)
| VStr (s : string)
| VBuf (b : Buffer).

(** The taxonomy of failures: a bad configuration value, a failure of the
    underlying handle, or a failure inside the wrapper itself (a listener
    that throws, a method called on [undefined]). *)
Inductive ErrorKind := Configuration | Transport | Internal.

(** An [Error] object.  [err_flags] and [err_outgoing] are the properties
    [flags] and [outgoing] that the engine attaches ([None]: undefined). *)
Record JsError := mkError {
  err_kind : ErrorKind;
  err_message : string;
  err_flags : option Z;
  err_outgoing : option string
}.

Inductive Result (T : Type) :=
| Ok (v : T)
| Raise (e : JsError).
Arguments Ok {T} v.
Arguments Raise {T} e.

(** How a statement or call ends. *)
Inductive Completion :=
| Normal
| Throw (e : JsError).

(** How the body of the [while (true)] loop of [_flush] hands control on:
    fall through to the next statement, [break], [return], or an exception
    that reaches the [catch]. *)
Inductive Control :=
| CProceed
| CBreak
| CReturn
| CThrow (e : JsError).

(** How a call that gave [r] ends. *)
Definition result_completion {T : Type} (r : Result T) : Completion :=
  match r with
  | Ok _ => Normal
  | Raise e => Throw e
  end.

(** A [send] argument: a [Buffer], or something to be encoded as UTF-8. *)
Inductive Part :=
| PartBuffer (b : Buffer)
| PartString (s : string).

(** A queue entry, the pair [[part, flags]]. *)
Definition Entry := (Buffer * Z)%type.

(** What a listener does when it runs, as the wrapper expects it: it may
    call [send] on the socket any number of times and then returns or
    throws an [Error].  ([Wide.Behaviour], further down, is the listener
    at large.) *)
Record Script := mkScript {
  script_sends : list (list Part);
  script_throws : option JsError
}.

Definition quiet : Script := mkScript [] None.

(** ** Ghost trace *)

Inductive Event :=
| EvGuardSet
| EvGuardClear
| EvGetsockopt (opt : Z) (r : Result Z)
| EvRecv (r : Result Buffer)
| EvSend (payload : Buffer) (flags : Z) (r : Result unit)
| EvEmitMessage (parts : list Buffer)
| EvEmitError (e : JsError)
| EvEnqueue (entries : list Entry)
| EvWatcherStart
| EvWatcherStop
| EvBind (addr : string)
| EvBindSync (addr : string) (r : Result unit)
| EvConnect (addr : string) (r : Result unit)
| EvCallback (err : option JsError)
| EvSetsockopt (opt : Z) (v : JsVal) (r : Result unit).

(** ** External collaborators *)

(** The numeric identifiers exported by the binding.  Only their names
    occur in [zmq.js]. *)
Class ZmqConstants := {
  ZMQ_POLLIN : Z;
  ZMQ_POLLOUT : Z;
  ZMQ_SNDMORE : Z;
  STATE_READY : Z;
  ZMQ_FD : Z;
  ZMQ_EVENTS : Z;
  ZMQ_RCVMORE : Z;
  ZMQ_SUBSCRIBE : Z;
  ZMQ_UNSUBSCRIBE : Z;
  ZMQ_AFFINITY : Z;
  ZMQ_BACKLOG : Z;
  ZMQ_HWM : Z;
  ZMQ_IDENTITY : Z;
  ZMQ_LINGER : Z;
  ZMQ_MCAST_LOOP : Z;
  ZMQ_RATE : Z;
  ZMQ_RCVBUF : Z;
  ZMQ_RECONNECT_IVL : Z;
  ZMQ_RECOVERY_IVL : Z;
  ZMQ_SNDBUF : Z;
  ZMQ_SWAP : Z;
  ZMQ_PUB : Z;
  ZMQ_SUB : Z;
  ZMQ_REQ : Z;
  ZMQ_XREQ : Z;
  ZMQ_REP : Z;
  ZMQ_XREP : Z;
  ZMQ_PUSH : Z;
  ZMQ_PULL : Z;
  ZMQ_DEALER : Z;
  ZMQ_ROUTER : Z;
  ZMQ_PAIR : Z
}.

(** The process-wide context: all the wrapper knows is the thread count it
    was created with. *)
Record Context := mkContext { io_threads : Z }.

(** The native socket object [zmq.Socket], over its own state [H].  Every
    method may change that state and may throw. *)
Class SocketHandle (H : Type) := {
  zmq_socket : Context -> Z -> H;
  zmq_getsockopt : Z -> H -> H * Result Z;
  zmq_setsockopt : Z -> JsVal -> H -> H * Result unit;
  zmq_recv : H -> H * Result Buffer;
  zmq_send : Buffer -> Z -> H -> H * Result unit;
  zmq_state : H -> Z;
  zmq_bind : string -> H -> H * Result (option JsError);
  zmq_bindSync : string -> H -> H * Result unit;
  zmq_connect : string -> H -> H * Result unit;
  zmq_close : H -> H * Result unit
}.

(** The application: its listeners for ['message'] and ['error'], over its
    own state [A].  [on_error] is [None] when no ['error'] listener is
    registered. *)
Class Application (A : Type) := {
  on_message : A -> list Buffer -> A * Script;
  on_error : A -> JsError -> option (A * Script)
}.

(** node's [IOWatcher]. *)
Record IOWatcher := mkWatcher {
  w_fd : Z;
  w_active : bool
}.

(** ** The socket wrapper *)

Section Wrapper.

Context {C : ZmqConstants} {H A : Type}
        {handle : SocketHandle H} {application : Application A}.

(** [util.inspect], and the UTF-8 encoding done by [new Buffer(s, 'utf-8')]. *)
Variable inspect : list Entry -> string.
Variable utf8 : string -> Buffer.

(** The fields of a [Socket] object, the state of its listeners and the
    ghost trace.  [_watcher] is [None] once [close] has set it to
    [undefined]. *)
Record SocketObj := mkSocket {
  type : string;
  _zmq : H;
  _outgoing : list Entry;
  _watcher : option IOWatcher;
  _inFlush : bool;
  listeners : A;
  trace : list Event
}.

Definition set_zmq (h : H) (s : SocketObj) : SocketObj :=
  mkSocket (type s) h (_outgoing s) (_watcher s) (_inFlush s) (listeners s) (trace s).
Definition set_outgoing (q : list Entry) (s : SocketObj) : SocketObj :=
  mkSocket (type s) (_zmq s) q (_watcher s) (_inFlush s) (listeners s) (trace s).
Definition set_watcher (w : option IOWatcher) (s : SocketObj) : SocketObj :=
  mkSocket (type s) (_zmq s) (_outgoing s) w (_inFlush s) (listeners s) (trace s).
Definition set_inFlush (b : bool) (s : SocketObj) : SocketObj :=
  mkSocket (type s) (_zmq s) (_outgoing s) (_watcher s) b (listeners s) (trace s).
Definition set_listeners (a : A) (s : SocketObj) : SocketObj :=
  mkSocket (type s) (_zmq s) (_outgoing s) (_watcher s) (_inFlush s) a (trace s).
Definition record (ev : Event) (s : SocketObj) : SocketObj :=
  mkSocket (type s) (_zmq s) (_outgoing s) (_watcher s) (_inFlush s) (listeners s)
           (trace s ++ [ev]).

(** *** Option accessors (the getters generated from [opts]) *)

Definition getsockopt (opt : Z) (s : SocketObj) : SocketObj * Result Z :=
  let (h, r) := zmq_getsockopt opt (_zmq s) in
  (record (EvGetsockopt opt r) (set_zmq h s), r).

Definition _fd := getsockopt ZMQ_FD.
Definition _ioevents := getsockopt ZMQ_EVENTS.
Definition _receiveMore := getsockopt ZMQ_RCVMORE.

(** [this._zmq.recv()] and [this._zmq.send.apply(this._zmq, sendArgs)]. *)
Definition recv (s : SocketObj) : SocketObj * Result Buffer :=
  let (h, r) := zmq_recv (_zmq s) in
  (record (EvRecv r) (set_zmq h s), r).

Definition send_entry (sendArgs : Entry) (s : SocketObj) : SocketObj * Result unit :=
  let (h, r) := zmq_send (fst sendArgs) (snd sendArgs) (_zmq s) in
  (record (EvSend (fst sendArgs) (snd sendArgs) r) (set_zmq h s), r).

(** *** Queueing ([send], up to the call of [_flush]) *)

Definition to_buffer (part : Part) : Buffer :=
  match part with
  | PartBuffer b => b
  | PartString str => utf8 str
  end.

(** The [for] loop of [send]: [i] runs over the arguments, [length] is
    [arguments.length]. *)
Fixpoint send_parts (length i : Z) (arguments : list Part) : list Entry :=
  match arguments with
  | [] => []
  | part :: rest =>
      let flags := if negb (i =? length - 1) then js_or 0 ZMQ_SNDMORE else 0 in
      (to_buffer part, flags) :: send_parts length (i + 1) rest
  end.

Definition enqueue (arguments : list Part) (s : SocketObj) : SocketObj :=
  let parts := send_parts (Z.of_nat (List.length arguments)) 0 arguments in
  record (EvEnqueue parts) (set_outgoing (_outgoing s ++ parts) s).

Definition currentSendBacklog (s : SocketObj) : Z :=
  Z.of_nat (List.length (_outgoing s)).

(** *** The receive loop and the send burst of [_flush] *)

(** [do { emitArgs.push(new Buffer(this._zmq.recv())) } while (this._receiveMore)].
    [emitArgs] holds the parts pushed after ['message']. *)
Fixpoint recv_parts (fuel : nat) (emitArgs : list Buffer) (s : SocketObj)
  : option (SocketObj * Result (list Buffer)) :=
  match fuel with
  | O => None
  | S n =>
      match recv s with
      | (s1, Raise e) => Some (s1, Raise e)
      | (s1, Ok b) =>
          let emitArgs' := emitArgs ++ [b] in
          match _receiveMore s1 with
          | (s2, Raise e) => Some (s2, Raise e)
          | (s2, Ok more) =>
              if truthy more then recv_parts n emitArgs' s2
              else Some (s2, Ok emitArgs')
          end
      end
  end.

(** [while ((flags & ZMQ_POLLOUT) && (this._outgoing.length !== 0))]: the
    recursion follows the queue [q], which is [this._outgoing] throughout
    (no handle call touches it). *)
Fixpoint send_burst (q : list Entry) (flags : Z) (s : SocketObj)
  : SocketObj * Z * Completion :=
  match q with
  | [] => (s, flags, Normal)
  | sendArgs :: q' =>
      if truthy (js_and flags ZMQ_POLLOUT) then
        match send_entry sendArgs (set_outgoing q' s) with
        | (s1, Raise e) => (s1, flags, Throw e)
        | (s1, Ok _) =>
            match _ioevents s1 with
            | (s2, Raise e) => (s2, flags, Throw e)
            | (s2, Ok flags') => send_burst q' flags' s2
            end
        end
      else (s, flags, Normal)
  end.

(** *** Events, with the re-entrant [_flush] that a listener reaches
        through [send] as a parameter *)

Section Reentrant.

Variable flush_rec : SocketObj -> option (SocketObj * Completion).

Definition send_with (arguments : list Part) (s : SocketObj)
  : option (SocketObj * Completion) :=
  flush_rec (enqueue arguments s).

Fixpoint run_sends (calls : list (list Part)) (s : SocketObj)
  : option (SocketObj * Completion) :=
  match calls with
  | [] => Some (s, Normal)
  | arguments :: rest =>
      match send_with arguments s with
      | None => None
      | Some (s1, Throw e) => Some (s1, Throw e)
      | Some (s1, Normal) => run_sends rest s1
      end
  end.

Definition run_script (sc : Script) (s : SocketObj)
  : option (SocketObj * Completion) :=
  match run_sends (script_sends sc) s with
  | None => None
  | Some (s1, Throw e) => Some (s1, Throw e)
  | Some (s1, Normal) =>
      Some (s1, match script_throws sc with
                | Some e => Throw e
                | None => Normal
                end)
  end.

(** [this.emit.apply(this, emitArgs)] with [emitArgs[0] = 'message']. *)
Definition emit_message (parts : list Buffer) (s : SocketObj)
  : option (SocketObj * Completion) :=
  let (a, sc) := on_message (listeners s) parts in
  run_script sc (set_listeners a (record (EvEmitMessage parts) s)).

(** [this.emit('error', e)]: without a listener [EventEmitter] throws [e]. *)
Definition emit_error (e : JsError) (s : SocketObj)
  : option (SocketObj * Completion) :=
  let s0 := record (EvEmitError e) s in
  match on_error (listeners s) e with
  | None => Some (s0, Throw e)
  | Some (a, sc) => run_script sc (set_listeners a s0)
  end.

End Reentrant.

(** *** The dispatch engine *)

(** [flags = this._ioevents; if (this._outgoing.length === 0) flags &= ~ZMQ_POLLOUT]. *)
Definition loop_flags (q : list Entry) (ioevents : Z) : Z :=
  match q with
  | [] => js_and ioevents (js_not ZMQ_POLLOUT)
  | _ :: _ => ioevents
  end.

(** [this._inFlush = false]. *)
Definition clear_guard (s : SocketObj) : SocketObj :=
  record EvGuardClear (set_inFlush false s).

(** The block guarded by [if (flags & ZMQ_POLLIN)]. *)
Definition receive_block (flush_rec : SocketObj -> option (SocketObj * Completion))
           (fuel : nat) (s : SocketObj) : option (SocketObj * Control) :=
  match recv_parts fuel [] s with
  | None => None
  | Some (s1, Raise e) => Some (s1, CThrow e)
  | Some (s1, Ok parts) =>
      match emit_message flush_rec parts s1 with
      | None => None
      | Some (s2, Throw e) => Some (s2, CThrow e)
      | Some (s2, Normal) =>
          if negb (zmq_state (_zmq s2) =? STATE_READY)
          then Some (clear_guard s2, CReturn)
          else Some (s2, CProceed)
      end
  end.

(** The [while (true)] loop.  [flags] is the function-scoped variable of
    that name ([None]: still undefined); it is returned as it stands when
    the loop is left. *)
Fixpoint flush_loop (flush_rec : SocketObj -> option (SocketObj * Completion))
         (fuel : nat) (flags : option Z) (s : SocketObj)
  : option (SocketObj * option Z * Control) :=
  match fuel with
  | O => None
  | S n =>
      match _ioevents s with
      | (s1, Raise e) => Some (s1, flags, CThrow e)
      | (s1, Ok ioevents) =>
          let flags1 := loop_flags (_outgoing s1) ioevents in
          if negb (truthy flags1) then Some (s1, Some flags1, CBreak)
          else
            match (if truthy (js_and flags1 ZMQ_POLLIN)
                   then receive_block flush_rec n s1
                   else Some (s1, CProceed)) with
            | None => None
            | Some (s2, CProceed) =>
                match send_burst (_outgoing s2) flags1 s2 with
                | (s3, flags2, Throw e) => Some (s3, Some flags2, CThrow e)
                | (s3, flags2, Normal) => flush_loop flush_rec n (Some flags2) s3
                end
            | Some (s2, c) => Some (s2, Some flags1, c)
            end
      end
  end.

(** [e.flags = flags; e.outgoing = util.inspect(this._outgoing)], [e]
    being an [Error] object. *)
Definition attach (flags : option Z) (q : list Entry) (e : JsError) : JsError :=
  mkError (err_kind e) (err_message e) flags (Some (inspect q)).

(** [Socket.prototype._flush] with listeners as [Script] has them: the
    guard, the loop inside [try], the [catch] with its own [try] around
    the ['error'] emission, and the clearing of the guard on each way out.
    The result is how the call ends: [Throw e2] is the failure of the
    ['error'] emission, rethrown. *)
Fixpoint _flush (fuel : nat) (s : SocketObj) : option (SocketObj * Completion) :=
  if _inFlush s then Some (s, Normal)
  else
    match fuel with
    | O => None
    | S n =>
        let s0 := record EvGuardSet (set_inFlush true s) in
        match flush_loop (_flush n) n None s0 with
        | None => None
        | Some (s1, flags, CThrow e) =>
            match emit_error (_flush n) (attach flags (_outgoing s1) e) s1 with
            | None => None
            | Some (s2, Throw e2) => Some (clear_guard s2, Throw e2)
            | Some (s2, Normal) => Some (clear_guard s2, Normal)
            end
        | Some (s1, _, CReturn) => Some (s1, Normal)
        | Some (s1, _, _) => Some (clear_guard s1, Normal)
        end
    end.

(** [Socket.prototype.send]. *)
Definition send (fuel : nat) (arguments : list Part) (s : SocketObj)
  : option (SocketObj * Completion) :=
  send_with (_flush fuel) arguments s.

(** *** Lifecycle: the watcher, [bind], [bindSync], [connect], [close] *)

(** Calling a method on [undefined]. *)
Definition type_error : JsError :=
  mkError Internal "Cannot call method of undefined" None None.

Definition watcher_stop (s : SocketObj) : SocketObj * Completion :=
  match _watcher s with
  | None => (s, Throw type_error)
  | Some w => (record EvWatcherStop (set_watcher (Some (mkWatcher (w_fd w) false)) s), Normal)
  end.

Definition watcher_start (s : SocketObj) : SocketObj * Completion :=
  match _watcher s with
  | None => (s, Throw type_error)
  | Some w => (record EvWatcherStart (set_watcher (Some (mkWatcher (w_fd w) true)) s), Normal)
  end.

(** [bind], up to the point where the binding has taken the request. *)
Definition bind_request (addr : string) (s : SocketObj) : SocketObj * Completion :=
  match watcher_stop s with
  | (s1, Throw e) => (s1, Throw e)
  | (s1, Normal) => (record (EvBind addr) s1, Normal)
  end.

(** The function handed to the binding by [bind]:
    [function(err) { self._watcher.start(); cb(err); }].  [cb] is the
    caller's callback, a listener like the others. *)
Definition bind_callback (fuel : nat) (cb : A -> option JsError -> A * Script)
           (err : option JsError) (s : SocketObj) : option (SocketObj * Completion) :=
  match watcher_start s with
  | (s1, Throw e) => Some (s1, Throw e)
  | (s1, Normal) =>
      let (a, sc) := cb (listeners s1) err in
      run_script (_flush fuel) sc (set_listeners a (record (EvCallback err) s1))
  end.

(** [bind] with the completion of the request: when the binding throws
    at once, that is what [bind] throws (there is no [try] around the
    call); otherwise the binding works on the handle and then calls back
    with its error, if any. *)
Definition bind (fuel : nat) (addr : string) (cb : A -> option JsError -> A * Script)
           (s : SocketObj) : option (SocketObj * Completion) :=
  match bind_request addr s with
  | (s1, Throw e) => Some (s1, Throw e)
  | (s1, Normal) =>
      match zmq_bind addr (_zmq s1) with
      | (h, Raise e) => Some (set_zmq h s1, Throw e)
      | (h, Ok err) => bind_callback fuel cb err (set_zmq h s1)
      end
  end.

Definition bindSync (addr : string) (s : SocketObj) : SocketObj * Completion :=
  match watcher_stop s with
  | (s1, Throw e) => (s1, Throw e)
  | (s1, Normal) =>
      let (h, r) := zmq_bindSync addr (_zmq s1) in
      let s2 := record (EvBindSync addr r) (set_zmq h s1) in
      match r with
      | Raise e =>
          match watcher_start s2 with
          | (s3, Throw e') => (s3, Throw e')
          | (s3, Normal) => (s3, Throw e)
          end
      | Ok _ => watcher_start s2
      end
  end.

Definition connect (addr : string) (s : SocketObj) : SocketObj * Completion :=
  let (h, r) := zmq_connect addr (_zmq s) in
  (record (EvConnect addr r) (set_zmq h s),
   match r with
   | Raise e => Throw e
   | Ok _ => Normal
   end).

Definition close (s : SocketObj) : SocketObj * Completion :=
  match watcher_stop s with
  | (s1, Throw e) => (s1, Throw e)
  | (s1, Normal) =>
      let s2 := set_watcher None s1 in
      let (h, r) := zmq_close (_zmq s2) in
      (set_zmq h s2,
       match r with
       | Raise e => Throw e
       | Ok _ => Normal
       end)
  end.

(** *** Construction *)

(** The map [types]. *)
Definition types : list (string * Z) :=
  [ ("pub", ZMQ_PUB); ("sub", ZMQ_SUB); ("req", ZMQ_REQ); ("xreq", ZMQ_XREQ);
    ("rep", ZMQ_REP); ("xrep", ZMQ_XREP); ("push", ZMQ_PUSH); ("pull", ZMQ_PULL);
    ("dealer", ZMQ_DEALER); ("router", ZMQ_ROUTER); ("pair", ZMQ_PAIR) ]%string.

(** The map [opts]. *)
Definition opts : list (string * Z) :=
  [ ("_fd", ZMQ_FD); ("_ioevents", ZMQ_EVENTS); ("_receiveMore", ZMQ_RCVMORE);
    ("_subscribe", ZMQ_SUBSCRIBE); ("_unsubscribe", ZMQ_UNSUBSCRIBE);
    ("ioThreadAffinity", ZMQ_AFFINITY); ("backlog", ZMQ_BACKLOG);
    ("highWaterMark", ZMQ_HWM); ("identity", ZMQ_IDENTITY);
    ("lingerPeriod", ZMQ_LINGER); ("multicastLoop", ZMQ_MCAST_LOOP);
    ("multicastDateRate", ZMQ_RATE); ("receiveBufferSize", ZMQ_RCVBUF);
    ("reconnectInterval", ZMQ_RECONNECT_IVL); ("multicastRecovery", ZMQ_RECOVERY_IVL);
    ("sendBufferSize", ZMQ_SNDBUF); ("diskOffloadSize", ZMQ_SWAP) ]%string.

(** [table[key]] where a number is expected: [None] stands for a value
    that is not one ([undefined] for an unknown key, or a member inherited
    from [Object.prototype]). *)
Fixpoint lookup (table : list (string * Z)) (key : string) : option Z :=
  match table with
  | [] => None
  | (k, v) :: rest => if String.eqb k key then Some v else lookup rest key
  end.

(** The process: the module variable [context_], the environment variable
    [ZMQ_IO_THREADS], and what [util.error] has printed. *)
Record Process := mkProcess {
  context_ : option Context;
  env_ZMQ_IO_THREADS : option string;
  stderr : list string
}.

(** [parseInt(str, 10)]; [None] is [NaN]. *)
Variable parseInt : string -> option Z.

Definition defaultContext (p : Process) : Process * Context :=
  match context_ p with
  | Some c => (p, c)
  | None =>
      let threads :=
        match env_ZMQ_IO_THREADS p with
        | None => (1, [])
        | Some EmptyString => (1, [])
        | Some str =>
            match parseInt str with
            | None => (1, ["Invalid number in ZMQ_IO_THREADS, using 1 IO thread."%string])
            | Some n =>
                if (n =? 0) || (n <? 1)
                then (1, ["Invalid number in ZMQ_IO_THREADS, using 1 IO thread."%string])
                else (n, [])
            end
        end in
      let c := mkContext (fst threads) in
      (mkProcess (Some c) (env_ZMQ_IO_THREADS p) (stderr p ++ snd threads), c)
  end.

Definition configuration_error : JsError :=
  mkError Configuration "Type must be an integer" None None.

(** Modelled from the spec: the constructor [zmq.Socket] of the native
    binding, which is not part of [zmq.js].  Section 6 and section 7 of the
    design say that a type that is not in the socket-type enumeration fails
    with a configuration error, synchronously, at the call that brought it
    in; any enumerated type gives a handle. *)
Definition zmq_Socket (ctx : Context) (ty : option Z) : Result H :=
  match ty with
  | None => Raise configuration_error
  | Some t => Ok (zmq_socket ctx t)
  end.

(** [function Socket(type)].  [a] is the state of the (still empty)
    listener tables the object starts with. *)
Definition Socket (ty : string) (a : A) (p : Process) : Process * Result SocketObj :=
  let (p1, ctx) := defaultContext p in
  match zmq_Socket ctx (lookup types ty) with
  | Raise e => (p1, Raise e)
  | Ok h =>
      let s0 := mkSocket ty h [] None false a [] in
      match _fd s0 with
      | (s1, Raise e) => (p1, Raise e)
      | (s1, Ok fd) =>
          (p1, Ok (record EvWatcherStart (set_watcher (Some (mkWatcher fd true)) s1)))
      end
  end.

(** The setter generated for an option name. *)
Definition set_option (opt : Z) (val : JsVal) (s : SocketObj) : SocketObj * Result unit :=
  let val' := match val with
              | VStr str => VBuf (utf8 str)
              | _ => val
              end in
  let (h, r) := zmq_setsockopt opt val' (_zmq s) in
  (record (EvSetsockopt opt val' r) (set_zmq h s), r).

(** [sock[key] = options[key]] over the own keys of [options], in their
    enumeration order.  A key of [opts] goes through its setter; any other
    key becomes a plain property, which no modelled method reads (a key
    that names one of the wrapper's own fields is left out of the model). *)
Fixpoint apply_options (options : list (string * JsVal)) (s : SocketObj)
  : SocketObj * Completion :=
  match options with
  | [] => (s, Normal)
  | (key, val) :: rest =>
      match lookup opts key with
      | None => apply_options rest s
      | Some opt =>
          match set_option opt val s with
          | (s1, Raise e) => (s1, Throw e)
          | (s1, Ok _) => apply_options rest s1
          end
      end
  end.

(** [exports.createSocket].  [options] is [None] when it is not an object. *)
Definition createSocket (typename : string) (options : option (list (string * JsVal)))
           (a : A) (p : Process) : Process * Result SocketObj :=
  match Socket typename a p with
  | (p1, Raise e) => (p1, Raise e)
  | (p1, Ok sock) =>
      match options with
      | None => (p1, Ok sock)
      | Some kvs =>
          match apply_options kvs sock with
          | (_, Throw e) => (p1, Raise e)
          | (sock1, Normal) => (p1, Ok sock1)
          end
      end
  end.

End Wrapper.

Arguments SocketObj H A : clear implicits.

(** ** Listeners at large

    [Script] above is the listener the wrapper is written for: it answers
    by calling [send] and fails by throwing an [Error].  JavaScript lets a
    listener do more, and two things it can do reach code of [_flush]:
    it may throw [null] or [undefined], on which the assignments
    [e.flags] and [e.outgoing] of the [catch] throw a [TypeError]
    themselves, and it may call the socket's other methods, [close] among
    them, which is what the check of [this._zmq.state] after the
    ['message'] event is there for.  This module is the engine again, line
    by line, for such listeners. *)

Module Wide.

(** What a [throw] may throw: an [Error] object, or [null] / [undefined].
    (Any other primitive value takes the two assignments of the [catch]
    without effect, [zmq.js] not being in strict mode, and is emitted as
    an [Error] object is; it is left out.) *)
Inductive Thrown :=
| ThrownError (e : JsError)
| ThrownNullish.

(** How a call ends. *)
Inductive Outcome :=
| Returns
| Throws (v : Thrown).

(** How the body of the [while (true)] loop hands control on. *)
Inductive Exit :=
| XProceed
| XBreak
| XReturn
| XRaised (v : Thrown).

(** A call a listener makes on the socket: a method, or an option
    accessor ([sock.identity = v], [sock.subscribe(filter)],
    [sock.backlog]); [CallTry c] is [try { c } catch (e) {}]. *)
Inductive Call :=
| CallSend (arguments : list Part)
| CallClose
| CallBind (addr : string)
| CallBindSync (addr : string)
| CallConnect (addr : string)
| CallSetOption (opt : Z) (val : JsVal)
| CallGetOption (opt : Z)
| CallTry (c : Call).

(** What a listener does when it runs: its calls on the socket, in order,
    and what it throws in the end, if anything.  A call that throws
    outside a [try] ends the listener with that exception. *)
Record Behaviour := mkBehaviour {
  behaviour_calls : list Call;
  behaviour_throws : option Thrown
}.

(** The listeners for ['message'] and ['error']; [error_listener] is
    [None] when no ['error'] listener is registered. *)
Class Listeners (A : Type) := {
  message_listener : A -> list Buffer -> A * Behaviour;
  error_listener : A -> JsError -> option (A * Behaviour)
}.

Section Engine.

Context {C : ZmqConstants} {H A : Type}
        {handle : SocketHandle H} {guests : Listeners A}.

Variable inspect : list Entry -> string.
Variable utf8 : string -> Buffer.

Definition outcome_of (c : Completion) : Outcome :=
  match c with
  | Normal => Returns
  | Throw e => Throws (ThrownError e)
  end.

(** [Socket.prototype.bind] up to its return.  The binding calls back
    from the event loop, when the activation the listener runs in is
    over. *)
Definition bind (addr : string) (s : SocketObj H A) : SocketObj H A * Completion :=
  match bind_request addr s with
  | (s1, Throw e) => (s1, Throw e)
  | (s1, Normal) =>
      let (h, r) := zmq_bind addr (_zmq s1) in
      (set_zmq h s1, result_completion r)
  end.

Section Reentrant.

Variable flush_rec : SocketObj H A -> option (SocketObj H A * Outcome).

Fixpoint run_call (c : Call) (s : SocketObj H A)
  : option (SocketObj H A * Outcome) :=
  match c with
  | CallSend arguments => flush_rec (enqueue utf8 arguments s)
  | CallClose => let (s1, r) := close s in Some (s1, outcome_of r)
  | CallBind addr => let (s1, r) := bind addr s in Some (s1, outcome_of r)
  | CallBindSync addr => let (s1, r) := bindSync addr s in Some (s1, outcome_of r)
  | CallConnect addr => let (s1, r) := connect addr s in Some (s1, outcome_of r)
  | CallSetOption opt val =>
      let (s1, r) := set_option utf8 opt val s in Some (s1, outcome_of (result_completion r))
  | CallGetOption opt =>
      let (s1, r) := getsockopt opt s in Some (s1, outcome_of (result_completion r))
  | CallTry c1 =>
      match run_call c1 s with
      | None => None
      | Some (s1, _) => Some (s1, Returns)
      end
  end.

Fixpoint run_calls (calls : list Call) (s : SocketObj H A)
  : option (SocketObj H A * Outcome) :=
  match calls with
  | [] => Some (s, Returns)
  | c :: rest =>
      match run_call c s with
      | None => None
      | Some (s1, Throws v) => Some (s1, Throws v)
      | Some (s1, Returns) => run_calls rest s1
      end
  end.

Definition run_listener (b : Behaviour) (s : SocketObj H A)
  : option (SocketObj H A * Outcome) :=
  match run_calls (behaviour_calls b) s with
  | None => None
  | Some (s1, Throws v) => Some (s1, Throws v)
  | Some (s1, Returns) =>
      Some (s1, match behaviour_throws b with
                | Some v => Throws v
                | None => Returns
                end)
  end.

(** [this.emit.apply(this, emitArgs)] with [emitArgs[0] = 'message']. *)
Definition emit_message (parts : list Buffer) (s : SocketObj H A)
  : option (SocketObj H A * Outcome) :=
  let (a, b) := message_listener (listeners s) parts in
  run_listener b (set_listeners a (record (EvEmitMessage parts) s)).

(** [this.emit('error', e)]: without a listener [EventEmitter] throws [e]. *)
Definition emit_error (e : JsError) (s : SocketObj H A)
  : option (SocketObj H A * Outcome) :=
  let s0 := record (EvEmitError e) s in
  match error_listener (listeners s) e with
  | None => Some (s0, Throws (ThrownError e))
  | Some (a, b) => run_listener b (set_listeners a s0)
  end.

End Reentrant.

(** The block guarded by [if (flags & ZMQ_POLLIN)]. *)
Definition receive_block (flush_rec : SocketObj H A -> option (SocketObj H A * Outcome))
           (fuel : nat) (s : SocketObj H A) : option (SocketObj H A * Exit) :=
  match recv_parts fuel [] s with
  | None => None
  | Some (s1, Raise e) => Some (s1, XRaised (ThrownError e))
  | Some (s1, Ok parts) =>
      match emit_message flush_rec parts s1 with
      | None => None
      | Some (s2, Throws v) => Some (s2, XRaised v)
      | Some (s2, Returns) =>
          if negb (zmq_state (_zmq s2) =? STATE_READY)
          then Some (clear_guard s2, XReturn)
          else Some (s2, XProceed)
      end
  end.

(** The [while (true)] loop. *)
Fixpoint flush_loop (flush_rec : SocketObj H A -> option (SocketObj H A * Outcome))
         (fuel : nat) (flags : option Z) (s : SocketObj H A)
  : option (SocketObj H A * option Z * Exit) :=
  match fuel with
  | O => None
  | S n =>
      match _ioevents s with
      | (s1, Raise e) => Some (s1, flags, XRaised (ThrownError e))
      | (s1, Ok ioevents) =>
          let flags1 := loop_flags (_outgoing s1) ioevents in
          if negb (truthy flags1) then Some (s1, Some flags1, XBreak)
          else
            match (if truthy (js_and flags1 ZMQ_POLLIN)
                   then receive_block flush_rec n s1
                   else Some (s1, XProceed)) with
            | None => None
            | Some (s2, XProceed) =>
                match send_burst (_outgoing s2) flags1 s2 with
                | (s3, flags2, Throw e) => Some (s3, Some flags2, XRaised (ThrownError e))
                | (s3, flags2, Normal) => flush_loop flush_rec n (Some flags2) s3
                end
            | Some (s2, x) => Some (s2, Some flags1, x)
            end
      end
  end.

(** The [TypeError] of an assignment to a property of [null] or
    [undefined]. *)
Definition assignment_error : JsError :=
  mkError Internal "Cannot set property 'flags' of null" None None.

(** [e.flags = flags; e.outgoing = util.inspect(this._outgoing)] on what
    the [catch] caught. *)
Definition attach_to (flags : option Z) (q : list Entry) (v : Thrown) : Result JsError :=
  match v with
  | ThrownError e => Ok (attach inspect flags q e)
  | ThrownNullish => Raise assignment_error
  end.

(** [Socket.prototype._flush].  The two assignments of the [catch] stand
    before its inner [try]: when they throw, that exception leaves
    [_flush] as it is, past both [this._inFlush = false]. *)
Fixpoint _flush (fuel : nat) (s : SocketObj H A) : option (SocketObj H A * Outcome) :=
  if _inFlush s then Some (s, Returns)
  else
    match fuel with
    | O => None
    | S n =>
        let s0 := record EvGuardSet (set_inFlush true s) in
        match flush_loop (_flush n) n None s0 with
        | None => None
        | Some (s1, flags, XRaised v) =>
            match attach_to flags (_outgoing s1) v with
            | Raise t => Some (s1, Throws (ThrownError t))
            | Ok e =>
                match emit_error (_flush n) e s1 with
                | None => None
                | Some (s2, Throws v2) => Some (clear_guard s2, Throws v2)
                | Some (s2, Returns) => Some (clear_guard s2, Returns)
                end
            end
        | Some (s1, _, XReturn) => Some (s1, Returns)
        | Some (s1, _, _) => Some (clear_guard s1, Returns)
        end
    end.

(** [Socket.prototype.send]. *)
Definition send (fuel : nat) (arguments : list Part) (s : SocketObj H A)
  : option (SocketObj H A * Outcome) :=
  _flush fuel (enqueue utf8 arguments s).

End Engine.

(** A listener as [Script] has it, seen as a listener at large, and an
    application of such listeners. *)
Definition widen (sc : Script) : Behaviour :=
  mkBehaviour (map CallSend (script_sends sc))
              (option_map ThrownError (script_throws sc)).

Definition widened {A : Type} (application : Application A) : Listeners A := {|
  message_listener := fun a parts =>
    let (a', sc) := on_message a parts in (a', widen sc);
  error_listener := fun a e =>
    match on_error a e with
    | Some (a', sc) => Some (a', widen sc)
    | None => None
    end
|}.

Definition exit_of (c : Control) : Exit :=
  match c with
  | CProceed => XProceed
  | CBreak => XBreak
  | CReturn => XReturn
  | CThrow e => XRaised (ThrownError e)
  end.

Definition lifted {T : Type} (r : option (T * Completion)) : option (T * Outcome) :=
  match r with
  | Some (s, c) => Some (s, outcome_of c)
  | None => None
  end.

End Wide.

(** ** A scripted handle and application

    A handle that plays back a fixed inbox and accepts a bounded number of
    sends, with the identifiers of libzmq 2.x, for running the wrapper on
    concrete inputs. *)

Module Scripted.

#[export] Instance libzmq2 : ZmqConstants := {|
  ZMQ_POLLIN := 1; ZMQ_POLLOUT := 2; ZMQ_SNDMORE := 2; STATE_READY := 0;
  ZMQ_FD := 14; ZMQ_EVENTS := 15; ZMQ_RCVMORE := 13;
  ZMQ_SUBSCRIBE := 6; ZMQ_UNSUBSCRIBE := 7; ZMQ_AFFINITY := 4;
  ZMQ_BACKLOG := 19; ZMQ_HWM := 1; ZMQ_IDENTITY := 5; ZMQ_LINGER := 17;
  ZMQ_MCAST_LOOP := 10; ZMQ_RATE := 8; ZMQ_RCVBUF := 12;
  ZMQ_RECONNECT_IVL := 18; ZMQ_RECOVERY_IVL := 9; ZMQ_SNDBUF := 11;
  ZMQ_SWAP := 3;
  ZMQ_PUB := 1; ZMQ_SUB := 2; ZMQ_REQ := 3; ZMQ_XREQ := 5; ZMQ_REP := 4;
  ZMQ_XREP := 6; ZMQ_PUSH := 8; ZMQ_PULL := 7; ZMQ_DEALER := 5;
  ZMQ_ROUTER := 6; ZMQ_PAIR := 0
|}.

(** [inbox]: the parts still to come, each with the value [ZMQ_RCVMORE]
    takes once it has been received.  [send_budget]: how many more sends
    succeed ([None]: all of them).  [bind_fails]: whether binding fails. *)
Record Stub := mkStub {
  inbox : list (Buffer * Z);
  rcvmore : Z;
  can_write : bool;
  send_budget : option nat;
  sent : list Entry;
  state : Z;
  bind_fails : bool
}.

Definition eagain : JsError :=
  mkError Transport "Resource temporarily unavailable" None None.
Definition eaddrinuse : JsError :=
  mkError Transport "Address already in use" None None.

Definition stub_events (h : Stub) : Z :=
  Z.lor (match inbox h with [] => 0 | _ :: _ => 1 end)
        (if can_write h then 2 else 0).

#[export] Instance stub_handle : SocketHandle Stub := {|
  zmq_socket := fun _ _ => mkStub [] 0 true None [] 0 false;
  zmq_getsockopt := fun opt h =>
    (h, Ok (if opt =? 15 then stub_events h
            else if opt =? 13 then rcvmore h
            else if opt =? 14 then 7
            else 0));
  zmq_setsockopt := fun _ _ h => (h, Ok tt);
  zmq_recv := fun h =>
    match inbox h with
    | [] => (h, Raise eagain)
    | (b, more) :: rest =>
        (mkStub rest more (can_write h) (send_budget h) (sent h) (state h) (bind_fails h),
         Ok b)
    end;
  zmq_send := fun b f h =>
    match send_budget h with
    | Some O => (h, Raise eagain)
    | Some (S k) =>
        (mkStub (inbox h) (rcvmore h) (can_write h) (Some k) (sent h ++ [(b, f)])
                (state h) (bind_fails h), Ok tt)
    | None =>
        (mkStub (inbox h) (rcvmore h) (can_write h) None (sent h ++ [(b, f)])
                (state h) (bind_fails h), Ok tt)
    end;
  zmq_state := state;
  zmq_bind := fun _ h => (h, Ok (if bind_fails h then Some eaddrinuse else None));
  zmq_bindSync := fun _ h => (h, if bind_fails h then Raise eaddrinuse else Ok tt);
  zmq_connect := fun _ h => (h, Ok tt);
  zmq_close := fun h =>
    (mkStub (inbox h) (rcvmore h) (can_write h) (send_budget h) (sent h) 2 (bind_fails h),
     Ok tt)
|}.

(** An application whose ['message'] listener answers every message with
    the [send] calls [replies], and which may or may not listen for
    ['error']. *)
Record App := mkApp {
  replies : list (list Part);
  listens_for_error : bool
}.

#[export] Instance app_listeners : Application App := {|
  on_message := fun a _ => (a, mkScript (replies a) None);
  on_error := fun a _ => if listens_for_error a then Some (a, quiet) else None
|}.

Definition render (q : list Entry) : string :=
  match q with
  | [] => "[]"
  | _ :: _ => "[ ... ]"
  end.

Definition bytes (s : string) : Buffer := list_byte_of_string s.

Definition fresh (h : Stub) (q : list Entry) (a : App) : SocketObj Stub App :=
  mkSocket "req" h q (Some (mkWatcher 7 true)) false a [].

(** A second handle, which is always writable and never readable, and
    keeps what it is sent. *)
#[export] Instance sink_handle : SocketHandle (list Entry) := {|
  zmq_socket := fun _ _ => [];
  zmq_getsockopt := fun opt h => (h, Ok (if opt =? 15 then 2 else 0));
  zmq_setsockopt := fun _ _ h => (h, Ok tt);
  zmq_recv := fun h => (h, Raise eagain);
  zmq_send := fun b f h => (h ++ [(b, f)], Ok tt);
  zmq_state := fun _ => 0;
  zmq_bind := fun _ h => (h, Ok None);
  zmq_bindSync := fun _ h => (h, Ok tt);
  zmq_connect := fun _ h => (h, Ok tt);
  zmq_close := fun h => (h, Ok tt)
|}.

(** Some handles, listeners and sockets. *)
Definition idle : Stub := mkStub [] 0 true None [] 0 false.
Definition two_parts : Stub :=
  mkStub [(bytes "a", 1); (bytes "b", 0)] 0 true None [] 0 false.
Definition delivered : Stub := mkStub [] 0 true None [] 0 false.
Definition refusing : Stub := mkStub [] 0 true (Some O) [] 0 false.
Definition occupied : Stub := mkStub [] 0 true None [] 0 true.

Definition listening : App := mkApp [] true.
Definition answering : App := mkApp [[PartString "r"]] true.

(** A socket in the middle of an activation. *)
Definition busy : SocketObj Stub App :=
  mkSocket "req" idle [] (Some (mkWatcher 7 true)) true listening [].

(** A socket inside the loop, the guard set, with a two-part message to
    receive, two entries to send and a listener that answers. *)
Definition receiving : SocketObj Stub App :=
  mkSocket "req" two_parts [(bytes "x", 2); (bytes "y", 0)]
           (Some (mkWatcher 7 true)) true answering [EvGuardSet].

(** A socket whose handle refuses the first [send], before the activation
    and when the exception reaches the [catch]. *)
Definition stuck : SocketObj Stub App :=
  fresh refusing [(bytes "x", 2); (bytes "y", 0)] listening.

Definition stuck_caught : SocketObj Stub App :=
  mkSocket "req" refusing [(bytes "y", 0)] (Some (mkWatcher 7 true)) true listening
           [EvGuardSet; EvGetsockopt 15 (Ok 2); EvSend (bytes "x") 2 (Raise eagain)].

(** A socket whose handle has nothing to receive and an empty queue. *)
Definition at_rest : SocketObj Stub App := fresh idle [] listening.

(** A socket on the always-writable handle. *)
Definition open_sink : SocketObj (list Entry) App :=
  mkSocket "push" [] [] (Some (mkWatcher 7 true)) false listening [].

(** A socket whose address is taken. *)
Definition late : SocketObj Stub App := fresh occupied [] listening.

(** The error the engine reports for it, and the socket afterwards. *)
Definition reported : JsError :=
  mkError Transport "Resource temporarily unavailable" (Some 2) (Some "[ ... ]"%string).

Definition stuck_done : SocketObj Stub App :=
  mkSocket "req" refusing [(bytes "y", 0)] (Some (mkWatcher 7 true)) false listening
           [EvGuardSet; EvGetsockopt 15 (Ok 2); EvSend (bytes "x") 2 (Raise eagain);
            EvEmitError reported; EvGuardClear].

(** A third handle, which reports readable and raises on [recv], on
    [send] and on [bind]. *)
#[export] Instance broken_handle : SocketHandle unit := {|
  zmq_socket := fun _ _ => tt;
  zmq_getsockopt := fun opt h => (h, Ok (if opt =? 15 then 1 else 0));
  zmq_setsockopt := fun _ _ h => (h, Ok tt);
  zmq_recv := fun h => (h, Raise eagain);
  zmq_send := fun _ _ h => (h, Raise eagain);
  zmq_state := fun _ => 0;
  zmq_bind := fun _ h => (h, Raise eagain);
  zmq_bindSync := fun _ h => (h, Ok tt);
  zmq_connect := fun _ h => (h, Ok tt);
  zmq_close := fun h => (h, Ok tt)
|}.

Definition broken_idle : SocketObj unit App :=
  mkSocket "sub" tt [] (Some (mkWatcher 7 true)) false listening [].

Definition no_callback (a : App) (err : option JsError) : App * Script := (a, quiet).

Definition to_int (s : string) : option Z :=
  match s with
  | "2"%string => Some 2
  | _ => None
  end.

Definition start_up : Process := mkProcess None None [].

(** A process that asks for two IO threads. *)
Definition configured : Process := mkProcess None (Some "2"%string) [].

(** A handle that is neither readable nor writable, and its socket. *)
Definition mute : Stub := mkStub [] 0 false None [] 0 false.

Definition waiting : SocketObj Stub App := fresh mute [(bytes "x", 0)] listening.

(** Two options for a new socket. *)
Definition some_options : list (string * JsVal) :=
  [("identity"%string, VStr "abc"); ("lingerPeriod"%string, VNum 0)].

(** A fourth handle, which always has one more single-part message. *)
#[export] Instance flood_handle : SocketHandle nat := {|
  zmq_socket := fun _ _ => O;
  zmq_getsockopt := fun opt h => (h, Ok (if opt =? 15 then 1 else 0));
  zmq_setsockopt := fun _ _ h => (h, Ok tt);
  zmq_recv := fun h => (S h, Ok []);
  zmq_send := fun _ _ h => (h, Ok tt);
  zmq_state := fun _ => 0;
  zmq_bind := fun _ h => (h, Ok None);
  zmq_bindSync := fun _ h => (h, Ok tt);
  zmq_connect := fun _ h => (h, Ok tt);
  zmq_close := fun h => (h, Ok tt)
|}.

Definition flooded : SocketObj nat App :=
  mkSocket "pull" O [] (Some (mkWatcher 7 true)) false listening [].

(** An application with listeners at large: what its ['message'] listener
    does, and what its ['error'] listener does if it has one. *)
Record Guest := mkGuest {
  at_message : Wide.Behaviour;
  at_error : option Wide.Behaviour
}.

#[export] Instance guest_listeners : Wide.Listeners Guest := {|
  Wide.message_listener := fun a _ => (a, at_message a);
  Wide.error_listener := fun a _ =>
    match at_error a with
    | Some b => Some (a, b)
    | None => None
    end
|}.

Definition idles : Wide.Behaviour := Wide.mkBehaviour [] None.

(** A ['message'] listener that throws [null]. *)
Definition hasty : Guest :=
  mkGuest (Wide.mkBehaviour [] (Some Wide.ThrownNullish)) (Some idles).

(** One that closes the socket, tries to close it again inside a [try],
    and sends a last message. *)
Definition parting : Guest :=
  mkGuest (Wide.mkBehaviour [Wide.CallClose; Wide.CallTry Wide.CallClose;
                             Wide.CallSend [PartString "z"]] None)
          (Some idles).

(** One that answers with a two-part message; no ['error'] listener. *)
Definition replying : Guest :=
  mkGuest (Wide.mkBehaviour [Wide.CallSend [PartString "r"; PartString "s"]] None) None.

(** A fifth handle, which delivers one part, reports "more" and raises on
    the next [recv]. *)
#[export] Instance torn_handle : SocketHandle bool := {|
  zmq_socket := fun _ _ => false;
  zmq_getsockopt := fun opt h => (h, Ok 1);
  zmq_setsockopt := fun _ _ h => (h, Ok tt);
  zmq_recv := fun h => (true, if h then Raise eagain else Ok (bytes "a"));
  zmq_send := fun _ _ h => (h, Ok tt);
  zmq_state := fun _ => 0;
  zmq_bind := fun _ h => (h, Ok None);
  zmq_bindSync := fun _ h => (h, Ok tt);
  zmq_connect := fun _ h => (h, Ok tt);
  zmq_close := fun h => (h, Ok tt)
|}.

(** A socket with a two-part message to receive and a listener that
    throws [null]. *)
Definition upset : SocketObj Stub Guest :=
  mkSocket "req" two_parts [(bytes "x", 2); (bytes "y", 0)]
           (Some (mkWatcher 7 true)) false hasty [].

(** The same socket inside the loop, with a listener that answers. *)
Definition visited : SocketObj Stub Guest :=
  mkSocket "req" two_parts [(bytes "x", 2); (bytes "y", 0)]
           (Some (mkWatcher 7 true)) true replying [EvGuardSet].

(** A socket whose message is broken off after the first part. *)
Definition torn : SocketObj bool Guest :=
  mkSocket "sub" false [(bytes "x", 0)] (Some (mkWatcher 7 true)) false replying [].

(** A socket with a message to receive and nothing to send, whose handle
    accepts one [send] and no more, and whose listener answers in two
    parts. *)
Definition one_send : Stub := mkStub [(bytes "a", 0)] 0 true (Some 1%nat) [] 0 false.

Definition asked : SocketObj Stub Guest :=
  mkSocket "rep" one_send [] (Some (mkWatcher 7 true)) false replying [].

(** A socket with a message to receive and an entry to send, whose
    listener closes it. *)
Definition one_part : Stub := mkStub [(bytes "a", 0)] 0 true None [] 0 false.

Definition farewell : SocketObj Stub Guest :=
  mkSocket "req" one_part [(bytes "x", 0)] (Some (mkWatcher 7 true)) false parting [].

(** [upset] once its listener has thrown. *)
Definition upset_locked : SocketObj Stub Guest :=
  mkSocket "req" delivered [(bytes "x", 2); (bytes "y", 0)]
           (Some (mkWatcher 7 true)) true hasty
           [EvGuardSet; EvGetsockopt 15 (Ok 3);
            EvRecv (Ok (bytes "a")); EvGetsockopt 13 (Ok 1);
            EvRecv (Ok (bytes "b")); EvGetsockopt 13 (Ok 0);
            EvEmitMessage [bytes "a"; bytes "b"]].

(** [torn] after its activation, and the error reported. *)
Definition torn_error : JsError :=
  mkError Transport "Resource temporarily unavailable" (Some 1) (Some "[ ... ]"%string).

Definition torn_done : SocketObj bool Guest :=
  mkSocket "sub" true [(bytes "x", 0)] (Some (mkWatcher 7 true)) false replying
           [EvGuardSet; EvGetsockopt 15 (Ok 1);
            EvRecv (Ok (bytes "a")); EvGetsockopt 13 (Ok 1);
            EvRecv (Raise eagain); EvEmitError torn_error; EvGuardClear].

(** [asked] at the start of the second pass of its activation, and after
    the activation, with the error reported. *)
Definition one_left : Stub := mkStub [] 0 true (Some 1%nat) [] 0 false.
Definition none_left : Stub := mkStub [] 0 true (Some 0%nat) [(bytes "r", 2)] 0 false.

Definition asked_again : SocketObj Stub Guest :=
  mkSocket "rep" one_left
           [(bytes "r", 2); (bytes "s", 0)]
           (Some (mkWatcher 7 true)) true replying
           [EvGuardSet; EvGetsockopt 15 (Ok 3);
            EvRecv (Ok (bytes "a")); EvGetsockopt 13 (Ok 0);
            EvEmitMessage [bytes "a"];
            EvEnqueue [(bytes "r", 2); (bytes "s", 0)]].

Definition asked_error : JsError :=
  mkError Transport "Resource temporarily unavailable" (Some 2) (Some "[]"%string).

Definition asked_done : SocketObj Stub Guest :=
  mkSocket "rep" none_left []
           (Some (mkWatcher 7 true)) false replying
           [EvGuardSet; EvGetsockopt 15 (Ok 3);
            EvRecv (Ok (bytes "a")); EvGetsockopt 13 (Ok 0);
            EvEmitMessage [bytes "a"];
            EvEnqueue [(bytes "r", 2); (bytes "s", 0)];
            EvGetsockopt 15 (Ok 2); EvSend (bytes "r") 2 (Ok tt);
            EvGetsockopt 15 (Ok 2); EvSend (bytes "s") 0 (Raise eagain);
            EvEmitError asked_error; EvGuardClear].

(** [farewell] when its listener has returned, and after its activation. *)
Definition closed : Stub := mkStub [] 0 true None [] 2 false.

Definition farewell_closed : SocketObj Stub Guest :=
  mkSocket "req" closed [(bytes "x", 0); (bytes "z", 0)] None true parting
           [EvGuardSet; EvGetsockopt 15 (Ok 3);
            EvRecv (Ok (bytes "a")); EvGetsockopt 13 (Ok 0);
            EvEmitMessage [bytes "a"]; EvWatcherStop;
            EvEnqueue [(bytes "z", 0)]].

Definition farewell_done : SocketObj Stub Guest :=
  mkSocket "req" closed [(bytes "x", 0); (bytes "z", 0)] None false parting
           [EvGuardSet; EvGetsockopt 15 (Ok 3);
            EvRecv (Ok (bytes "a")); EvGetsockopt 13 (Ok 0);
            EvEmitMessage [bytes "a"]; EvWatcherStop;
            EvEnqueue [(bytes "z", 0)]; EvGuardClear].

End Scripted.

(** ** Reading the trace *)

Definition is_guard (ev : Event) : bool :=
  match ev with
  | EvGuardSet | EvGuardClear => true
  | _ => false
  end.

(** The entries handed to the handle's [send], whatever came of it. *)
Definition popped (evs : list Event) : list Entry :=
  flat_map (fun ev => match ev with
                      | EvSend b f _ => [(b, f)]
                      | _ => []
                      end) evs.

(** The entries the handle's [send] has accepted. *)
Definition transmitted (evs : list Event) : list Entry :=
  flat_map (fun ev => match ev with
                      | EvSend b f (Ok _) => [(b, f)]
                      | _ => []
                      end) evs.

(** The entries appended to the queue by [send]. *)
Definition enqueued (evs : list Event) : list Entry :=
  flat_map (fun ev => match ev with
                      | EvEnqueue es => es
                      | _ => []
                      end) evs.

(** A call of [recv] or [send] on the handle. *)
Definition is_transfer (ev : Event) : bool :=
  match ev with
  | EvRecv _ | EvSend _ _ _ => true
  | _ => false
  end.

Definition is_emit (ev : Event) : bool :=
  match ev with
  | EvEmitMessage _ | EvEmitError _ => true
  | _ => false
  end.

(** The number of activations of the engine that are running after [evs]:
    up on [EvGuardSet], down on [EvGuardClear]. *)
Fixpoint running (evs : list Event) : Z :=
  match evs with
  | [] => 0
  | EvGuardSet :: rest => running rest + 1
  | EvGuardClear :: rest => running rest - 1
  | _ :: rest => running rest
  end.

(** The events of one complete multi-part receive: each [recv] followed by
    the read of [ZMQ_RCVMORE]. *)
Definition receive_trace {C : ZmqConstants} (items : list (Buffer * Z)) : list Event :=
  flat_map (fun it => [EvRecv (Ok (fst it)); EvGetsockopt ZMQ_RCVMORE (Ok (snd it))]) items.

(** The events of a send burst: each [send] followed by the re-read of
    [ZMQ_EVENTS]. *)
Definition burst_trace {C : ZmqConstants} (done : list (Entry * Z)) : list Event :=
  flat_map (fun d => [EvSend (fst (fst d)) (snd (fst d)) (Ok tt);
                      EvGetsockopt ZMQ_EVENTS (Ok (snd d))]) done.

(** The entries [send] is specified to build for the payloads [bufs]: the
    "more" flag on all but the last. *)
Definition group {C : ZmqConstants} (bufs : list Buffer) : list Entry :=
  match bufs with
  | [] => []
  | _ :: _ =>
      map (fun b => (b, js_or 0 ZMQ_SNDMORE)) (removelast bufs) ++ [(last bufs [], 0)]
  end.

(** The parts carried by the ['message'] events. *)
Definition messages (evs : list Event) : list (list Buffer) :=
  flat_map (fun ev => match ev with
                      | EvEmitMessage parts => [parts]
                      | _ => []
                      end) evs.

(** The exception of a [recv] or [send] that raised. *)
Definition raising (ev : Event) : option JsError :=
  match ev with
  | EvRecv (Raise e) => Some e
  | EvSend _ _ (Raise e) => Some e
  | _ => None
  end.

Definition raises (ev : Event) : bool :=
  match raising ev with
  | Some _ => true
  | None => false
  end.

Definition is_watcher_event (ev : Event) : bool :=
  match ev with
  | EvWatcherStart | EvWatcherStop => true
  | _ => false
  end.

(** An event of a listener's own calls: not the guard, not a transfer,
    not an emission. *)
Definition quiet_event (ev : Event) : bool :=
  negb (is_guard ev) && negb (is_transfer ev) && negb (is_emit ev).

(** An event other than ['error'] and a [recv] or [send] that raised. *)
Definition calm_event (ev : Event) : bool :=
  match ev with
  | EvEmitError _ => false
  | _ => match raising ev with
         | Some _ => false
         | None => true
         end
  end.

(** ** Properties of the wrapper *)

Section Properties.

Context {C : ZmqConstants} {H A : Type}
        {handle : SocketHandle H} {application : Application A}
        {guests : Wide.Listeners A}.
Variable inspect : list Entry -> string.
Variable utf8 : string -> Buffer.

Local Abbreviation Sock := (SocketObj H A).
Local Abbreviation flush := (_flush inspect utf8).
Local Abbreviation loop := (flush_loop utf8).

(** What the listeners' [send] calls do to the socket while the guard is
    set: they only append. *)
Definition enqueue_all (calls : list (list Part)) (s : Sock) : Sock :=
  fold_left (fun s1 arguments => enqueue utf8 arguments s1) calls s.

Definition guarded_noop (flush_rec : Sock -> option (Sock * Completion)) : Prop :=
  forall s, _inFlush s = true -> flush_rec s = Some (s, Normal).

Definition completion_of (t : option JsError) : Completion :=
  match t with
  | Some e => Throw e
  | None => Normal
  end.

(** The handle delivers the parts [items] in a row, reporting "more" after
    each but the last. *)
Inductive handle_yields : H -> list (Buffer * Z) -> H -> Prop :=
| yields_last h h1 h2 b more :
    zmq_recv h = (h1, Ok b) ->
    zmq_getsockopt ZMQ_RCVMORE h1 = (h2, Ok more) ->
    truthy more = false ->
    handle_yields h [(b, more)] h2
| yields_more h h1 h2 h3 b more items :
    zmq_recv h = (h1, Ok b) ->
    zmq_getsockopt ZMQ_RCVMORE h1 = (h2, Ok more) ->
    truthy more = true ->
    handle_yields h2 items h3 ->
    handle_yields h ((b, more) :: items) h3.

(** One action of the engine that succeeds. *)
Inductive okstep : Sock -> Sock -> Prop :=
| ok_getsockopt opt s s1 v :
    getsockopt opt s = (s1, Ok v) -> okstep s s1
| ok_recv s s1 b :
    recv s = (s1, Ok b) -> okstep s s1
| ok_send s sendArgs q s1 u :
    _outgoing s = sendArgs :: q ->
    send_entry sendArgs (set_outgoing q s) = (s1, Ok u) -> okstep s s1
| ok_emit s parts a sc :
    on_message (listeners s) parts = (a, sc) ->
    script_throws sc = None ->
    okstep s (enqueue_all (script_sends sc)
                          (set_listeners a (record (EvEmitMessage parts) s))).

(** One action of the engine that raises [e]. *)
Inductive failstep (e : JsError) : Sock -> Sock -> Prop :=
| fail_getsockopt opt s s1 :
    getsockopt opt s = (s1, Raise e) -> failstep e s s1
| fail_recv s s1 :
    recv s = (s1, Raise e) -> failstep e s s1
| fail_send s sendArgs q s1 :
    _outgoing s = sendArgs :: q ->
    send_entry sendArgs (set_outgoing q s) = (s1, Raise e) -> failstep e s s1
| fail_emit s parts a sc :
    on_message (listeners s) parts = (a, sc) ->
    script_throws sc = Some e ->
    failstep e s (enqueue_all (script_sends sc)
                              (set_listeners a (record (EvEmitMessage parts) s))).

Inductive oksteps : Sock -> Sock -> Prop :=
| oksteps_refl s : oksteps s s
| oksteps_step s s1 s2 : okstep s s1 -> oksteps s1 s2 -> oksteps s s2.

(** The entries one [send] call appends. *)
Definition queued_by (arguments : list Part) : list Entry :=
  send_parts utf8 (Z.of_nat (List.length arguments)) 0 arguments.

Definition no_guard (evs : list Event) : Prop :=
  forallb (fun ev => negb (is_guard ev)) evs = true.

(** What every action of the engine keeps, whether it succeeds or raises:
    the guard, the watcher, and the queue's books (everything that was
    queued is either still in the queue or was popped for the handle's
    [send], in order). *)
Record kept (s s' : Sock) (evs : list Event) : Prop := mkKept {
  kept_trace : trace s' = trace s ++ evs;
  kept_guard : _inFlush s' = _inFlush s;
  kept_watcher : _watcher s' = _watcher s;
  kept_no_guard : no_guard evs;
  kept_queue : _outgoing s ++ enqueued evs = popped evs ++ _outgoing s'
}.

(** Where a run of the engine stands when the loop body hands control on
    with [c], [s0] being the state after the last successful action. *)
Definition ends_with (s0 s' : Sock) (c : Control) : Prop :=
  match c with
  | CProceed | CBreak => s' = s0
  | CReturn => s' = clear_guard s0
  | CThrow e => failstep e s0 s'
  end.

(** The [send] calls of the ['error'] listener, if there is one. *)
Definition listener_calls (r : option (A * Script)) : list (list Part) :=
  match r with
  | Some (_, sc) => script_sends sc
  | None => []
  end.

(** One activation of the engine from [s] to [s']: the guard is set, the
    events [mid] happen, the guard is cleared. *)
Definition activation (s s' : Sock) (mid : list Event) : Prop :=
  trace s' = trace s ++ EvGuardSet :: mid ++ [EvGuardClear] /\
  no_guard mid /\
  _inFlush s' = false /\
  _watcher s' = _watcher s /\
  _outgoing s ++ enqueued mid = popped mid ++ _outgoing s'.

(** The socket with its handle replaced and [evs] added to the trace. *)
Definition advance (h : H) (evs : list Event) (s : Sock) : Sock :=
  mkSocket (type s) h (_outgoing s) (_watcher s) (_inFlush s) (listeners s)
           (trace s ++ evs).

(** Readiness that reports "writable" and nothing else. *)
Definition writable_only (ev : Z) : Prop :=
  truthy (js_and ev ZMQ_POLLOUT) = true /\
  truthy (js_and ev ZMQ_POLLIN) = false /\
  loop_flags [] ev = 0.

(** A handle that always reports writable-only readiness, and one whose
    [send] never raises. *)
Definition always_writable : Prop :=
  forall h, exists h' ev,
    zmq_getsockopt ZMQ_EVENTS h = (h', Ok ev) /\ writable_only ev.

Definition send_accepts : Prop :=
  forall b f h, exists h', zmq_send b f h = (h', Ok tt).

(** A send burst that starts under the readiness [flags]: every entry of
    [done] was sent under a reading that reported "writable" ([flags] for
    the first, the re-read that followed the previous send for the
    others); the last re-read is what the burst ends with. *)
Inductive burst : Z -> list (Entry * Z) -> Z -> Prop :=
| burst_stop flags : burst flags [] flags
| burst_send flags sendArgs flags1 done flags' :
    truthy (js_and flags ZMQ_POLLOUT) = true ->
    burst flags1 done flags' ->
    burst flags ((sendArgs, flags1) :: done) flags'.

(** The value an option setter hands to the handle: a string goes as its
    UTF-8 bytes, anything else as it is. *)
Definition setter_value (val : JsVal) : JsVal :=
  match val with
  | VStr str => VBuf (utf8 str)
  | _ => val
  end.

(** The handle calls that assigning [options] key by key amounts to: one
    [setsockopt] per key of [opts], in the order of the keys. *)
Definition option_calls (options : list (string * JsVal)) : list (Z * JsVal) :=
  flat_map (fun kv => match lookup opts (fst kv) with
                      | Some opt => [(opt, setter_value (snd kv))]
                      | None => []
                      end) options.

Definition known_option (kv : string * JsVal) : Prop := In (fst kv) (map fst opts).

(** A queue whose last entry, if there is one, closes its message: its
    flags are [0], no "more". *)
Definition complete (q : list Entry) : bool :=
  match q with
  | [] => true
  | _ :: _ => snd (last q ([], 0)) =? 0
  end.

Definition is_error_event (ev : Event) : bool :=
  match ev with
  | EvEmitError _ => true
  | _ => false
  end.

Definition is_message_event (ev : Event) : bool :=
  match ev with
  | EvEmitMessage _ => true
  | _ => false
  end.

(** A handle that never runs dry: it always reports readable, whatever
    the queue, always has a part to give, never raises and stays ready. *)
Record never_dry : Prop := mkNeverDry {
  dry_events : forall h, exists h' ev,
      zmq_getsockopt ZMQ_EVENTS h = (h', Ok ev) /\
      forall q, truthy (js_and (loop_flags q ev) ZMQ_POLLIN) = true;
  dry_recv : forall h, exists h' b, zmq_recv h = (h', Ok b);
  dry_more : forall h, exists h' more, zmq_getsockopt ZMQ_RCVMORE h = (h', Ok more);
  dry_send : forall b f h, exists h', zmq_send b f h = (h', Ok tt);
  dry_state : forall h, zmq_state h = STATE_READY
}.

(** Listeners for ['message'] that never throw. *)
Definition patient : Prop :=
  forall a parts, script_throws (snd (on_message a parts)) = None.

Definition no_error_event (evs : list Event) : Prop :=
  forallb (fun ev => negb (is_error_event ev)) evs = true.

(** *** With listeners at large *)

Local Abbreviation wflush := (Wide._flush inspect utf8).
Local Abbreviation wloop := (Wide.flush_loop utf8).

Definition wide_guarded (flush_rec : Sock -> option (Sock * Wide.Outcome)) : Prop :=
  forall s, _inFlush s = true -> flush_rec s = Some (s, Wide.Returns).

(** A call a listener makes while the guard is set: [send] only appends,
    the other methods do what they do. *)
Fixpoint perform_call (c : Wide.Call) (s : Sock) : Sock * Wide.Outcome :=
  match c with
  | Wide.CallSend arguments => (enqueue utf8 arguments s, Wide.Returns)
  | Wide.CallClose => let (s1, r) := close s in (s1, Wide.outcome_of r)
  | Wide.CallBind addr => let (s1, r) := Wide.bind addr s in (s1, Wide.outcome_of r)
  | Wide.CallBindSync addr => let (s1, r) := bindSync addr s in (s1, Wide.outcome_of r)
  | Wide.CallConnect addr => let (s1, r) := connect addr s in (s1, Wide.outcome_of r)
  | Wide.CallSetOption opt val =>
      let (s1, r) := set_option utf8 opt val s in
      (s1, Wide.outcome_of (result_completion r))
  | Wide.CallGetOption opt =>
      let (s1, r) := getsockopt opt s in
      (s1, Wide.outcome_of (result_completion r))
  | Wide.CallTry c1 => (fst (perform_call c1 s), Wide.Returns)
  end.

Fixpoint perform_calls (calls : list Wide.Call) (s : Sock) : Sock * Wide.Outcome :=
  match calls with
  | [] => (s, Wide.Returns)
  | c :: rest =>
      match perform_call c s with
      | (s1, Wide.Throws v) => (s1, Wide.Throws v)
      | (s1, Wide.Returns) => perform_calls rest s1
      end
  end.

Definition perform (b : Wide.Behaviour) (s : Sock) : Sock * Wide.Outcome :=
  match perform_calls (Wide.behaviour_calls b) s with
  | (s1, Wide.Throws v) => (s1, Wide.Throws v)
  | (s1, Wide.Returns) =>
      (s1, match Wide.behaviour_throws b with
           | Some v => Wide.Throws v
           | None => Wide.Returns
           end)
  end.

(** The two events as they go while the guard is set. *)
Definition deliver_message (parts : list Buffer) (s : Sock) : Sock * Wide.Outcome :=
  let (a, b) := Wide.message_listener (listeners s) parts in
  perform b (set_listeners a (record (EvEmitMessage parts) s)).

Definition deliver_error (e : JsError) (s : Sock) : Sock * Wide.Outcome :=
  match Wide.error_listener (listeners s) e with
  | None => (record (EvEmitError e) s, Wide.Throws (Wide.ThrownError e))
  | Some (a, b) => perform b (set_listeners a (record (EvEmitError e) s))
  end.

(** How the receive block goes on once the ['message'] event has been
    emitted with the result [r]. *)
Definition after_message (r : Sock * Wide.Outcome) : Sock * Wide.Exit :=
  match r with
  | (s, Wide.Throws v) => (s, Wide.XRaised v)
  | (s, Wide.Returns) =>
      if negb (zmq_state (_zmq s) =? STATE_READY)
      then (clear_guard s, Wide.XReturn)
      else (s, Wide.XProceed)
  end.

Definition all_quiet (evs : list Event) : Prop := forallb quiet_event evs = true.

Definition calm (evs : list Event) : Prop := forallb calm_event evs = true.

Definition watcher_untouched (evs : list Event) : Prop :=
  forallb (fun ev => negb (is_watcher_event ev)) evs = true.

(** What the engine keeps whatever the listeners do: the guard and the
    queue's books; and the watcher, as long as no listener has it stopped
    or started. *)
Record held (s s' : Sock) (evs : list Event) : Prop := mkHeld {
  held_trace : trace s' = trace s ++ evs;
  held_guard : _inFlush s' = _inFlush s;
  held_no_guard : no_guard evs;
  held_queue : _outgoing s ++ enqueued evs = popped evs ++ _outgoing s';
  held_watcher : watcher_untouched evs -> _watcher s' = _watcher s
}.

(** One action of the engine that succeeds. *)
Inductive wide_okstep : Sock -> Sock -> Prop :=
| wide_ok_getsockopt opt s s1 v :
    getsockopt opt s = (s1, Ok v) -> wide_okstep s s1
| wide_ok_recv s s1 b :
    recv s = (s1, Ok b) -> wide_okstep s s1
| wide_ok_send s sendArgs q s1 u :
    _outgoing s = sendArgs :: q ->
    send_entry sendArgs (set_outgoing q s) = (s1, Ok u) -> wide_okstep s s1
| wide_ok_emit s parts s1 :
    deliver_message parts s = (s1, Wide.Returns) -> wide_okstep s s1.

(** One action of the engine that throws [v]. *)
Inductive wide_failstep : Wide.Thrown -> Sock -> Sock -> Prop :=
| wide_fail_getsockopt opt s s1 e :
    getsockopt opt s = (s1, Raise e) -> wide_failstep (Wide.ThrownError e) s s1
| wide_fail_recv s s1 e :
    recv s = (s1, Raise e) -> wide_failstep (Wide.ThrownError e) s s1
| wide_fail_send s sendArgs q s1 e :
    _outgoing s = sendArgs :: q ->
    send_entry sendArgs (set_outgoing q s) = (s1, Raise e) ->
    wide_failstep (Wide.ThrownError e) s s1
| wide_fail_emit s parts s1 v :
    deliver_message parts s = (s1, Wide.Throws v) -> wide_failstep v s s1.

Inductive wide_oksteps : Sock -> Sock -> Prop :=
| wide_oksteps_refl s : wide_oksteps s s
| wide_oksteps_step s s1 s2 :
    wide_okstep s s1 -> wide_oksteps s1 s2 -> wide_oksteps s s2.

Definition wide_ends (s0 s' : Sock) (x : Wide.Exit) : Prop :=
  match x with
  | Wide.XProceed | Wide.XBreak => s' = s0
  | Wide.XReturn => s' = clear_guard s0
  | Wide.XRaised v => wide_failstep v s0 s'
  end.

(** The events of an action that throws [v]: the handle call that raised,
    or the ['message'] event with what its listener did before it threw. *)
Inductive failure_events : Wide.Thrown -> list Event -> Prop :=
| failure_getsockopt opt e :
    failure_events (Wide.ThrownError e) [EvGetsockopt opt (Raise e)]
| failure_recv e :
    failure_events (Wide.ThrownError e) [EvRecv (Raise e)]
| failure_send b f e :
    failure_events (Wide.ThrownError e) [EvSend b f (Raise e)]
| failure_listener v parts evs :
    all_quiet evs -> failure_events v (EvEmitMessage parts :: evs).

(** The handle delivers the parts [items] and then raises [e]: on the next
    [recv], or on the read of [ZMQ_RCVMORE] after it.  [tail] is the
    events of the calls that ended the receive. *)
Inductive handle_breaks : H -> list (Buffer * Z) -> list Event -> JsError -> H -> Prop :=
| breaks_recv h h1 e :
    zmq_recv h = (h1, Raise e) ->
    handle_breaks h [] [EvRecv (Raise e)] e h1
| breaks_more h h1 h2 b e :
    zmq_recv h = (h1, Ok b) ->
    zmq_getsockopt ZMQ_RCVMORE h1 = (h2, Raise e) ->
    handle_breaks h [] [EvRecv (Ok b); EvGetsockopt ZMQ_RCVMORE (Raise e)] e h2
| breaks_later h h1 h2 h3 b more items tail e :
    zmq_recv h = (h1, Ok b) ->
    zmq_getsockopt ZMQ_RCVMORE h1 = (h2, Ok more) ->
    truthy more = true ->
    handle_breaks h2 items tail e h3 ->
    handle_breaks h ((b, more) :: items) tail e h3.

(** The handle, under the readiness [flags] and with the queue [q] to
    send, accepts the entries [done], each under a reading that reports
    "writable", and then raises [e]: on the [send] of the next entry, or on
    the re-read of the readiness after it.  [rest] is what is left of the
    queue, [fl] the value of [flags] at that point. *)
Inductive handle_refuses
  : H -> Z -> list Entry -> list (Entry * Z) -> list Event -> Z -> JsError
    -> H -> list Entry -> Prop :=
| refuses_send h h1 flags b f rest e :
    truthy (js_and flags ZMQ_POLLOUT) = true ->
    zmq_send b f h = (h1, Raise e) ->
    handle_refuses h flags ((b, f) :: rest) [] [EvSend b f (Raise e)] flags e h1 rest
| refuses_read h h1 h2 flags b f rest e :
    truthy (js_and flags ZMQ_POLLOUT) = true ->
    zmq_send b f h = (h1, Ok tt) ->
    zmq_getsockopt ZMQ_EVENTS h1 = (h2, Raise e) ->
    handle_refuses h flags ((b, f) :: rest) []
                   [EvSend b f (Ok tt); EvGetsockopt ZMQ_EVENTS (Raise e)] flags e h2 rest
| refuses_later h h1 h2 h3 flags flags1 b f q done tail fl e rest :
    truthy (js_and flags ZMQ_POLLOUT) = true ->
    zmq_send b f h = (h1, Ok tt) ->
    zmq_getsockopt ZMQ_EVENTS h1 = (h2, Ok flags1) ->
    handle_refuses h2 flags1 q done tail fl e h3 rest ->
    handle_refuses h flags ((b, f) :: q) (((b, f), flags1) :: done) tail fl e h3 rest.

(** The loop entered with [fuel], [fl] and [s] enters, after some
    complete passes, a pass with [fuel'], [fl'] and [s']. *)
Inductive passes (flush_rec : Sock -> option (Sock * Wide.Outcome))
  : nat -> option Z -> Sock -> nat -> option Z -> Sock -> Prop :=
| passes_none n fl s : passes flush_rec n fl s n fl s
| passes_next n fl s s1 ev s2 s3 flags2 n' fl' s' :
    _ioevents s = (s1, Ok ev) ->
    truthy (loop_flags (_outgoing s1) ev) = true ->
    (if truthy (js_and (loop_flags (_outgoing s1) ev) ZMQ_POLLIN)
     then Wide.receive_block utf8 flush_rec n s1
     else Some (s1, Wide.XProceed)) = Some (s2, Wide.XProceed) ->
    send_burst (_outgoing s2) (loop_flags (_outgoing s1) ev) s2 = (s3, flags2, Normal) ->
    passes flush_rec n (Some flags2) s3 n' fl' s' ->
    passes flush_rec (S n) fl s n' fl' s'.

(** A call that leaves the watcher alone, and listeners that make no other
    calls. *)
Fixpoint leaves_watcher (c : Wide.Call) : bool :=
  match c with
  | Wide.CallClose | Wide.CallBind _ | Wide.CallBindSync _ => false
  | Wide.CallTry c1 => leaves_watcher c1
  | _ => true
  end.

Definition watcher_left_alone : Prop :=
  (forall a parts,
      forallb leaves_watcher
              (Wide.behaviour_calls (snd (Wide.message_listener a parts))) = true) /\
  (forall a e a' b,
      Wide.error_listener a e = Some (a', b) ->
      forallb leaves_watcher (Wide.behaviour_calls b) = true).

(** *** JavaScript integers *)

Lemma ToInt32_0 : ToInt32 0 = 0.
Proof. reflexivity. Qed.

Lemma truthy_js_and_l a b : truthy (js_and a b) = true -> truthy a = true.
Proof.
  unfold truthy, js_and. intros Hab.
  destruct (Z.eqb_spec a 0) as [->|]; [|reflexivity].
  rewrite ToInt32_0, Z.land_0_l in Hab. discriminate.
Qed.

Lemma js_or_0_l x : js_or 0 x = ToInt32 x.
Proof. unfold js_or. rewrite ToInt32_0. apply Z.lor_0_l. Qed.

Lemma ToInt32_range z : - 2 ^ 31 <= ToInt32 z < 2 ^ 31.
Proof.
  unfold ToInt32.
  assert (0 <= (z + 2 ^ 31) mod 2 ^ 32 < 2 ^ 32) by (apply Z.mod_pos_bound; lia).
  lia.
Qed.

Lemma ToInt32_small z : - 2 ^ 31 <= z < 2 ^ 31 -> ToInt32 z = z.
Proof.
  intros Hz. unfold ToInt32. rewrite Z.mod_small; lia.
Qed.

Lemma int32_high z : - 2 ^ 31 <= z < 2 ^ 31 <-> (Z.shiftr z 31 = 0 \/ Z.shiftr z 31 = -1).
Proof.
  rewrite Z.shiftr_div_pow2 by lia.
  pose proof (Z.div_mod z (2 ^ 31) ltac:(lia)) as Hdm.
  pose proof (Z.mod_pos_bound z (2 ^ 31) ltac:(lia)) as Hm.
  split.
  - intros Hz.
    assert (-1 <= z / 2 ^ 31 < 1) by (split; [apply Z.div_le_lower_bound | apply Z.div_lt_upper_bound]; lia).
    lia.
  - intros [Hd|Hd]; rewrite Hd in Hdm; lia.
Qed.

Lemma int32_land a b :
  - 2 ^ 31 <= a < 2 ^ 31 -> - 2 ^ 31 <= b < 2 ^ 31 -> - 2 ^ 31 <= Z.land a b < 2 ^ 31.
Proof.
  rewrite !int32_high, Z.shiftr_land.
  intros [-> | ->] [-> | ->]; cbn; auto.
Qed.

Lemma ToInt32_lnot z : ToInt32 (Z.lnot (ToInt32 z)) = Z.lnot (ToInt32 z).
Proof.
  apply ToInt32_small. pose proof (ToInt32_range z). unfold Z.lnot. lia.
Qed.

(** Masking out the writable bit leaves a bitmask without it. *)
Lemma masked_not_writable ev : js_and (loop_flags [] ev) ZMQ_POLLOUT = 0.
Proof.
  unfold loop_flags, js_and, js_not.
  rewrite ToInt32_lnot, (ToInt32_small (Z.land _ _)).
  - rewrite <- Z.land_assoc, (Z.land_comm (Z.lnot _)), Z.land_lnot_diag.
    apply Z.land_0_r.
  - apply int32_land; [apply ToInt32_range|].
    rewrite <- ToInt32_lnot. apply ToInt32_range.
Qed.

Lemma writable_only_masked : loop_flags [] ZMQ_POLLOUT = 0.
Proof.
  unfold loop_flags, js_and, js_not.
  rewrite ToInt32_lnot. apply Z.land_lnot_diag.
Qed.

(** *** The primitive actions and what they keep *)

Lemma getsockopt_spec opt (s s1 : Sock) r :
  getsockopt opt s = (s1, r) ->
  exists h, zmq_getsockopt opt (_zmq s) = (h, r) /\
            s1 = record (EvGetsockopt opt r) (set_zmq h s).
Proof.
  unfold getsockopt. destruct (zmq_getsockopt opt (_zmq s)) as [h r0].
  intros [= <- <-]. eauto.
Qed.

Lemma recv_spec (s s1 : Sock) r :
  recv s = (s1, r) ->
  exists h, zmq_recv (_zmq s) = (h, r) /\ s1 = record (EvRecv r) (set_zmq h s).
Proof.
  unfold recv. destruct (zmq_recv (_zmq s)) as [h r0].
  intros [= <- <-]. eauto.
Qed.

Lemma send_entry_spec b f (s s1 : Sock) r :
  send_entry (b, f) s = (s1, r) ->
  exists h, zmq_send b f (_zmq s) = (h, r) /\ s1 = record (EvSend b f r) (set_zmq h s).
Proof.
  unfold send_entry. cbn [fst snd]. destruct (zmq_send b f (_zmq s)) as [h r0].
  intros [= <- <-]. eauto.
Qed.

Lemma kept_refl (s : Sock) : kept s s [].
Proof.
  constructor; cbn; try reflexivity.
  - now rewrite app_nil_r.
  - now rewrite app_nil_r.
Qed.

Lemma kept_trans (s s1 s2 : Sock) evs1 evs2 :
  kept s s1 evs1 -> kept s1 s2 evs2 -> kept s s2 (evs1 ++ evs2).
Proof.
  intros [Ht1 Hg1 Hw1 Hn1 Hq1] [Ht2 Hg2 Hw2 Hn2 Hq2].
  constructor.
  - now rewrite Ht2, Ht1, app_assoc.
  - congruence.
  - congruence.
  - unfold no_guard in *. now rewrite forallb_app, Hn1, Hn2.
  - unfold enqueued, popped in *. rewrite !flat_map_app.
    rewrite app_assoc, Hq1, <- !app_assoc. f_equal. exact Hq2.
Qed.

(** A handle call other than [send] changes the handle and the trace only. *)
Lemma kept_call ev h (s : Sock) :
  is_guard ev = false -> popped [ev] = [] -> enqueued [ev] = [] ->
  kept s (record ev (set_zmq h s)) [ev].
Proof.
  intros Hg Hp He. constructor; cbn [trace _inFlush _watcher _outgoing record set_zmq]; auto.
  - unfold no_guard. cbn. now rewrite Hg.
  - now rewrite Hp, He, app_nil_r.
Qed.

(** [shift] followed by the handle's [send]. *)
Lemma kept_send b f r h q (s : Sock) :
  _outgoing s = (b, f) :: q ->
  kept s (record (EvSend b f r) (set_zmq h (set_outgoing q s))) [EvSend b f r].
Proof.
  intros Hq. constructor; cbn [trace _inFlush _watcher _outgoing record set_zmq set_outgoing]; auto.
  - reflexivity.
  - rewrite Hq. cbn. now rewrite app_nil_r.
Qed.

Lemma enqueue_all_fields calls (s : Sock) :
  trace (enqueue_all calls s) = trace s ++ map (fun c => EvEnqueue (queued_by c)) calls /\
  _outgoing (enqueue_all calls s) = _outgoing s ++ flat_map queued_by calls /\
  _inFlush (enqueue_all calls s) = _inFlush s /\
  _watcher (enqueue_all calls s) = _watcher s /\
  _zmq (enqueue_all calls s) = _zmq s /\
  listeners (enqueue_all calls s) = listeners s.
Proof.
  revert s. induction calls as [|c calls IH]; intros s; cbn [enqueue_all fold_left].
  - cbn. now rewrite !app_nil_r.
  - destruct (IH (enqueue utf8 c s)) as (Ht & Hq & Hg & Hw & Hz & Hl).
    unfold enqueue_all in *. rewrite Ht, Hq, Hg, Hw, Hz, Hl.
    cbn. rewrite <- !app_assoc. repeat split; reflexivity.
Qed.

Lemma enqueued_map_enqueue calls :
  enqueued (map (fun c => EvEnqueue (queued_by c)) calls) = flat_map queued_by calls.
Proof.
  induction calls as [|c calls IH]; cbn; [reflexivity|].
  unfold enqueued in IH. now rewrite IH.
Qed.

Lemma popped_map_enqueue calls :
  popped (map (fun c => EvEnqueue (queued_by c)) calls) = [].
Proof. induction calls as [|c calls IH]; cbn; auto. Qed.

Lemma transmitted_map_enqueue calls :
  transmitted (map (fun c => EvEnqueue (queued_by c)) calls) = [].
Proof. induction calls as [|c calls IH]; cbn; auto. Qed.

Lemma no_guard_map_enqueue calls :
  no_guard (map (fun c => EvEnqueue (queued_by c)) calls).
Proof. unfold no_guard. induction calls as [|c calls IH]; cbn; auto. Qed.

(** An event emitted while the guard is set: the listener's state changes
    and its [send] calls append to the queue. *)
Lemma kept_emit ev a calls (s : Sock) :
  is_emit ev = true ->
  kept s (enqueue_all calls (set_listeners a (record ev s)))
       (ev :: map (fun c => EvEnqueue (queued_by c)) calls).
Proof.
  intros Hev.
  destruct (enqueue_all_fields calls (set_listeners a (record ev s)))
    as (Ht & Hq & Hg & Hw & _ & _).
  constructor.
  - rewrite Ht. cbn. now rewrite <- app_assoc.
  - rewrite Hg. reflexivity.
  - rewrite Hw. reflexivity.
  - unfold no_guard. cbn [forallb].
    rewrite (no_guard_map_enqueue calls). destruct ev; cbn in *; congruence.
  - rewrite Hq. cbn [_outgoing set_listeners record].
    change (ev :: ?l) with ([ev] ++ l).
    unfold enqueued, popped. rewrite !flat_map_app.
    fold (enqueued (map (fun c => EvEnqueue (queued_by c)) calls)).
    fold (popped (map (fun c => EvEnqueue (queued_by c)) calls)).
    rewrite enqueued_map_enqueue, popped_map_enqueue.
    destruct ev; cbn in *; congruence.
Qed.

Lemma popped_app evs1 evs2 : popped (evs1 ++ evs2) = popped evs1 ++ popped evs2.
Proof. apply flat_map_app. Qed.

Lemma transmitted_app evs1 evs2 :
  transmitted (evs1 ++ evs2) = transmitted evs1 ++ transmitted evs2.
Proof. apply flat_map_app. Qed.

Lemma enqueued_app evs1 evs2 : enqueued (evs1 ++ evs2) = enqueued evs1 ++ enqueued evs2.
Proof. apply flat_map_app. Qed.

Lemma okstep_kept (s s1 : Sock) :
  okstep s s1 -> exists evs, kept s s1 evs /\ popped evs = transmitted evs.
Proof.
  destruct 1 as [opt s s1 v Hg | s s1 b Hr | s [b f] q s1 u Hq Hs | s parts a sc Hm Ht].
  - apply getsockopt_spec in Hg as (h & _ & ->).
    eexists; split; [apply kept_call; reflexivity | reflexivity].
  - apply recv_spec in Hr as (h & _ & ->).
    eexists; split; [apply kept_call; reflexivity | reflexivity].
  - apply send_entry_spec in Hs as (h & _ & ->).
    eexists; split; [apply kept_send; exact Hq | reflexivity].
  - eexists; split; [apply kept_emit; reflexivity |].
    cbn. now rewrite popped_map_enqueue, transmitted_map_enqueue.
Qed.

Lemma failstep_kept e (s s1 : Sock) :
  failstep e s s1 ->
  exists evs, kept s s1 evs /\ transmitted evs = [] /\
              (popped evs = [] \/ exists b f, evs = [EvSend b f (Raise e)]).
Proof.
  destruct 1 as [opt s s1 Hg | s s1 Hr | s [b f] q s1 Hq Hs | s parts a sc Hm Ht].
  - apply getsockopt_spec in Hg as (h & _ & ->).
    eexists; split; [apply kept_call; reflexivity | cbn; auto].
  - apply recv_spec in Hr as (h & _ & ->).
    eexists; split; [apply kept_call; reflexivity | cbn; auto].
  - apply send_entry_spec in Hs as (h & _ & ->).
    eexists; split; [apply kept_send; exact Hq | cbn; eauto].
  - eexists; split; [apply kept_emit; reflexivity |].
    cbn. rewrite popped_map_enqueue, transmitted_map_enqueue. auto.
Qed.

Lemma oksteps_kept (s s' : Sock) :
  oksteps s s' -> exists evs, kept s s' evs /\ popped evs = transmitted evs.
Proof.
  induction 1 as [s | s s1 s2 Hstep _ (evs2 & Hk2 & Hp2)].
  - exists []. split; [apply kept_refl | reflexivity].
  - apply okstep_kept in Hstep as (evs1 & Hk1 & Hp1).
    exists (evs1 ++ evs2). split; [eapply kept_trans; eauto |].
    now rewrite popped_app, transmitted_app, Hp1, Hp2.
Qed.

Lemma oksteps_one (s s1 : Sock) : okstep s s1 -> oksteps s s1.
Proof. intros Hs. eapply oksteps_step; [exact Hs | apply oksteps_refl]. Qed.

Lemma oksteps_trans (s s1 s2 : Sock) : oksteps s s1 -> oksteps s1 s2 -> oksteps s s2.
Proof.
  induction 1 as [|s a b Hstep _ IH]; intros H2; [exact H2|].
  eapply oksteps_step; [exact Hstep | apply IH, H2].
Qed.

Lemma oksteps_guard (s s' : Sock) : oksteps s s' -> _inFlush s' = _inFlush s.
Proof. intros Hs. apply oksteps_kept in Hs as (evs & Hk & _). apply Hk. Qed.

(** *** Listeners under the guard *)

Lemma flush_guarded n : guarded_noop (flush n).
Proof. intros s Hs. destruct n; cbn; now rewrite Hs. Qed.

Section Guarded.

Variable flush_rec : Sock -> option (Sock * Completion).
Hypothesis Hnoop : guarded_noop flush_rec.

Lemma run_sends_guarded calls (s : Sock) :
  _inFlush s = true ->
  run_sends utf8 flush_rec calls s = Some (enqueue_all calls s, Normal).
Proof.
  revert s. induction calls as [|c calls IH]; intros s Hs; cbn [run_sends].
  - reflexivity.
  - unfold send_with. rewrite (Hnoop (enqueue utf8 c s)) by exact Hs.
    apply IH. exact Hs.
Qed.

Lemma run_script_guarded sc (s : Sock) :
  _inFlush s = true ->
  run_script utf8 flush_rec sc s
  = Some (enqueue_all (script_sends sc) s, completion_of (script_throws sc)).
Proof.
  intros Hs. unfold run_script. rewrite run_sends_guarded by exact Hs.
  destruct (script_throws sc); reflexivity.
Qed.

Lemma emit_message_guarded parts (s : Sock) :
  _inFlush s = true ->
  emit_message utf8 flush_rec parts s
  = Some (enqueue_all (script_sends (snd (on_message (listeners s) parts)))
                      (set_listeners (fst (on_message (listeners s) parts))
                                     (record (EvEmitMessage parts) s)),
          completion_of (script_throws (snd (on_message (listeners s) parts)))).
Proof.
  intros Hs. unfold emit_message.
  destruct (on_message (listeners s) parts) as [a sc]. cbn [fst snd].
  apply run_script_guarded. exact Hs.
Qed.

Lemma emit_error_guarded e (s : Sock) :
  _inFlush s = true ->
  emit_error utf8 flush_rec e s
  = Some match on_error (listeners s) e with
         | None => (record (EvEmitError e) s, Throw e)
         | Some (a, sc) =>
             (enqueue_all (script_sends sc)
                          (set_listeners a (record (EvEmitError e) s)),
              completion_of (script_throws sc))
         end.
Proof.
  intros Hs. unfold emit_error.
  destruct (on_error (listeners s) e) as [[a sc]|]; [|reflexivity].
  apply run_script_guarded. exact Hs.
Qed.

End Guarded.

(** *** A run of the engine is a row of successful actions, possibly
        ended by one that raises *)

Lemma getsockopt_outgoing opt (s s1 : Sock) r :
  getsockopt opt s = (s1, r) -> _outgoing s1 = _outgoing s.
Proof. intros Hg. apply getsockopt_spec in Hg as (h & _ & ->). reflexivity. Qed.

Lemma send_entry_outgoing e (s s1 : Sock) r :
  send_entry e s = (s1, r) -> _outgoing s1 = _outgoing s.
Proof.
  destruct e as [b f]. intros Hs. apply send_entry_spec in Hs as (h & _ & ->).
  reflexivity.
Qed.

Lemma recv_parts_steps fuel : forall acc (s s' : Sock) r,
  recv_parts fuel acc s = Some (s', r) ->
  exists s0, oksteps s s0 /\
             match r with
             | Ok _ => s' = s0
             | Raise e => failstep e s0 s'
             end.
Proof.
  induction fuel as [|n IH]; intros acc s s' r; cbn [recv_parts]; [discriminate|].
  destruct (recv s) as [s1 [b|e]] eqn:Hr.
  2: { intros [= <- <-]. exists s. split; [apply oksteps_refl | now apply fail_recv]. }
  assert (Hs1 : oksteps s s1) by (eapply oksteps_one, ok_recv; exact Hr).
  destruct (_receiveMore s1) as [s2 [more|e]] eqn:Hm.
  2: { intros [= <- <-]. exists s1. split; [exact Hs1 |].
       eapply fail_getsockopt. exact Hm. }
  assert (Hs2 : oksteps s s2).
  { eapply oksteps_trans; [exact Hs1 |]. eapply oksteps_one, ok_getsockopt. exact Hm. }
  destruct (truthy more).
  - intros Hrec. apply IH in Hrec as (s0 & Hsteps & Hres).
    exists s0. split; [eapply oksteps_trans; eauto | exact Hres].
  - intros [= <- <-]. exists s2. split; [exact Hs2 | reflexivity].
Qed.

Lemma send_burst_steps q : forall fl (s s' : Sock) fl' c,
  _outgoing s = q ->
  send_burst q fl s = (s', fl', c) ->
  exists s0, oksteps s s0 /\
             match c with
             | Normal => s' = s0
             | Throw e => failstep e s0 s'
             end.
Proof.
  induction q as [|sendArgs q IH]; intros fl s s' fl' c Hq; cbn [send_burst].
  - intros [= <- <- <-]. exists s. split; [apply oksteps_refl | reflexivity].
  - destruct (truthy (js_and fl ZMQ_POLLOUT)).
    2: { intros [= <- <- <-]. exists s. split; [apply oksteps_refl | reflexivity]. }
    destruct (send_entry sendArgs (set_outgoing q s)) as [s1 [u|e]] eqn:Hs.
    2: { intros [= <- <- <-]. exists s. split; [apply oksteps_refl |].
         eapply fail_send; eauto. }
    assert (Hs1 : oksteps s s1) by (eapply oksteps_one, ok_send; eauto).
    assert (Hq1 : _outgoing s1 = q) by (apply send_entry_outgoing in Hs; exact Hs).
    destruct (_ioevents s1) as [s2 [fl2|e]] eqn:Hio.
    2: { intros [= <- <- <-]. exists s1. split; [exact Hs1 |].
         eapply fail_getsockopt. exact Hio. }
    assert (Hq2 : _outgoing s2 = q) by (apply getsockopt_outgoing in Hio; congruence).
    intros Hrec. apply (IH _ _ _ _ _ Hq2) in Hrec as (s0 & Hsteps & Hres).
    exists s0. split; [|exact Hres].
    eapply oksteps_trans; [exact Hs1 |].
    eapply oksteps_step; [eapply ok_getsockopt; exact Hio | exact Hsteps].
Qed.

Section GuardedRun.

Variable flush_rec : Sock -> option (Sock * Completion).
Hypothesis Hnoop : guarded_noop flush_rec.

Lemma receive_block_steps fuel (s s' : Sock) c :
  _inFlush s = true ->
  receive_block utf8 flush_rec fuel s = Some (s', c) ->
  c <> CBreak /\ exists s0, oksteps s s0 /\ ends_with s0 s' c.
Proof.
  intros Hg. unfold receive_block.
  destruct (recv_parts fuel [] s) as [[s1 [parts|e]]|] eqn:Hrecv; [| |discriminate].
  2: { intros [= <- <-]. split; [discriminate|].
       apply recv_parts_steps in Hrecv as (s0 & Hsteps & Hres). eauto. }
  apply recv_parts_steps in Hrecv as (s0 & Hsteps & ->).
  assert (Hg0 : _inFlush s0 = true) by (rewrite (oksteps_guard _ _ Hsteps); exact Hg).
  rewrite (emit_message_guarded _ Hnoop) by exact Hg0.
  destruct (on_message (listeners s0) parts) as [a sc] eqn:Hm. cbn [fst snd].
  destruct (script_throws sc) as [e|] eqn:Ht; cbn [completion_of].
  - intros [= <- <-]. split; [discriminate|].
    exists s0. split; [exact Hsteps |]. eapply fail_emit; eauto.
  - set (s2 := enqueue_all _ _).
    assert (Hs2 : oksteps s s2).
    { eapply oksteps_trans; [exact Hsteps |]. eapply oksteps_one, ok_emit; eauto. }
    destruct (negb (zmq_state (_zmq s2) =? STATE_READY)); intros [= <- <-];
      (split; [discriminate|]); exists s2; split; auto; reflexivity.
Qed.

Lemma flush_loop_steps fuel : forall fl (s s' : Sock) fl' c,
  _inFlush s = true ->
  flush_loop utf8 flush_rec fuel fl s = Some (s', fl', c) ->
  c <> CProceed /\ exists s0, oksteps s s0 /\ ends_with s0 s' c.
Proof.
  induction fuel as [|n IH]; intros fl s s' fl' c Hg; cbn [flush_loop]; [discriminate|].
  destruct (_ioevents s) as [s1 [ev|e]] eqn:Hio.
  2: { intros [= <- <- <-]. split; [discriminate|].
       exists s. split; [apply oksteps_refl |]. eapply fail_getsockopt. exact Hio. }
  assert (Hs1 : oksteps s s1) by (eapply oksteps_one, ok_getsockopt; exact Hio).
  assert (Hg1 : _inFlush s1 = true) by (rewrite (oksteps_guard _ _ Hs1); exact Hg).
  destruct (negb (truthy (loop_flags (_outgoing s1) ev))).
  { intros [= <- <- <-]. split; [discriminate|]. exists s1. split; [exact Hs1 | reflexivity]. }
  assert (Hblock : forall s2 c2,
             (if truthy (js_and (loop_flags (_outgoing s1) ev) ZMQ_POLLIN)
              then receive_block utf8 flush_rec n s1 else Some (s1, CProceed)) = Some (s2, c2) ->
             c2 <> CBreak /\ exists s0, oksteps s1 s0 /\ ends_with s0 s2 c2).
  { intros s2 c2. destruct (truthy (js_and _ ZMQ_POLLIN)).
    - apply receive_block_steps. exact Hg1.
    - intros [= <- <-]. split; [discriminate|]. exists s1. split; [apply oksteps_refl | reflexivity]. }
  destruct (if truthy (js_and _ ZMQ_POLLIN) then _ else _) as [[s2 c2]|]; [|discriminate].
  destruct (Hblock s2 c2 eq_refl) as (Hc2 & s0 & Hsteps & Hend).
  destruct c2; [ | congruence | | ].
  - cbn in Hend. subst s2.
    assert (Hs0 : oksteps s s0) by (eapply oksteps_trans; eauto).
    destruct (send_burst (_outgoing s0) (loop_flags (_outgoing s1) ev) s0)
      as [[s3 fl3] [|e]] eqn:Hb.
    + apply send_burst_steps in Hb as (s4 & Hsteps4 & ->); [|reflexivity].
      assert (Hs4 : oksteps s s4) by (eapply oksteps_trans; eauto).
      intros Hrec. apply IH in Hrec as (Hc & s5 & Hsteps5 & Hend5).
      * split; [exact Hc|]. exists s5. split; [eapply oksteps_trans; eauto | exact Hend5].
      * rewrite (oksteps_guard _ _ Hs4). exact Hg.
    + apply send_burst_steps in Hb as (s4 & Hsteps4 & Hfail); [|reflexivity].
      intros [= <- <- <-]. split; [discriminate|].
      exists s4. split; [eapply oksteps_trans; eauto | exact Hfail].
  - intros [= <- <- <-]. split; [discriminate|].
    exists s0. split; [eapply oksteps_trans; eauto | exact Hend].
  - intros [= <- <- <-]. split; [discriminate|].
    exists s0. split; [eapply oksteps_trans; eauto | exact Hend].
Qed.

End GuardedRun.

(** *** The shape of one activation *)

Lemma kept_event ev (s : Sock) :
  is_emit ev = true -> kept s (record ev s) [ev].
Proof.
  intros Hev. constructor; cbn [trace _inFlush _watcher _outgoing record]; auto.
  - unfold no_guard. destruct ev; cbn in *; congruence.
  - destruct ev; cbn in *; try congruence; now rewrite app_nil_r.
Qed.

(** ['error'] is always delivered while the guard is set: the listener's
    [send] calls only append, and the emission ends normally exactly when
    there is a listener and it does not throw. *)
Lemma emit_error_run flush_rec e (s : Sock) :
  guarded_noop flush_rec ->
  _inFlush s = true ->
  exists s2 c,
    emit_error utf8 flush_rec e s = Some (s2, c) /\
    kept s s2 (EvEmitError e
               :: map (fun c => EvEnqueue (queued_by c))
                      (listener_calls (on_error (listeners s) e))) /\
    c = match on_error (listeners s) e with
        | None => Throw e
        | Some (_, sc) => completion_of (script_throws sc)
        end.
Proof.
  intros Hnoop Hg. rewrite (emit_error_guarded _ Hnoop) by exact Hg.
  destruct (on_error (listeners s) e) as [[a sc]|]; cbn [listener_calls map].
  - eexists _, _. split; [reflexivity|]. split; [|reflexivity].
    apply kept_emit. reflexivity.
  - eexists _, _. split; [reflexivity|]. split; [|reflexivity].
    apply kept_event. reflexivity.
Qed.

Lemma activation_intro (s sp : Sock) mid :
  kept (record EvGuardSet (set_inFlush true s)) sp mid ->
  activation s (clear_guard sp) mid.
Proof.
  intros [Ht Hg Hw Hn Hq]. unfold activation.
  cbn [trace _inFlush _watcher _outgoing clear_guard record set_inFlush] in *.
  repeat split; auto.
  rewrite Ht, <- !app_assoc. reflexivity.
Qed.

(** Every activation that returns, normally or not: the guard is set at
    the start and cleared at the end and nowhere in between; the watcher is
    not touched; the queue's books balance; and whatever was popped was
    transmitted, except for the one entry whose [send] raised. *)
Lemma flush_shape fuel (s s' : Sock) c :
  _inFlush s = false ->
  flush fuel s = Some (s', c) ->
  exists mid lost,
    activation s s' mid /\
    popped mid = transmitted mid ++ lost /\
    (lost = [] \/ exists b f e, lost = [(b, f)] /\ In (EvSend b f (Raise e)) mid).
Proof.
  intros Hg. destruct fuel as [|n]; cbn [_flush]; rewrite Hg; [discriminate|].
  set (s0 := record EvGuardSet (set_inFlush true s)).
  destruct (loop (flush n) n None s0) as [[[s1 fl] c1]|] eqn:Hloop; [|discriminate].
  apply (flush_loop_steps _ (flush_guarded n)) in Hloop as (Hc1 & sp & Hsteps & Hend);
    [|reflexivity].
  pose proof (oksteps_guard _ _ Hsteps) as Hgp.
  apply oksteps_kept in Hsteps as (evs & Hk & Hpt).
  assert (Hplain : forall c0, Some (clear_guard sp, Normal) = Some (s', c0) ->
            exists mid lost, activation s s' mid /\
              popped mid = transmitted mid ++ lost /\
              (lost = [] \/ exists b f e, lost = [(b, f)] /\ In (EvSend b f (Raise e)) mid)).
  { intros c0 [= <- _]. exists evs, []. split; [apply activation_intro, Hk|].
    rewrite app_nil_r. auto. }
  destruct c1 as [| | |e]; cbn [ends_with] in Hend.
  - congruence.
  - subst s1. apply Hplain.
  - subst s1. apply Hplain.
  - apply failstep_kept in Hend as Hf. destruct Hf as (evs1 & Hk1 & Ht1 & Hl1).
    assert (Hg1 : _inFlush s1 = true).
    { rewrite (kept_guard _ _ _ Hk1), Hgp. reflexivity. }
    destruct (emit_error_run (flush n) (attach inspect fl (_outgoing s1) e) s1
                (flush_guarded n) Hg1) as (s2 & c2 & -> & Hk2 & _).
    intros Hres.
    assert (Hs' : s' = clear_guard s2) by (destruct c2; congruence).
    subst s'. eexists _, (popped evs1).
    split; [apply activation_intro; eapply kept_trans; [exact Hk|];
            eapply kept_trans; [exact Hk1 | exact Hk2] |].
    split.
    + change (EvEmitError ?x :: ?l) with ([EvEmitError x] ++ l).
      rewrite !popped_app, !transmitted_app, Ht1, Hpt.
      rewrite popped_map_enqueue, transmitted_map_enqueue. cbn.
      now rewrite !app_nil_r.
    + destruct Hl1 as [Hnil | (b & f & ->)]; [left; exact Hnil | right].
      exists b, f, e. split; [reflexivity|].
      apply in_or_app. right. apply in_or_app. left. left. reflexivity.
Qed.

(** *** Counting the activations that are running *)

Lemma running_tail mid :
  no_guard mid ->
  forall k, -1 <= running (firstn k (mid ++ [EvGuardClear])) <= 0.
Proof.
  unfold no_guard. induction mid as [|ev mid IH]; intros Hn k.
  - destruct k as [|[|k]]; cbn; lia.
  - cbn [forallb] in Hn. apply andb_true_iff in Hn as [Hev Hn].
    destruct k as [|k]; [cbn; lia|].
    cbn [app firstn]. specialize (IH Hn k).
    destruct ev; cbn in Hev; try discriminate; cbn [running]; exact IH.
Qed.

(** *** Queueing *)

Lemma group_cons b b' bs :
  group (b :: b' :: bs) = (b, js_or 0 ZMQ_SNDMORE) :: group (b' :: bs).
Proof. reflexivity. Qed.

Lemma send_parts_group arguments : forall i,
  send_parts utf8 (i + Z.of_nat (List.length arguments)) i arguments
  = group (map (to_buffer utf8) arguments).
Proof.
  induction arguments as [|part rest IH]; intros i; [reflexivity|].
  cbn [send_parts List.length map].
  replace (i + Z.of_nat (S (List.length rest)))
    with ((i + 1) + Z.of_nat (List.length rest)) by lia.
  rewrite IH. destruct rest as [|part' rest].
  - cbn [List.length Z.of_nat map]. replace (i + 1 + 0 - 1) with i by lia.
    rewrite Z.eqb_refl. reflexivity.
  - cbn [map]. rewrite group_cons.
    destruct (Z.eqb_spec i (i + 1 + Z.of_nat (List.length (part' :: rest)) - 1)) as [Heq|_].
    + cbn [List.length] in Heq. lia.
    + reflexivity.
Qed.

Lemma queued_by_group arguments :
  queued_by arguments = group (map (to_buffer utf8) arguments).
Proof. apply (send_parts_group arguments 0). Qed.

Lemma group_length bufs : List.length (group bufs) = List.length bufs.
Proof.
  induction bufs as [|b [|b' bs] IH]; [reflexivity | reflexivity |].
  rewrite group_cons. cbn [List.length]. now rewrite IH.
Qed.

(** C4: [send(p1, ..., pN)] appends to the tail of the queue, in one piece
    and in argument order, exactly N entries, every one but the last with
    the flag [ZMQ_SNDMORE]; it then calls [_flush] once, on the socket with
    the group queued, and returns what that call returns.  When the guard
    is clear this call is the one activation that runs before [send]
    returns. *)
Theorem C4_send fuel (arguments : list Part) (s : Sock) :
  let parts := group (map (to_buffer utf8) arguments) in
  List.length parts = List.length arguments /\
  _outgoing (enqueue utf8 arguments s) = _outgoing s ++ parts /\
  send inspect utf8 fuel arguments s = flush fuel (enqueue utf8 arguments s) /\
  (_inFlush s = false ->
   forall s' c,
     send inspect utf8 fuel arguments s = Some (s', c) ->
     exists mid,
       trace s' = trace s ++ EvEnqueue parts :: EvGuardSet :: mid ++ [EvGuardClear] /\
       no_guard mid).
Proof.
  cbn zeta. split; [|split; [|split]].
  - rewrite group_length. apply length_map.
  - cbn. fold (queued_by arguments). now rewrite queued_by_group.
  - reflexivity.
  - intros Hg s' c Hsend. unfold send, send_with in Hsend.
    apply flush_shape in Hsend as (mid & lost & (Ht & Hn & _) & _); [|exact Hg].
    exists mid. split; [|exact Hn].
    rewrite Ht. cbn [trace enqueue record set_outgoing].
    fold (queued_by arguments). rewrite queued_by_group, <- app_assoc. reflexivity.
Qed.

(** *** Unfolding the engine by one step *)

Lemma flush_unfold n (s : Sock) :
  _inFlush s = false ->
  flush (S n) s
  = match loop (flush n) n None (record EvGuardSet (set_inFlush true s)) with
    | None => None
    | Some (s1, flags, CThrow e) =>
        match emit_error utf8 (flush n) (attach inspect flags (_outgoing s1) e) s1 with
        | None => None
        | Some (s2, Throw e2) => Some (clear_guard s2, Throw e2)
        | Some (s2, Normal) => Some (clear_guard s2, Normal)
        end
    | Some (s1, _, CReturn) => Some (s1, Normal)
    | Some (s1, _, _) => Some (clear_guard s1, Normal)
    end.
Proof. intros Hg. cbn [_flush]. rewrite Hg. reflexivity. Qed.

Lemma loop_unfold flush_rec n fl (s : Sock) :
  loop flush_rec (S n) fl s
  = match _ioevents s with
    | (s1, Raise e) => Some (s1, fl, CThrow e)
    | (s1, Ok ioevents) =>
        let flags1 := loop_flags (_outgoing s1) ioevents in
        if negb (truthy flags1) then Some (s1, Some flags1, CBreak)
        else
          match (if truthy (js_and flags1 ZMQ_POLLIN)
                 then receive_block utf8 flush_rec n s1
                 else Some (s1, CProceed)) with
          | None => None
          | Some (s2, CProceed) =>
              match send_burst (_outgoing s2) flags1 s2 with
              | (s3, flags2, Throw e) => Some (s3, Some flags2, CThrow e)
              | (s3, flags2, Normal) => loop flush_rec n (Some flags2) s3
              end
          | Some (s2, c) => Some (s2, Some flags1, c)
          end
    end.
Proof. reflexivity. Qed.

Lemma getsockopt_eq opt (s : Sock) h r :
  zmq_getsockopt opt (_zmq s) = (h, r) ->
  getsockopt opt s = (advance h [EvGetsockopt opt r] s, r).
Proof. intros Hh. unfold getsockopt. rewrite Hh. reflexivity. Qed.

Lemma recv_eq (s : Sock) h r :
  zmq_recv (_zmq s) = (h, r) -> recv s = (advance h [EvRecv r] s, r).
Proof. intros Hh. unfold recv. rewrite Hh. reflexivity. Qed.

Lemma send_entry_eq b f (s : Sock) h r :
  zmq_send b f (_zmq s) = (h, r) ->
  send_entry (b, f) s = (advance h [EvSend b f r] s, r).
Proof. intros Hh. unfold send_entry. cbn [fst snd]. rewrite Hh. reflexivity. Qed.

Lemma advance_advance h1 h2 evs1 evs2 (s : Sock) :
  advance h2 evs2 (advance h1 evs1 s) = advance h2 (evs1 ++ evs2) s.
Proof. unfold advance. cbn. now rewrite app_assoc. Qed.

(** *** An empty queue *)

(** C6: with an empty queue the writable bit is masked out of [flags],
    whatever the handle reports.  An activation that starts with an empty
    queue and a handle reporting exactly "writable" returns for every
    amount of fuel from two on, after one read of the readiness and
    nothing else: no [send], no [recv], no event. *)
Theorem C6_empty_queue :
  (forall ev, js_and (loop_flags [] ev) ZMQ_POLLOUT = 0) /\
  (forall fuel (s : Sock) h1,
      _inFlush s = false ->
      _outgoing s = [] ->
      zmq_getsockopt ZMQ_EVENTS (_zmq s) = (h1, Ok ZMQ_POLLOUT) ->
      exists s',
        flush (S (S fuel)) s = Some (s', Normal) /\
        trace s' = trace s ++ [EvGuardSet; EvGetsockopt ZMQ_EVENTS (Ok ZMQ_POLLOUT);
                               EvGuardClear] /\
        _outgoing s' = [] /\
        _inFlush s' = false).
Proof.
  split; [exact masked_not_writable|].
  intros fuel s h1 Hg Hq Hev.
  rewrite flush_unfold by exact Hg. rewrite loop_unfold.
  unfold _ioevents. rewrite (getsockopt_eq _ _ h1 (Ok ZMQ_POLLOUT)) by exact Hev.
  cbn [_outgoing advance record set_inFlush]. rewrite Hq, writable_only_masked.
  cbn [truthy Z.eqb negb].
  eexists. split; [reflexivity|].
  cbn [trace clear_guard record set_inFlush advance _outgoing _inFlush].
  rewrite <- !app_assoc. auto.
Qed.

(** *** Receiving a multi-part message *)

(** The receive loop on a handle that yields [items]: with fuel for every
    part it returns exactly the parts, in order, and stops there. *)
Lemma recv_parts_yields h items h2 :
  handle_yields h items h2 ->
  forall k acc (s : Sock),
    _zmq s = h ->
    recv_parts k acc s
    = if (List.length items <=? k)%nat
      then Some (advance h2 (receive_trace items) s, Ok (acc ++ map fst items))
      else None.
Proof.
  induction 1 as [h h1 h2 b more Hrecv Hmore Hlast
                 | h h1 h2 h3 b more items Hrecv Hmore Hnext _ IH];
    intros k acc s Hs; subst h; (destruct k as [|k]; [reflexivity|]); cbn [recv_parts].
  - rewrite (recv_eq _ _ _ Hrecv).
    unfold _receiveMore. rewrite (getsockopt_eq _ _ h2 (Ok more)) by exact Hmore.
    rewrite Hlast, advance_advance. reflexivity.
  - rewrite (recv_eq _ _ _ Hrecv).
    unfold _receiveMore. rewrite (getsockopt_eq _ _ h2 (Ok more)) by exact Hmore.
    rewrite Hnext, advance_advance, IH by reflexivity.
    rewrite advance_advance, <- (app_assoc acc [b]). reflexivity.
Qed.

(** *** Sending in order *)

(** A burst that ends normally: it sent a prefix of the queue, in order,
    re-reading the readiness after every send, and stopped because the
    queue ran out or the last reading was not writable. *)
Lemma send_burst_normal q : forall flags (s s' : Sock) flags',
  _outgoing s = q ->
  send_burst q flags s = (s', flags', Normal) ->
  exists done,
    q = map fst done ++ _outgoing s' /\
    trace s' = trace s ++ burst_trace done /\
    burst flags done flags' /\
    (_outgoing s' = [] \/ truthy (js_and flags' ZMQ_POLLOUT) = false).
Proof.
  induction q as [|[b f] q IH]; intros flags s s' flags' Hq; cbn [send_burst].
  - intros [= <- <-]. exists []. cbn. rewrite Hq, app_nil_r.
    repeat split; auto. constructor.
  - destruct (truthy (js_and flags ZMQ_POLLOUT)) eqn:Hw.
    2: { intros [= <- <-]. exists []. cbn. rewrite Hq, app_nil_r.
         repeat split; auto. constructor. }
    destruct (send_entry (b, f) (set_outgoing q s)) as [s1 [u|e]] eqn:Hs; [|discriminate].
    destruct (_ioevents s1) as [s2 [flags1|e]] eqn:Hio; [|discriminate].
    apply send_entry_spec in Hs as (h1 & _ & ->).
    apply getsockopt_spec in Hio as (h2 & _ & ->).
    intros Hrec. apply IH in Hrec as (done & Hdq & Ht & Hb & Hstop); [|reflexivity].
    exists (((b, f), flags1) :: done). repeat split.
    + cbn [map fst app]. now rewrite <- Hdq.
    + rewrite Ht. destruct u. cbn. rewrite <- !app_assoc. reflexivity.
    + constructor; assumption.
    + exact Hstop.
Qed.

Section AlwaysWritable.

Hypothesis Hwritable : always_writable.
Hypothesis Haccepts : send_accepts.

Lemma burst_all q : forall flags (s : Sock),
  _outgoing s = q ->
  truthy (js_and flags ZMQ_POLLOUT) = true ->
  exists s' flags' evs,
    send_burst q flags s = (s', flags', Normal) /\
    trace s' = trace s ++ evs /\
    popped evs = q /\ transmitted evs = q /\
    _outgoing s' = [] /\ _inFlush s' = _inFlush s.
Proof.
  induction q as [|[b f] q IH]; intros flags s Hq Hw; cbn [send_burst].
  - exists s, flags, []. rewrite app_nil_r. repeat split; auto.
  - rewrite Hw.
    destruct (Haccepts b f (_zmq (set_outgoing q s))) as (h1 & Hsend).
    rewrite (send_entry_eq _ _ _ _ _ Hsend).
    destruct (Hwritable h1) as (h2 & ev & Hev & Hwo).
    unfold _ioevents. rewrite (getsockopt_eq _ _ h2 (Ok ev)) by exact Hev.
    rewrite advance_advance.
    destruct (IH ev (advance h2 ([EvSend b f (Ok tt)] ++ [EvGetsockopt ZMQ_EVENTS (Ok ev)])
                             (set_outgoing q s)) eq_refl (proj1 Hwo))
      as (s' & flags' & evs & -> & Ht & Hp & Htr & Ho & Hg).
    eexists s', flags', (EvSend b f (Ok tt) :: EvGetsockopt ZMQ_EVENTS (Ok ev) :: evs).
    repeat split; auto.
    + rewrite Ht. cbn. rewrite <- app_assoc. reflexivity.
    + cbn. fold (popped evs). now rewrite Hp.
    + cbn. fold (transmitted evs). now rewrite Htr.
Qed.

(** Under such a handle an activation empties the queue, in order. *)
Lemma drain fuel (s : Sock) :
  _inFlush s = false ->
  exists s' evs,
    flush (S (S (S fuel))) s = Some (s', Normal) /\
    trace s' = trace s ++ evs /\
    popped evs = _outgoing s /\ transmitted evs = _outgoing s /\
    _outgoing s' = [] /\ _inFlush s' = false.
Proof.
  intros Hg. rewrite flush_unfold by exact Hg. rewrite loop_unfold.
  set (s0 := record EvGuardSet (set_inFlush true s)).
  destruct (Hwritable (_zmq s0)) as (h1 & ev & Hev & Hw & Hr & Hmask).
  unfold _ioevents. rewrite (getsockopt_eq _ _ h1 (Ok ev)) by exact Hev.
  cbn zeta. change (_outgoing (advance h1 _ s0)) with (_outgoing s).
  destruct (_outgoing s) as [|e q] eqn:Hq.
  - rewrite Hmask. cbn [truthy Z.eqb negb].
    eexists _, _. split; [reflexivity|].
    cbn [trace clear_guard record set_inFlush advance s0 _outgoing _inFlush].
    rewrite <- !app_assoc. cbn [app]. rewrite Hq. repeat split; reflexivity.
  - cbn [loop_flags]. rewrite (truthy_js_and_l _ _ Hw), Hr. cbn [negb].
    set (s1 := advance h1 _ s0).
    destruct (burst_all (_outgoing s1) ev s1 eq_refl Hw)
      as (s2 & flags2 & evs & -> & Ht & Hp & Htr & Ho & Hg2).
    rewrite loop_unfold.
    destruct (Hwritable (_zmq s2)) as (h3 & ev3 & Hev3 & _ & _ & Hmask3).
    unfold _ioevents. rewrite (getsockopt_eq _ _ h3 (Ok ev3)) by exact Hev3.
    cbn zeta. change (_outgoing (advance h3 _ s2)) with (_outgoing s2).
    rewrite Ho, Hmask3. cbn [truthy Z.eqb negb].
    eexists _, _. split; [reflexivity|].
    cbn [trace clear_guard record set_inFlush advance _outgoing _inFlush].
    rewrite Ht. cbn [trace s1 s0 advance record set_inFlush].
    rewrite <- !app_assoc. cbn [app].
    split; [reflexivity|].
    change (_outgoing s1) with (_outgoing s) in Hp, Htr. rewrite Hq in Hp, Htr.
    repeat split.
    + cbn. rewrite popped_app. cbn. fold (popped evs). now rewrite Hp, app_nil_r.
    + cbn. rewrite transmitted_app. cbn. fold (transmitted evs).
      now rewrite Htr, app_nil_r.
    + exact Ho.
Qed.

End AlwaysWritable.


(** *** Errors *)

(** The guard is still set when an exception reaches the [catch]. *)
Lemma loop_throw_guard flush_rec fuel fl (s s1 : Sock) fl' e :
  guarded_noop flush_rec ->
  _inFlush s = true ->
  loop flush_rec fuel fl s = Some (s1, fl', CThrow e) ->
  _inFlush s1 = true.
Proof.
  intros Hnoop Hg Hloop.
  apply (flush_loop_steps _ Hnoop) in Hloop as (_ & s0 & Hsteps & Hend); [|exact Hg].
  cbn [ends_with] in Hend. apply failstep_kept in Hend as (evs & Hk & _).
  rewrite (kept_guard _ _ _ Hk), (oksteps_guard _ _ Hsteps). exact Hg.
Qed.

(** What [_flush] does once an exception has reached the [catch]. *)
Lemma flush_catch n (s s1 : Sock) fl e :
  _inFlush s = false ->
  loop (flush n) n None (record EvGuardSet (set_inFlush true s)) = Some (s1, fl, CThrow e) ->
  exists s2 c,
    emit_error utf8 (flush n) (attach inspect fl (_outgoing s1) e) s1 = Some (s2, c) /\
    flush (S n) s = Some (clear_guard s2, c) /\
    kept s1 s2 (EvEmitError (attach inspect fl (_outgoing s1) e)
                :: map (fun c => EvEnqueue (queued_by c))
                       (listener_calls
                          (on_error (listeners s1) (attach inspect fl (_outgoing s1) e)))) /\
    c = match on_error (listeners s1) (attach inspect fl (_outgoing s1) e) with
        | None => Throw (attach inspect fl (_outgoing s1) e)
        | Some (_, sc) => completion_of (script_throws sc)
        end.
Proof.
  intros Hg Hloop.
  assert (Hg1 : _inFlush s1 = true).
  { eapply loop_throw_guard; [apply flush_guarded | | exact Hloop]. reflexivity. }
  destruct (emit_error_run (flush n) (attach inspect fl (_outgoing s1) e) s1
              (flush_guarded n) Hg1) as (s2 & c & Hemit & Hk & Hc).
  exists s2, c. split; [exact Hemit|]. split; [|split; assumption].
  rewrite flush_unfold by exact Hg. rewrite Hloop, Hemit. destruct c; reflexivity.
Qed.

(** C10: when an exception has reached the [catch] and the ['error']
    listener returns, the activation returns normally at once: after the
    ['error'] event the trace holds nothing but what the listener's own
    [send] calls appended to the queue, then the clearing of the guard; no
    [recv], no [send] on the handle.  The guard is clear afterwards. *)
Theorem C10_error_ends_activation n (s s1 : Sock) fl e a sc :
  _inFlush s = false ->
  loop (flush n) n None (record EvGuardSet (set_inFlush true s))
  = Some (s1, fl, CThrow e) ->
  on_error (listeners s1) (attach inspect fl (_outgoing s1) e) = Some (a, sc) ->
  script_throws sc = None ->
  exists s' after,
    flush (S n) s = Some (s', Normal) /\
    _inFlush s' = false /\
    trace s' = trace s1 ++ EvEmitError (attach inspect fl (_outgoing s1) e) :: after /\
    after = map (fun c => EvEnqueue (queued_by c)) (script_sends sc) ++ [EvGuardClear] /\
    forallb (fun ev => negb (is_transfer ev)) after = true.
Proof.
  intros Hg Hloop Hlisten Hquiet.
  destruct (flush_catch _ _ _ _ _ Hg Hloop) as (s2 & c & _ & Hf & Hk & Hc).
  rewrite Hlisten in Hk, Hc. rewrite Hquiet in Hc. cbn [completion_of listener_calls] in Hk, Hc.
  subst c. eexists (clear_guard s2), _. split; [exact Hf|]. split; [reflexivity|].
  split; [|split; [reflexivity|]].
  - cbn [trace clear_guard record set_inFlush]. rewrite (kept_trace _ _ _ Hk).
    rewrite <- app_assoc. reflexivity.
  - rewrite forallb_app. cbn. rewrite andb_true_r.
    clear. induction (script_sends sc) as [|c calls IH]; cbn; auto.
Qed.

Lemma recv_parts_fields fuel : forall acc (s s' : Sock) r,
  recv_parts fuel acc s = Some (s', r) ->
  _outgoing s' = _outgoing s /\ _watcher s' = _watcher s /\ _inFlush s' = _inFlush s.
Proof.
  induction fuel as [|n IH]; intros acc s s' r; cbn [recv_parts]; [discriminate|].
  destruct (recv s) as [s1 [b|e]] eqn:Hr;
    apply recv_spec in Hr as (h1 & _ & ->).
  2: { intros [= <- _]. repeat split. }
  destruct (_receiveMore _) as [s2 [more|e]] eqn:Hm;
    apply getsockopt_spec in Hm as (h2 & _ & ->).
  2: { intros [= <- _]. repeat split. }
  destruct (truthy more).
  - intros Hrec. apply IH in Hrec as (Hq & Hw & Hg). rewrite Hq, Hw, Hg. repeat split.
  - intros [= <- _]. repeat split.
Qed.

(** *** The watcher around [bind], [bindSync] and [connect] *)

Lemma flush_extends fuel (s s' : Sock) c :
  flush fuel s = Some (s', c) ->
  exists evs, trace s' = trace s ++ evs /\ _watcher s' = _watcher s.
Proof.
  destruct (_inFlush s) eqn:Hg; intros Hf.
  - rewrite (flush_guarded fuel s Hg) in Hf. injection Hf as <- _.
    exists []. now rewrite app_nil_r.
  - destruct (flush_shape _ _ _ _ Hg Hf) as (mid & _ & (Ht & _ & _ & Hw & _) & _).
    eexists. split; [exact Ht | exact Hw].
Qed.

Lemma run_script_extends fuel sc (s s' : Sock) c :
  run_script utf8 (flush fuel) sc s = Some (s', c) ->
  exists evs, trace s' = trace s ++ evs /\ _watcher s' = _watcher s.
Proof.
  unfold run_script.
  assert (Hsends : forall calls (s0 s1 : Sock) c1,
             run_sends utf8 (flush fuel) calls s0 = Some (s1, c1) ->
             exists evs, trace s1 = trace s0 ++ evs /\ _watcher s1 = _watcher s0).
  { induction calls as [|call calls IH]; intros s0 s1 c1; cbn [run_sends].
    - intros [= <- _]. exists []. now rewrite app_nil_r.
    - unfold send_with.
      destruct (flush fuel (enqueue utf8 call s0)) as [[s2 [|e]]|] eqn:Hf; [| |discriminate];
        apply flush_extends in Hf as (evs & Ht & Hw);
        cbn [trace _watcher enqueue record set_outgoing] in Ht, Hw.
      + intros Hrest. apply IH in Hrest as (evs2 & Ht2 & Hw2).
        eexists. split; [rewrite Ht2, Ht, <- !app_assoc; reflexivity | congruence].
      + intros [= <- _]. eexists. split; [rewrite Ht, <- !app_assoc; reflexivity | exact Hw]. }
  destruct (run_sends utf8 (flush fuel) (script_sends sc) s) as [[s1 [|e]]|] eqn:Hr;
    [| |discriminate]; intros [= <- _]; apply (Hsends _ _ _ _ Hr).
Qed.


(** When the binding throws at once, [bind] throws that error with the
    watcher stopped and not started again, and the callback is not called:
    unlike [bindSync], [bind] has no [try] around the call. *)
Theorem bind_throw_leaves_watcher_stopped fuel addr cb (s : Sock) w h e :
  _watcher s = Some w ->
  zmq_bind addr (_zmq s) = (h, Raise e) ->
  exists s',
    bind inspect utf8 fuel addr cb s = Some (s', Throw e) /\
    _watcher s' = Some (mkWatcher (w_fd w) false) /\
    trace s' = trace s ++ [EvWatcherStop; EvBind addr].
Proof.
  intros Hw Hbind. unfold bind, bind_request, watcher_stop. rewrite Hw.
  cbn [_zmq record set_watcher]. rewrite Hbind.
  eexists. split; [reflexivity|]. split; [reflexivity|].
  cbn. now rewrite <- app_assoc.
Qed.

(** *** Construction *)

Section Construction.

Variable parseInt : string -> option Z.

Lemma lookup_unknown table key :
  ~ In key (map fst table) -> lookup table key = None.
Proof.
  induction table as [|[k v] table IH]; intros Hnot; [reflexivity|].
  cbn [lookup]. destruct (String.eqb_spec k key) as [->|_].
  - exfalso. apply Hnot. left. reflexivity.
  - apply IH. intros Hin. apply Hnot. right. exact Hin.
Qed.

(** C9: for a [typename] that is not a key of [types], [createSocket]
    fails at once with the configuration error of the native constructor:
    no socket object is built, no watcher started, no option applied. *)
Theorem C9_unknown_type typename options (a : A) (p : Process) :
  ~ In typename (map fst types) ->
  createSocket utf8 parseInt typename options a p
  = (fst (defaultContext parseInt p), Raise configuration_error) /\
  err_kind configuration_error = Configuration.
Proof.
  intros Hnot. split; [|reflexivity].
  unfold createSocket, Socket.
  destruct (defaultContext parseInt p) as [p1 ctx]. cbn [fst].
  rewrite (lookup_unknown _ _ Hnot). reflexivity.
Qed.

End Construction.

(** *** The context and the construction of sockets *)

Section Creation.

Variable parseInt : string -> option Z.

(** The context is made once: after a call of [defaultContext] the
    process holds the context that call returned, and a further call
    returns the same context and changes nothing, whatever the environment
    says by then. *)
Theorem defaultContext_once (p : Process) :
  context_ (fst (defaultContext parseInt p)) = Some (snd (defaultContext parseInt p)) /\
  defaultContext parseInt (fst (defaultContext parseInt p)) = defaultContext parseInt p /\
  forall env, defaultContext parseInt
                (mkProcess (context_ (fst (defaultContext parseInt p))) env
                           (stderr (fst (defaultContext parseInt p))))
              = (mkProcess (context_ (fst (defaultContext parseInt p))) env
                           (stderr (fst (defaultContext parseInt p))),
                 snd (defaultContext parseInt p)).
Proof.
  unfold defaultContext. destruct (context_ p) as [c|] eqn:Hc.
  - cbn [fst snd]. rewrite Hc. repeat split.
  - cbn [fst snd context_]. repeat split.
Qed.

(** A context made by [defaultContext] has at least one IO thread.  It has
    as many as [ZMQ_IO_THREADS] asks for when that is a number from one
    on, and then nothing is printed; with the variable unset or empty it
    has one and nothing is printed; with anything else it has one and the
    warning is printed, once. *)
Theorem defaultContext_threads (p : Process) :
  context_ p = None ->
  let c := snd (defaultContext parseInt p) in
  let out := stderr (fst (defaultContext parseInt p)) in
  1 <= io_threads c /\
  (match env_ZMQ_IO_THREADS p with
   | None | Some EmptyString => io_threads c = 1 /\ out = stderr p
   | Some str =>
       match parseInt str with
       | Some n =>
           if 1 <=? n then io_threads c = n /\ out = stderr p
           else io_threads c = 1 /\
                out = stderr p ++ ["Invalid number in ZMQ_IO_THREADS, using 1 IO thread."%string]
       | None =>
           io_threads c = 1 /\
           out = stderr p ++ ["Invalid number in ZMQ_IO_THREADS, using 1 IO thread."%string]
       end
   end).
Proof.
  intros Hc. unfold defaultContext. rewrite Hc. cbn zeta.
  destruct (env_ZMQ_IO_THREADS p) as [[|ch str]|]; cbn [fst snd io_threads stderr].
  - rewrite app_nil_r. repeat split; lia.
  - destruct (parseInt (String ch str)) as [n|]; cbn [fst snd].
    + destruct (Z.leb_spec 1 n) as [Hn|Hn].
      * replace ((n =? 0) || (n <? 1)) with false
          by (symmetry; apply orb_false_iff; split; [apply Z.eqb_neq | apply Z.ltb_ge]; lia).
        cbn [fst snd]. rewrite app_nil_r. repeat split; lia.
      * replace ((n =? 0) || (n <? 1)) with true
          by (symmetry; apply orb_true_iff; right; apply Z.ltb_lt; lia).
        cbn [fst snd]. repeat split; lia.
    + repeat split; lia.
  - rewrite app_nil_r. repeat split; lia.
Qed.

Lemma createSocket_process typename options (a : A) (p : Process) :
  fst (createSocket utf8 parseInt typename options a p) = fst (defaultContext parseInt p).
Proof.
  unfold createSocket, Socket.
  destruct (defaultContext parseInt p) as [p1 ctx]. cbn [fst].
  destruct (zmq_Socket ctx (lookup types typename)) as [h|e]; [|reflexivity].
  destruct (_fd _) as [s1 [fd|e]]; [|reflexivity].
  destruct options as [kvs|]; [|reflexivity].
  destruct (apply_options utf8 kvs _) as [s2 [|e]]; reflexivity.
Qed.

(** Every call of [createSocket] leaves the process with a context, also a
    call that fails; and a call made after another one changes nothing in
    the process: all sockets are made in the context of the first call. *)
Theorem createSocket_shares_context typename1 options1 (a1 : A)
        typename2 options2 (a2 : A) (p : Process) :
  let p1 := fst (createSocket utf8 parseInt typename1 options1 a1 p) in
  context_ p1 = Some (snd (defaultContext parseInt p)) /\
  fst (createSocket utf8 parseInt typename2 options2 a2 p1) = p1 /\
  snd (defaultContext parseInt p1) = snd (defaultContext parseInt p).
Proof.
  cbn zeta. rewrite !createSocket_process.
  destruct (defaultContext_once p) as (Hctx & Hagain & _).
  rewrite Hagain. auto.
Qed.

Lemma lookup_known table key :
  In key (map fst table) -> exists v, lookup table key = Some v.
Proof.
  induction table as [|[k v] table IH]; intros Hin; [destruct Hin|].
  cbn [lookup]. destruct (String.eqb_spec k key) as [->|Hne].
  - eauto.
  - apply IH. destruct Hin as [Heq|Hin]; [contradiction | exact Hin].
Qed.

(** For each of the type names of [types], on a handle whose descriptor
    can be read, [createSocket] without options gives a socket of that
    type with an empty queue, the guard clear and the watcher started on
    the descriptor; the handle has been asked for [ZMQ_FD] and nothing
    else.  When the descriptor cannot be read the error of that read is
    what [createSocket] throws. *)
Theorem createSocket_known typename (a : A) (p : Process) h1 r :
  In typename (map fst types) ->
  (forall t, lookup types typename = Some t ->
     zmq_getsockopt ZMQ_FD (zmq_socket (snd (defaultContext parseInt p)) t) = (h1, r)) ->
  match r with
  | Ok fd =>
      exists sock,
        createSocket utf8 parseInt typename None a p
        = (fst (defaultContext parseInt p), Ok sock) /\
        type sock = typename /\
        _zmq sock = h1 /\
        currentSendBacklog sock = 0 /\
        _inFlush sock = false /\
        _watcher sock = Some (mkWatcher fd true) /\
        listeners sock = a /\
        trace sock = [EvGetsockopt ZMQ_FD (Ok fd); EvWatcherStart]
  | Raise e =>
      createSocket utf8 parseInt typename None a p
      = (fst (defaultContext parseInt p), Raise e)
  end.
Proof.
  intros Hin Hfd. apply lookup_known in Hin as (t & Ht).
  specialize (Hfd t Ht). unfold createSocket, Socket.
  destruct (defaultContext parseInt p) as [p1 ctx]. cbn [fst snd] in *.
  rewrite Ht. cbn [zmq_Socket]. unfold _fd.
  rewrite (getsockopt_eq _ _ h1 r) by exact Hfd.
  destruct r as [fd|e]; [|reflexivity].
  eexists. split; [reflexivity|]. repeat split.
Qed.

Lemma option_calls_length options :
  Forall known_option options ->
  List.length (option_calls options) = List.length options.
Proof.
  induction 1 as [|[key val] options Hkey _ IH]; [reflexivity|].
  destruct (lookup_known _ _ Hkey) as (opt & Hopt). cbn [fst] in Hopt.
  unfold option_calls. cbn [flat_map fst snd]. fold (option_calls options).
  rewrite Hopt. cbn [app List.length]. now rewrite IH.
Qed.


End Creation.

(** *** Closing *)

(** [close] on a socket that has its watcher stops the watcher, forgets it
    and closes the handle, throwing what the handle's [close] raises; the
    queue is left as it is and nothing of it is sent.  On the closed
    socket [close], [bindSync] and [bind] throw a [TypeError] before they
    reach the handle and change nothing. *)
Theorem close_then fuel addr cb (s : Sock) w :
  _watcher s = Some w ->
  let s' := fst (close s) in
  snd (close s) = result_completion (snd (zmq_close (_zmq s))) /\
  _watcher s' = None /\
  _zmq s' = fst (zmq_close (_zmq s)) /\
  trace s' = trace s ++ [EvWatcherStop] /\
  _outgoing s' = _outgoing s /\
  _inFlush s' = _inFlush s /\
  close s' = (s', Throw type_error) /\
  bindSync addr s' = (s', Throw type_error) /\
  bind inspect utf8 fuel addr cb s' = Some (s', Throw type_error).
Proof.
  intros Hw. cbn zeta.
  assert (Hclosed : _watcher (fst (close s)) = None).
  { unfold close, watcher_stop. rewrite Hw.
    destruct (zmq_close _) as [h r]. reflexivity. }
  repeat split.
  - unfold close, watcher_stop. rewrite Hw. cbn [_zmq set_watcher record].
    destruct (zmq_close (_zmq s)) as [h [u|e]]; reflexivity.
  - exact Hclosed.
  - unfold close, watcher_stop. rewrite Hw. cbn [_zmq set_watcher record].
    destruct (zmq_close (_zmq s)) as [h r]; reflexivity.
  - unfold close, watcher_stop. rewrite Hw. cbn [_zmq set_watcher record].
    destruct (zmq_close (_zmq s)) as [h r]; reflexivity.
  - unfold close, watcher_stop. rewrite Hw. cbn [_zmq set_watcher record].
    destruct (zmq_close (_zmq s)) as [h r]; reflexivity.
  - unfold close, watcher_stop. rewrite Hw. cbn [_zmq set_watcher record].
    destruct (zmq_close (_zmq s)) as [h r]; reflexivity.
  - unfold close at 1, watcher_stop. rewrite Hclosed. reflexivity.
  - unfold bindSync, watcher_stop. rewrite Hclosed. reflexivity.
  - unfold bind, bind_request, watcher_stop. rewrite Hclosed. reflexivity.
Qed.

(** *** Sending when nothing can be sent *)

Lemma backlog_enqueue arguments (s : Sock) :
  currentSendBacklog (enqueue utf8 arguments s)
  = currentSendBacklog s + Z.of_nat (List.length arguments).
Proof.
  unfold currentSendBacklog. cbn [_outgoing enqueue record set_outgoing].
  fold (queued_by arguments).
  rewrite queued_by_group, length_app, group_length, length_map. lia.
Qed.

(** [send] called while an activation is running (from a listener) only
    queues: for any fuel it returns normally, the backlog has grown by the
    number of parts, and the handle has not been called. *)
Theorem send_inside_activation fuel arguments (s : Sock) :
  _inFlush s = true ->
  send inspect utf8 fuel arguments s = Some (enqueue utf8 arguments s, Normal) /\
  currentSendBacklog (enqueue utf8 arguments s)
  = currentSendBacklog s + Z.of_nat (List.length arguments) /\
  trace (enqueue utf8 arguments s)
  = trace s ++ [EvEnqueue (group (map (to_buffer utf8) arguments))] /\
  _zmq (enqueue utf8 arguments s) = _zmq s.
Proof.
  intros Hg. split; [|split; [|split]].
  - unfold send, send_with. apply flush_guarded. exact Hg.
  - apply backlog_enqueue.
  - cbn [trace enqueue record set_outgoing]. fold (queued_by arguments).
    now rewrite queued_by_group.
  - reflexivity.
Qed.

(** [send] on a socket whose handle reports no readiness at all queues the
    parts and returns: one read of the readiness, no [send] and no [recv]
    on the handle, the backlog grown by the number of parts. *)
Theorem send_not_ready fuel arguments (s : Sock) h1 :
  _inFlush s = false ->
  zmq_getsockopt ZMQ_EVENTS (_zmq s) = (h1, Ok 0) ->
  exists s',
    send inspect utf8 (S (S fuel)) arguments s = Some (s', Normal) /\
    _outgoing s' = _outgoing s ++ group (map (to_buffer utf8) arguments) /\
    currentSendBacklog s' = currentSendBacklog s + Z.of_nat (List.length arguments) /\
    trace s' = trace s ++ [EvEnqueue (group (map (to_buffer utf8) arguments));
                           EvGuardSet; EvGetsockopt ZMQ_EVENTS (Ok 0); EvGuardClear] /\
    _inFlush s' = false.
Proof.
  intros Hg Hev. unfold send, send_with.
  rewrite flush_unfold by exact Hg. rewrite loop_unfold. unfold _ioevents.
  rewrite (getsockopt_eq _ _ h1 (Ok 0)) by exact Hev.
  cbn zeta.
  assert (Hflags : forall q, truthy (loop_flags q 0) = false).
  { intros [|e q]; [|reflexivity].
    unfold loop_flags, js_and. rewrite ToInt32_0, Z.land_0_l. reflexivity. }
  rewrite Hflags. cbn [negb].
  eexists. split; [reflexivity|].
  split; [|split; [|split]].
  - cbn [_outgoing clear_guard record set_inFlush advance enqueue set_outgoing].
    fold (queued_by arguments). now rewrite queued_by_group.
  - rewrite <- backlog_enqueue. reflexivity.
  - cbn [trace clear_guard record set_inFlush advance enqueue set_outgoing].
    fold (queued_by arguments). rewrite queued_by_group, <- !app_assoc. reflexivity.
  - reflexivity.
Qed.

(** *** What every activation keeps *)

(** An activation that returns is a row of successful actions, after which
    the guard is cleared; or such a row, one action that raises, the
    ['error'] event with the listener's own [send] calls, and then the
    clearing of the guard. *)
Lemma flush_run fuel (s s' : Sock) c :
  _inFlush s = false ->
  flush fuel s = Some (s', c) ->
  exists sp,
    oksteps (record EvGuardSet (set_inFlush true s)) sp /\
    ((s' = clear_guard sp /\ c = Normal) \/
     exists e s1 e' s2,
       failstep e sp s1 /\
       kept s1 s2 (EvEmitError e'
                   :: map (fun c => EvEnqueue (queued_by c))
                          (listener_calls (on_error (listeners s1) e'))) /\
       err_outgoing e' = Some (inspect (_outgoing s1)) /\
       s' = clear_guard s2).
Proof.
  intros Hg Hf. destruct fuel as [|n]; [cbn in Hf; rewrite Hg in Hf; discriminate|].
  destruct (loop (flush n) n None (record EvGuardSet (set_inFlush true s)))
    as [[[s1 fl] c1]|] eqn:Hloop.
  2: { rewrite flush_unfold, Hloop in Hf by exact Hg. discriminate. }
  pose proof Hloop as Hsteps.
  apply (flush_loop_steps _ (flush_guarded n)) in Hsteps as (Hc1 & sp & Hsteps & Hend);
    [|reflexivity].
  exists sp. split; [exact Hsteps|].
  destruct c1 as [| | |e]; cbn [ends_with] in Hend.
  - congruence.
  - subst s1. rewrite flush_unfold, Hloop in Hf by exact Hg.
    injection Hf as <- <-. left. auto.
  - subst s1. rewrite flush_unfold, Hloop in Hf by exact Hg.
    injection Hf as <- <-. left. auto.
  - destruct (flush_catch _ _ _ _ _ Hg Hloop) as (s2 & c2 & _ & Hf2 & Hk2 & _).
    rewrite Hf2 in Hf. injection Hf as <- <-.
    right. exists e, s1, (attach inspect fl (_outgoing s1) e), s2. auto.
Qed.

Lemma last_app_nonempty (q g : list Entry) d :
  g <> [] -> last (q ++ g) d = last g d.
Proof.
  intros Hg. induction q as [|e q IH]; [reflexivity|].
  cbn [app last]. destruct (q ++ g) eqn:Hqg; [|exact IH].
  apply app_eq_nil in Hqg as [_ Hnil]. contradiction.
Qed.

Lemma complete_app q g :
  complete q = true -> complete g = true -> complete (q ++ g) = true.
Proof.
  intros Hq Hgc. destruct g as [|e g]; [now rewrite app_nil_r|].
  unfold complete in *. destruct (q ++ e :: g) eqn:Hqg; [reflexivity|].
  rewrite <- Hqg, last_app_nonempty by discriminate. exact Hgc.
Qed.

Lemma complete_tail e q : complete (e :: q) = true -> complete q = true.
Proof.
  destruct q as [|e' q]; [reflexivity|]. intros Hc. exact Hc.
Qed.

Lemma complete_group bufs : complete (group bufs) = true.
Proof.
  destruct bufs as [|b bufs]; [reflexivity|].
  unfold group, complete.
  destruct (map _ (removelast (b :: bufs)) ++ [(last (b :: bufs) [], 0)]) eqn:Hl.
  - reflexivity.
  - rewrite <- Hl, last_app_nonempty by discriminate. reflexivity.
Qed.

Lemma complete_calls calls q :
  complete q = true -> complete (q ++ flat_map queued_by calls) = true.
Proof.
  revert q. induction calls as [|c calls IH]; intros q Hq; cbn [flat_map].
  - now rewrite app_nil_r.
  - rewrite app_assoc. apply IH, complete_app; [exact Hq|].
    rewrite queued_by_group. apply complete_group.
Qed.

Lemma step_complete (s s1 : Sock) :
  okstep s s1 \/ (exists e, failstep e s s1) ->
  complete (_outgoing s) = true -> complete (_outgoing s1) = true.
Proof.
  assert (Hemit : forall parts a sc,
             complete (_outgoing s) = true ->
             complete (_outgoing (enqueue_all (script_sends sc)
                        (set_listeners a (record (EvEmitMessage parts) s)))) = true).
  { intros parts a sc Hc.
    destruct (enqueue_all_fields (script_sends sc)
                (set_listeners a (record (EvEmitMessage parts) s))) as (_ & Hq & _).
    rewrite Hq. apply complete_calls. exact Hc. }
  intros [Hstep | (e & Hstep)] Hc.
  - destruct Hstep as [opt s s1 v Hg | s s1 b Hr | s [b f] q s1 u Hq Hs | s parts a sc Hm Ht].
    + apply getsockopt_outgoing in Hg. now rewrite Hg.
    + apply recv_spec in Hr as (h & _ & ->). exact Hc.
    + apply send_entry_outgoing in Hs. rewrite Hs. cbn [_outgoing set_outgoing].
      rewrite Hq in Hc. apply (complete_tail _ _ Hc).
    + apply Hemit. exact Hc.
  - destruct Hstep as [opt s s1 Hg | s s1 Hr | s [b f] q s1 Hq Hs | s parts a sc Hm Ht].
    + apply getsockopt_outgoing in Hg. now rewrite Hg.
    + apply recv_spec in Hr as (h & _ & ->). exact Hc.
    + apply send_entry_outgoing in Hs. rewrite Hs. cbn [_outgoing set_outgoing].
      rewrite Hq in Hc. apply (complete_tail _ _ Hc).
    + apply Hemit. exact Hc.
Qed.

Lemma oksteps_complete (s s' : Sock) :
  oksteps s s' -> complete (_outgoing s) = true -> complete (_outgoing s') = true.
Proof.
  induction 1 as [|s s1 s2 Hstep _ IH]; intros Hc; [exact Hc|].
  apply IH. apply (step_complete s s1); auto.
Qed.

(** The queue never ends in the middle of a message: if the last entry of
    the queue has no "more" flag before a call of [_flush] or [send], it
    has none afterwards, whatever the handle and the listeners do.  (The
    queue of a new socket is empty, so this holds of every queue that
    [send] and the engine build.) *)
Theorem queue_stays_complete :
  (forall fuel (s s' : Sock) c,
      complete (_outgoing s) = true ->
      flush fuel s = Some (s', c) ->
      complete (_outgoing s') = true) /\
  (forall fuel arguments (s s' : Sock) c,
      complete (_outgoing s) = true ->
      send inspect utf8 fuel arguments s = Some (s', c) ->
      complete (_outgoing s') = true).
Proof.
  assert (Hflush : forall fuel (s s' : Sock) c,
             complete (_outgoing s) = true ->
             flush fuel s = Some (s', c) ->
             complete (_outgoing s') = true).
  { intros fuel s s' c Hc Hf. destruct (_inFlush s) eqn:Hg.
    - rewrite (flush_guarded fuel s Hg) in Hf. injection Hf as <- _. exact Hc.
    - destruct (flush_run _ _ _ _ Hg Hf) as (sp & Hsteps & Hend).
      apply oksteps_complete in Hsteps; [|exact Hc].
      destruct Hend as [[-> _] | (e & s1 & e' & s2 & Hfail & Hk & _ & ->)]; [exact Hsteps|].
      cbn [_outgoing clear_guard record set_inFlush].
      pose proof (kept_queue _ _ _ Hk) as Hq.
      change (EvEmitError e' :: ?l) with ([EvEmitError e'] ++ l) in Hq.
      rewrite enqueued_app, popped_app, enqueued_map_enqueue, popped_map_enqueue in Hq.
      cbn in Hq. rewrite <- Hq. apply complete_calls.
      apply (step_complete sp s1); eauto. }
  split; [exact Hflush|].
  intros fuel arguments s s' c Hc Hsend. unfold send, send_with in Hsend.
  apply Hflush in Hsend; [exact Hsend|].
  cbn [_outgoing enqueue record set_outgoing]. fold (queued_by arguments).
  rewrite queued_by_group. apply complete_app; [exact Hc | apply complete_group].
Qed.

(** *** A handle that never runs dry *)

Section NeverDry.

Hypothesis Hdry : never_dry.
Hypothesis Hpatient : patient.

Lemma recv_parts_never_raises fuel : forall acc (s : Sock),
  recv_parts fuel acc s = None \/
  exists s2 parts, recv_parts fuel acc s = Some (s2, Ok parts).
Proof.
  induction fuel as [|n IH]; intros acc s; cbn [recv_parts]; [left; reflexivity|].
  destruct (dry_recv Hdry (_zmq s)) as (h1 & b & Hrecv).
  rewrite (recv_eq _ _ _ Hrecv).
  destruct (dry_more Hdry h1) as (h2 & more & Hmore).
  unfold _receiveMore. rewrite (getsockopt_eq _ _ h2 (Ok more)) by exact Hmore.
  destruct (truthy more); [apply IH | right; eauto].
Qed.

Lemma send_burst_never_raises q : forall flags (s : Sock),
  exists s' flags', send_burst q flags s = (s', flags', Normal).
Proof.
  induction q as [|[b f] q IH]; intros flags s; cbn [send_burst]; [eauto|].
  destruct (truthy (js_and flags ZMQ_POLLOUT)); [|eauto].
  destruct (dry_send Hdry b f (_zmq (set_outgoing q s))) as (h1 & Hsend).
  rewrite (send_entry_eq _ _ _ _ _ Hsend).
  destruct (dry_events Hdry h1) as (h2 & ev & Hev & _).
  unfold _ioevents. rewrite (getsockopt_eq _ _ h2 (Ok ev)) by exact Hev.
  apply IH.
Qed.

Lemma loop_never_returns flush_rec fuel : forall fl (s : Sock),
  guarded_noop flush_rec ->
  _inFlush s = true ->
  loop flush_rec fuel fl s = None.
Proof.
  induction fuel as [|n IH]; intros fl s Hnoop Hg; [reflexivity|].
  rewrite loop_unfold.
  destruct (dry_events Hdry (_zmq s)) as (h1 & ev & Hev & Hin).
  unfold _ioevents. rewrite (getsockopt_eq _ _ h1 (Ok ev)) by exact Hev.
  cbn zeta. rewrite (truthy_js_and_l _ _ (Hin _)), Hin. cbn [negb].
  unfold receive_block.
  destruct (recv_parts_never_raises n [] (advance h1 [EvGetsockopt ZMQ_EVENTS (Ok ev)] s))
    as [-> | (s2 & parts & Hrecv)]; [reflexivity|].
  rewrite Hrecv.
  apply recv_parts_fields in Hrecv as (_ & _ & Hg2). cbn [_inFlush advance] in Hg2.
  rewrite Hg in Hg2.
  rewrite (emit_message_guarded _ Hnoop) by exact Hg2.
  rewrite Hpatient. cbn [completion_of].
  set (s3 := enqueue_all _ _).
  assert (Hg3 : _inFlush s3 = true).
  { unfold s3.
    destruct (enqueue_all_fields
                (script_sends (snd (on_message (listeners s2) parts)))
                (set_listeners (fst (on_message (listeners s2) parts))
                               (record (EvEmitMessage parts) s2)))
      as (_ & _ & Hgf & _). rewrite Hgf. exact Hg2. }
  rewrite (dry_state Hdry), Z.eqb_refl. cbn [negb].
  destruct (send_burst_never_raises (_outgoing s3)
              (loop_flags (_outgoing (advance h1 [EvGetsockopt ZMQ_EVENTS (Ok ev)] s)) ev) s3)
    as (s4 & flags4 & Hb).
  rewrite Hb. apply IH; [exact Hnoop|].
  apply send_burst_steps in Hb as (s5 & Hsteps & ->); [|reflexivity].
  rewrite (oksteps_guard _ _ Hsteps). exact Hg3.
Qed.

End NeverDry.

(** As long as the handle stays readable, an activation does not return:
    on a handle that always reports readable, always has a part to give,
    never raises and stays ready, and with ['message'] listeners that do
    not throw, [_flush] with the guard clear has no result for any fuel.
    Nothing in the loop bounds the messages handled by one activation. *)
Theorem flush_never_returns :
  never_dry -> patient ->
  forall fuel (s : Sock), _inFlush s = false -> flush fuel s = None.
Proof.
  intros Hdry Hpatient fuel s Hg. destruct fuel as [|n]; [cbn; now rewrite Hg|].
  rewrite flush_unfold by exact Hg.
  rewrite (loop_never_returns Hdry Hpatient (flush n) n None _ (flush_guarded n));
    reflexivity.
Qed.

(** ** The engine with listeners at large *)

(** *** What a listener's calls keep *)

Lemma wide_flush_guarded n : wide_guarded (wflush n).
Proof. intros s Hs. destruct n; cbn; now rewrite Hs. Qed.

Lemma kept_held (s s' : Sock) evs : kept s s' evs -> held s s' evs.
Proof. intros [Ht Hg Hw Hn Hq]. constructor; auto. Qed.

Lemma held_refl (s : Sock) : held s s [].
Proof. apply kept_held, kept_refl. Qed.

Lemma held_trans (s s1 s2 : Sock) evs1 evs2 :
  held s s1 evs1 -> held s1 s2 evs2 -> held s s2 (evs1 ++ evs2).
Proof.
  intros [Ht1 Hg1 Hn1 Hq1 Hw1] [Ht2 Hg2 Hn2 Hq2 Hw2].
  constructor.
  - now rewrite Ht2, Ht1, app_assoc.
  - congruence.
  - unfold no_guard in *. now rewrite forallb_app, Hn1, Hn2.
  - rewrite enqueued_app, popped_app.
    rewrite app_assoc, Hq1, <- !app_assoc. f_equal. exact Hq2.
  - unfold watcher_untouched. rewrite forallb_app. intros Hw.
    apply andb_true_iff in Hw as [Ha Hb].
    rewrite (Hw2 Hb). apply Hw1, Ha.
Qed.

Lemma all_quiet_app evs1 evs2 :
  all_quiet evs1 -> all_quiet evs2 -> all_quiet (evs1 ++ evs2).
Proof. unfold all_quiet. intros H1 H2. now rewrite forallb_app, H1, H2. Qed.

Lemma calm_app evs1 evs2 : calm evs1 -> calm evs2 -> calm (evs1 ++ evs2).
Proof. unfold calm. intros H1 H2. now rewrite forallb_app, H1, H2. Qed.

Lemma messages_app evs1 evs2 : messages (evs1 ++ evs2) = messages evs1 ++ messages evs2.
Proof. apply flat_map_app. Qed.

Lemma quiet_event_facts ev :
  quiet_event ev = true ->
  is_guard ev = false /\ is_transfer ev = false /\ is_emit ev = false /\
  calm_event ev = true /\ popped [ev] = [] /\ transmitted [ev] = [] /\
  messages [ev] = [] /\ is_error_event ev = false /\ raising ev = None.
Proof. destruct ev; cbn; intros Hq; try discriminate; repeat split; reflexivity. Qed.

Lemma all_quiet_facts evs :
  all_quiet evs ->
  no_guard evs /\ calm evs /\ popped evs = [] /\ transmitted evs = [] /\
  messages evs = [] /\ no_error_event evs /\
  forallb (fun ev => negb (is_transfer ev)) evs = true /\
  forallb (fun ev => negb (is_emit ev)) evs = true.
Proof.
  unfold all_quiet, no_guard, calm, no_error_event.
  induction evs as [|ev evs IH]; cbn [forallb]; [repeat split; reflexivity|].
  intros Hq. apply andb_true_iff in Hq as [Hev Hq].
  destruct (IH Hq) as (Hg & Hc & Hp & Ht & Hm & He & Hx & Hy).
  destruct (quiet_event_facts ev Hev) as (G & T & E & Cm & P & Tr & M & Er & R).
  rewrite G, T, E, Cm, Er, Hg, Hc, He, Hx, Hy.
  change (ev :: evs) with ([ev] ++ evs).
  rewrite popped_app, transmitted_app, messages_app, P, Tr, M, Hp, Ht, Hm.
  repeat split; reflexivity.
Qed.

Ltac held_fields :=
  constructor;
  cbn [trace _inFlush _watcher _outgoing listeners record set_zmq set_watcher
       set_outgoing set_listeners set_inFlush enqueue
       enqueued popped flat_map app forallb is_guard is_watcher_event negb andb];
  rewrite ?app_nil_r, <- ?app_assoc;
  try reflexivity; try (cbn; rewrite ?app_nil_r; reflexivity);
  try (unfold watcher_untouched; cbn; discriminate).

Lemma perform_call_held c : forall (s s1 : Sock) o,
  perform_call c s = (s1, o) ->
  exists evs, held s s1 evs /\ all_quiet evs /\ listeners s1 = listeners s.
Proof.
  induction c as [arguments| |addr|addr|addr|opt val|opt|c IH]; intros s s1 o;
    cbn [perform_call].
  - intros [= <- <-]. eexists [_]. split; [unfold enqueue; held_fields | split; reflexivity].
  - unfold close, watcher_stop. destruct (_watcher s) as [w|] eqn:Hw.
    + cbn [_zmq set_watcher record]. destruct (zmq_close (_zmq s)) as [h r].
      intros [= <- <-]. exists [EvWatcherStop]. split; [held_fields | split; reflexivity].
    + intros [= <- <-]. exists []. split; [apply held_refl | split; reflexivity].
  - unfold Wide.bind, bind_request, watcher_stop. destruct (_watcher s) as [w|] eqn:Hw.
    + cbn [_zmq set_watcher record]. destruct (zmq_bind addr (_zmq s)) as [h r].
      intros [= <- <-]. exists [EvWatcherStop; EvBind addr]. split; [held_fields | split; reflexivity].
    + intros [= <- <-]. exists []. split; [apply held_refl | split; reflexivity].
  - unfold bindSync, watcher_stop. destruct (_watcher s) as [w|] eqn:Hw.
    + cbn [_zmq set_watcher record]. destruct (zmq_bindSync addr (_zmq s)) as [h r].
      unfold watcher_start. cbn [_watcher set_zmq set_watcher record].
      destruct r as [u|e]; intros [= <- <-];
        [exists [EvWatcherStop; EvBindSync addr (Ok u); EvWatcherStart]
        |exists [EvWatcherStop; EvBindSync addr (Raise e); EvWatcherStart]];
        (split; [held_fields | split; reflexivity]).
    + intros [= <- <-]. exists []. split; [apply held_refl | split; reflexivity].
  - unfold connect. destruct (zmq_connect addr (_zmq s)) as [h r].
    intros [= <- <-]. exists [EvConnect addr r]. split; [held_fields | split; reflexivity].
  - unfold set_option. destruct (zmq_setsockopt opt _ (_zmq s)) as [h r].
    intros [= <- <-]. eexists [_]. split; [held_fields | split; reflexivity].
  - unfold getsockopt. destruct (zmq_getsockopt opt (_zmq s)) as [h r].
    intros [= <- <-]. eexists [_]. split; [held_fields | split; reflexivity].
  - intros [= <- <-]. destruct (perform_call c s) as [s2 o2] eqn:Hc.
    apply (IH _ _ _ Hc).
Qed.

Lemma perform_calls_held calls : forall (s s1 : Sock) o,
  perform_calls calls s = (s1, o) ->
  exists evs, held s s1 evs /\ all_quiet evs /\ listeners s1 = listeners s.
Proof.
  induction calls as [|c calls IH]; intros s s1 o; cbn [perform_calls].
  - intros [= <- <-]. exists []. split; [apply held_refl | split; reflexivity].
  - destruct (perform_call c s) as [s2 [|v]] eqn:Hc;
      apply perform_call_held in Hc as (evs1 & Hh1 & Hq1 & Hl1).
    + intros Hrest. apply IH in Hrest as (evs2 & Hh2 & Hq2 & Hl2).
      exists (evs1 ++ evs2). split; [eapply held_trans; eauto|].
      split; [apply all_quiet_app; assumption | congruence].
    + intros [= <- <-]. exists evs1. auto.
Qed.

Lemma perform_held b (s s1 : Sock) o :
  perform b s = (s1, o) ->
  exists evs, held s s1 evs /\ all_quiet evs /\ listeners s1 = listeners s.
Proof.
  unfold perform.
  destruct (perform_calls (Wide.behaviour_calls b) s) as [s2 [|v]] eqn:Hc;
    intros [= <- <-]; apply (perform_calls_held _ _ _ _ Hc).
Qed.

Lemma held_event ev (s : Sock) :
  is_emit ev = true -> held s (record ev s) [ev].
Proof. intros Hev. apply kept_held, kept_event, Hev. Qed.

Lemma deliver_message_held parts (s s1 : Sock) o :
  deliver_message parts s = (s1, o) ->
  exists evs, held s s1 (EvEmitMessage parts :: evs) /\ all_quiet evs.
Proof.
  unfold deliver_message.
  destruct (Wide.message_listener (listeners s) parts) as [a b].
  intros Hp. apply perform_held in Hp as (evs & Hh & Hq & _).
  exists evs. split; [|exact Hq].
  change (EvEmitMessage parts :: evs) with ([EvEmitMessage parts] ++ evs).
  eapply held_trans; [|exact Hh].
  destruct (held_event (EvEmitMessage parts) s eq_refl) as [Ht Hg Hn Hk Hw].
  constructor; auto.
Qed.

Lemma deliver_message_listeners parts (s s1 : Sock) o :
  deliver_message parts s = (s1, o) ->
  listeners s1 = fst (Wide.message_listener (listeners s) parts).
Proof.
  unfold deliver_message.
  destruct (Wide.message_listener (listeners s) parts) as [a b].
  intros Hp. apply perform_held in Hp as (evs & _ & _ & Hl). exact Hl.
Qed.

Lemma deliver_error_held e (s s1 : Sock) o :
  deliver_error e s = (s1, o) ->
  exists evs, held s s1 (EvEmitError e :: evs) /\ all_quiet evs.
Proof.
  unfold deliver_error.
  destruct (Wide.error_listener (listeners s) e) as [[a b]|].
  - intros Hp. apply perform_held in Hp as (evs & Hh & Hq & _).
    exists evs. split; [|exact Hq].
    change (EvEmitError e :: evs) with ([EvEmitError e] ++ evs).
    eapply held_trans; [|exact Hh].
    destruct (held_event (EvEmitError e) s eq_refl) as [Ht Hg Hn Hk Hw].
    constructor; auto.
  - intros [= <- <-]. exists []. split; [apply held_event|]; reflexivity.
Qed.

(** *** Listeners under the guard *)

Section WideGuarded.

Variable flush_rec : Sock -> option (Sock * Wide.Outcome).
Hypothesis Hnoop : wide_guarded flush_rec.

Lemma run_call_guarded c : forall s : Sock,
  _inFlush s = true ->
  Wide.run_call utf8 flush_rec c s = Some (perform_call c s).
Proof.
  induction c as [arguments| |addr|addr|addr|opt val|opt|c IH]; intros s Hg;
    cbn [Wide.run_call perform_call].
  - apply Hnoop. exact Hg.
  - destruct (close s); reflexivity.
  - destruct (Wide.bind addr s); reflexivity.
  - destruct (bindSync addr s); reflexivity.
  - destruct (connect addr s); reflexivity.
  - destruct (set_option utf8 opt val s); reflexivity.
  - destruct (getsockopt opt s); reflexivity.
  - rewrite (IH _ Hg). destruct (perform_call c s); reflexivity.
Qed.

Lemma run_calls_guarded calls : forall s : Sock,
  _inFlush s = true ->
  Wide.run_calls utf8 flush_rec calls s = Some (perform_calls calls s).
Proof.
  induction calls as [|c calls IH]; intros s Hg; cbn [Wide.run_calls perform_calls].
  - reflexivity.
  - rewrite run_call_guarded by exact Hg.
    destruct (perform_call c s) as [s1 [|v]] eqn:Hc; [|reflexivity].
    apply IH. apply perform_call_held in Hc as (evs & Hh & _).
    rewrite (held_guard _ _ _ Hh). exact Hg.
Qed.

Lemma run_listener_guarded b (s : Sock) :
  _inFlush s = true ->
  Wide.run_listener utf8 flush_rec b s = Some (perform b s).
Proof.
  intros Hg. unfold Wide.run_listener, perform.
  rewrite run_calls_guarded by exact Hg.
  destruct (perform_calls (Wide.behaviour_calls b) s) as [s1 [|v]]; reflexivity.
Qed.

Lemma wide_emit_message_guarded parts (s : Sock) :
  _inFlush s = true ->
  Wide.emit_message utf8 flush_rec parts s = Some (deliver_message parts s).
Proof.
  intros Hg. unfold Wide.emit_message, deliver_message.
  destruct (Wide.message_listener (listeners s) parts) as [a b].
  apply run_listener_guarded. exact Hg.
Qed.

Lemma wide_emit_error_guarded e (s : Sock) :
  _inFlush s = true ->
  Wide.emit_error utf8 flush_rec e s = Some (deliver_error e s).
Proof.
  intros Hg. unfold Wide.emit_error, deliver_error.
  destruct (Wide.error_listener (listeners s) e) as [[a b]|]; [|reflexivity].
  apply run_listener_guarded. exact Hg.
Qed.

End WideGuarded.

(** *** A run of the engine, action by action *)

Lemma wide_okstep_held (s s1 : Sock) :
  wide_okstep s s1 ->
  exists evs, held s s1 evs /\ calm evs /\ popped evs = transmitted evs.
Proof.
  destruct 1 as [opt s s1 v Hg | s s1 b Hr | s [b f] q s1 u Hq Hs | s parts s1 Hm].
  - apply getsockopt_spec in Hg as (h & _ & ->).
    eexists; split; [apply kept_held, kept_call; reflexivity | split; reflexivity].
  - apply recv_spec in Hr as (h & _ & ->).
    eexists; split; [apply kept_held, kept_call; reflexivity | split; reflexivity].
  - apply send_entry_spec in Hs as (h & _ & ->).
    eexists; split; [apply kept_held, kept_send; exact Hq | split; reflexivity].
  - apply deliver_message_held in Hm as (evs & Hh & Hq).
    destruct (all_quiet_facts evs Hq) as (_ & Hc & Hp & Ht & _).
    eexists; split; [exact Hh|]. split.
    + unfold calm in *. cbn [forallb calm_event raising]. exact Hc.
    + change (EvEmitMessage parts :: evs) with ([EvEmitMessage parts] ++ evs).
      rewrite popped_app, transmitted_app, Hp, Ht. reflexivity.
Qed.

Lemma wide_failstep_held v (s s1 : Sock) :
  wide_failstep v s s1 ->
  exists evs, held s s1 evs /\ failure_events v evs.
Proof.
  destruct 1 as [opt s s1 e Hg | s s1 e Hr | s [b f] q s1 e Hq Hs | s parts s1 v Hm].
  - apply getsockopt_spec in Hg as (h & _ & ->).
    eexists; split; [apply kept_held, kept_call; reflexivity | constructor].
  - apply recv_spec in Hr as (h & _ & ->).
    eexists; split; [apply kept_held, kept_call; reflexivity | constructor].
  - apply send_entry_spec in Hs as (h & _ & ->).
    eexists; split; [apply kept_held, kept_send; exact Hq | constructor].
  - apply deliver_message_held in Hm as (evs & Hh & Hq).
    eexists; split; [exact Hh | constructor; exact Hq].
Qed.

(** What the events of a failing action amount to: nothing transmitted,
    no ['error'] event, and nothing popped unless it is a [send] that
    raised. *)
Lemma failure_events_facts v evs :
  failure_events v evs ->
  transmitted evs = [] /\
  no_error_event evs /\
  (popped evs = [] \/ exists b f e, v = Wide.ThrownError e /\ evs = [EvSend b f (Raise e)]).
Proof.
  destruct 1 as [opt e | e | b f e | v parts evs Hq].
  - repeat split; auto.
  - repeat split; auto.
  - repeat split; eauto 6.
  - destruct (all_quiet_facts evs Hq) as (_ & _ & Hp & Ht & _ & He & _).
    change (EvEmitMessage parts :: evs) with ([EvEmitMessage parts] ++ evs).
    rewrite popped_app, transmitted_app, Hp, Ht.
    repeat split; auto.
Qed.

Lemma wide_oksteps_held (s s' : Sock) :
  wide_oksteps s s' ->
  exists evs, held s s' evs /\ calm evs /\ popped evs = transmitted evs.
Proof.
  induction 1 as [s | s s1 s2 Hstep _ (evs2 & Hk2 & Hc2 & Hp2)].
  - exists []. split; [apply held_refl | split; reflexivity].
  - apply wide_okstep_held in Hstep as (evs1 & Hk1 & Hc1 & Hp1).
    exists (evs1 ++ evs2). split; [eapply held_trans; eauto |].
    split; [apply calm_app; assumption|].
    now rewrite popped_app, transmitted_app, Hp1, Hp2.
Qed.

Lemma wide_oksteps_one (s s1 : Sock) : wide_okstep s s1 -> wide_oksteps s s1.
Proof. intros Hs. eapply wide_oksteps_step; [exact Hs | apply wide_oksteps_refl]. Qed.

Lemma wide_oksteps_trans (s s1 s2 : Sock) :
  wide_oksteps s s1 -> wide_oksteps s1 s2 -> wide_oksteps s s2.
Proof.
  induction 1 as [|s a b Hstep _ IH]; intros H2; [exact H2|].
  eapply wide_oksteps_step; [exact Hstep | apply IH, H2].
Qed.

Lemma wide_oksteps_guard (s s' : Sock) :
  wide_oksteps s s' -> _inFlush s' = _inFlush s.
Proof. intros Hs. apply wide_oksteps_held in Hs as (evs & Hk & _). apply Hk. Qed.

Lemma wide_recv_parts_steps fuel : forall acc (s s' : Sock) r,
  recv_parts fuel acc s = Some (s', r) ->
  exists s0, wide_oksteps s s0 /\
             match r with
             | Ok _ => s' = s0
             | Raise e => wide_failstep (Wide.ThrownError e) s0 s'
             end.
Proof.
  induction fuel as [|n IH]; intros acc s s' r; cbn [recv_parts]; [discriminate|].
  destruct (recv s) as [s1 [b|e]] eqn:Hr.
  2: { intros [= <- <-]. exists s. split; [apply wide_oksteps_refl | now apply wide_fail_recv]. }
  assert (Hs1 : wide_oksteps s s1) by (eapply wide_oksteps_one, wide_ok_recv; exact Hr).
  destruct (_receiveMore s1) as [s2 [more|e]] eqn:Hm.
  2: { intros [= <- <-]. exists s1. split; [exact Hs1 |].
       eapply wide_fail_getsockopt. exact Hm. }
  assert (Hs2 : wide_oksteps s s2).
  { eapply wide_oksteps_trans; [exact Hs1 |].
    eapply wide_oksteps_one, wide_ok_getsockopt. exact Hm. }
  destruct (truthy more).
  - intros Hrec. apply IH in Hrec as (s0 & Hsteps & Hres).
    exists s0. split; [eapply wide_oksteps_trans; eauto | exact Hres].
  - intros [= <- <-]. exists s2. split; [exact Hs2 | reflexivity].
Qed.

Lemma wide_send_burst_steps q : forall fl (s s' : Sock) fl' c,
  _outgoing s = q ->
  send_burst q fl s = (s', fl', c) ->
  exists s0, wide_oksteps s s0 /\
             match c with
             | Normal => s' = s0
             | Throw e => wide_failstep (Wide.ThrownError e) s0 s'
             end.
Proof.
  induction q as [|sendArgs q IH]; intros fl s s' fl' c Hq; cbn [send_burst].
  - intros [= <- <- <-]. exists s. split; [apply wide_oksteps_refl | reflexivity].
  - destruct (truthy (js_and fl ZMQ_POLLOUT)).
    2: { intros [= <- <- <-]. exists s. split; [apply wide_oksteps_refl | reflexivity]. }
    destruct (send_entry sendArgs (set_outgoing q s)) as [s1 [u|e]] eqn:Hs.
    2: { intros [= <- <- <-]. exists s. split; [apply wide_oksteps_refl |].
         eapply wide_fail_send; eauto. }
    assert (Hs1 : wide_oksteps s s1) by (eapply wide_oksteps_one, wide_ok_send; eauto).
    assert (Hq1 : _outgoing s1 = q) by (apply send_entry_outgoing in Hs; exact Hs).
    destruct (_ioevents s1) as [s2 [fl2|e]] eqn:Hio.
    2: { intros [= <- <- <-]. exists s1. split; [exact Hs1 |].
         eapply wide_fail_getsockopt. exact Hio. }
    assert (Hq2 : _outgoing s2 = q) by (apply getsockopt_outgoing in Hio; congruence).
    intros Hrec. apply (IH _ _ _ _ _ Hq2) in Hrec as (s0 & Hsteps & Hres).
    exists s0. split; [|exact Hres].
    eapply wide_oksteps_trans; [exact Hs1 |].
    eapply wide_oksteps_step; [eapply wide_ok_getsockopt; exact Hio | exact Hsteps].
Qed.

Section WideRun.

Variable flush_rec : Sock -> option (Sock * Wide.Outcome).
Hypothesis Hnoop : wide_guarded flush_rec.

Lemma wide_receive_block_eq fuel (s : Sock) :
  _inFlush s = true ->
  Wide.receive_block utf8 flush_rec fuel s
  = match recv_parts fuel [] s with
    | None => None
    | Some (s1, Raise e) => Some (s1, Wide.XRaised (Wide.ThrownError e))
    | Some (s1, Ok parts) => Some (after_message (deliver_message parts s1))
    end.
Proof.
  intros Hg. unfold Wide.receive_block.
  destruct (recv_parts fuel [] s) as [[s1 [parts|e]]|] eqn:Hrecv; try reflexivity.
  apply wide_recv_parts_steps in Hrecv as (s0 & Hsteps & ->).
  rewrite (wide_emit_message_guarded _ Hnoop)
    by (rewrite (wide_oksteps_guard _ _ Hsteps); exact Hg).
  unfold after_message. destruct (deliver_message parts s0) as [s2 [|v]]; [|reflexivity].
  destruct (negb (zmq_state (_zmq s2) =? STATE_READY)); reflexivity.
Qed.

Lemma wide_receive_block_steps fuel (s s' : Sock) x :
  _inFlush s = true ->
  Wide.receive_block utf8 flush_rec fuel s = Some (s', x) ->
  x <> Wide.XBreak /\ exists s0, wide_oksteps s s0 /\ wide_ends s0 s' x.
Proof.
  intros Hg. rewrite wide_receive_block_eq by exact Hg.
  destruct (recv_parts fuel [] s) as [[s1 [parts|e]]|] eqn:Hrecv; [| |discriminate].
  2: { intros [= <- <-]. split; [discriminate|].
       apply wide_recv_parts_steps in Hrecv as (s0 & Hsteps & Hres). eauto. }
  apply wide_recv_parts_steps in Hrecv as (s0 & Hsteps & ->).
  unfold after_message. destruct (deliver_message parts s0) as [s2 [|v]] eqn:Hm.
  - assert (Hs2 : wide_oksteps s s2).
    { eapply wide_oksteps_trans; [exact Hsteps |].
      eapply wide_oksteps_one, wide_ok_emit; eauto. }
    destruct (negb (zmq_state (_zmq s2) =? STATE_READY)); intros [= <- <-];
      (split; [discriminate|]); exists s2; split; auto; reflexivity.
  - intros [= <- <-]. split; [discriminate|].
    exists s0. split; [exact Hsteps |]. eapply wide_fail_emit; eauto.
Qed.

Lemma wide_flush_loop_steps fuel : forall fl (s s' : Sock) fl' x,
  _inFlush s = true ->
  wloop flush_rec fuel fl s = Some (s', fl', x) ->
  x <> Wide.XProceed /\ exists s0, wide_oksteps s s0 /\ wide_ends s0 s' x.
Proof.
  induction fuel as [|n IH]; intros fl s s' fl' x Hg; cbn [Wide.flush_loop]; [discriminate|].
  destruct (_ioevents s) as [s1 [ev|e]] eqn:Hio.
  2: { intros [= <- <- <-]. split; [discriminate|].
       exists s. split; [apply wide_oksteps_refl |]. eapply wide_fail_getsockopt. exact Hio. }
  assert (Hs1 : wide_oksteps s s1) by (eapply wide_oksteps_one, wide_ok_getsockopt; exact Hio).
  assert (Hg1 : _inFlush s1 = true) by (rewrite (wide_oksteps_guard _ _ Hs1); exact Hg).
  destruct (negb (truthy (loop_flags (_outgoing s1) ev))).
  { intros [= <- <- <-]. split; [discriminate|]. exists s1. split; [exact Hs1 | reflexivity]. }
  assert (Hblock : forall s2 x2,
             (if truthy (js_and (loop_flags (_outgoing s1) ev) ZMQ_POLLIN)
              then Wide.receive_block utf8 flush_rec n s1
              else Some (s1, Wide.XProceed)) = Some (s2, x2) ->
             x2 <> Wide.XBreak /\ exists s0, wide_oksteps s1 s0 /\ wide_ends s0 s2 x2).
  { intros s2 x2. destruct (truthy (js_and _ ZMQ_POLLIN)).
    - apply wide_receive_block_steps. exact Hg1.
    - intros [= <- <-]. split; [discriminate|].
      exists s1. split; [apply wide_oksteps_refl | reflexivity]. }
  destruct (if truthy (js_and _ ZMQ_POLLIN) then _ else _) as [[s2 x2]|]; [|discriminate].
  destruct (Hblock s2 x2 eq_refl) as (Hx2 & s0 & Hsteps & Hend).
  destruct x2; [ | congruence | | ].
  - cbn in Hend. subst s2.
    assert (Hs0 : wide_oksteps s s0) by (eapply wide_oksteps_trans; eauto).
    destruct (send_burst (_outgoing s0) (loop_flags (_outgoing s1) ev) s0)
      as [[s3 fl3] [|e]] eqn:Hb.
    + apply wide_send_burst_steps in Hb as (s4 & Hsteps4 & ->); [|reflexivity].
      assert (Hs4 : wide_oksteps s s4) by (eapply wide_oksteps_trans; eauto).
      intros Hrec. apply IH in Hrec as (Hc & s5 & Hsteps5 & Hend5).
      * split; [exact Hc|]. exists s5. split; [eapply wide_oksteps_trans; eauto | exact Hend5].
      * rewrite (wide_oksteps_guard _ _ Hs4). exact Hg.
    + apply wide_send_burst_steps in Hb as (s4 & Hsteps4 & Hfail); [|reflexivity].
      intros [= <- <- <-]. split; [discriminate|].
      exists s4. split; [eapply wide_oksteps_trans; eauto | exact Hfail].
  - intros [= <- <- <-]. split; [discriminate|].
    exists s0. split; [eapply wide_oksteps_trans; eauto | exact Hend].
  - intros [= <- <- <-]. split; [discriminate|].
    exists s0. split; [eapply wide_oksteps_trans; eauto | exact Hend].
Qed.

End WideRun.

(** *** The watcher *)

Lemma perform_call_watcher c : forall (s s1 : Sock) o,
  leaves_watcher c = true ->
  perform_call c s = (s1, o) -> _watcher s1 = _watcher s.
Proof.
  induction c as [arguments| |addr|addr|addr|opt val|opt|c IH]; intros s s1 o;
    cbn [leaves_watcher perform_call]; try discriminate; intros Hc.
  - intros [= <- <-]. reflexivity.
  - unfold connect. destruct (zmq_connect addr (_zmq s)) as [h r].
    intros [= <- <-]. reflexivity.
  - unfold set_option. destruct (zmq_setsockopt opt _ (_zmq s)) as [h r].
    intros [= <- <-]. reflexivity.
  - unfold getsockopt. destruct (zmq_getsockopt opt (_zmq s)) as [h r].
    intros [= <- <-]. reflexivity.
  - intros [= <- <-]. destruct (perform_call c s) as [s2 o2] eqn:Hp.
    apply (IH _ _ _ Hc Hp).
Qed.

Lemma perform_calls_watcher calls : forall (s s1 : Sock) o,
  forallb leaves_watcher calls = true ->
  perform_calls calls s = (s1, o) -> _watcher s1 = _watcher s.
Proof.
  induction calls as [|c calls IH]; intros s s1 o; cbn [forallb perform_calls].
  - intros _ [= <- <-]. reflexivity.
  - intros Hall. apply andb_true_iff in Hall as [Hc Hall].
    destruct (perform_call c s) as [s2 [|v]] eqn:Hp;
      apply (perform_call_watcher _ _ _ _ Hc) in Hp.
    + intros Hrest. apply (IH _ _ _ Hall) in Hrest. congruence.
    + intros [= <- <-]. exact Hp.
Qed.

Lemma perform_watcher b (s s1 : Sock) o :
  forallb leaves_watcher (Wide.behaviour_calls b) = true ->
  perform b s = (s1, o) -> _watcher s1 = _watcher s.
Proof.
  intros Hall. unfold perform.
  destruct (perform_calls (Wide.behaviour_calls b) s) as [s2 [|v]] eqn:Hp;
    intros [= <- <-]; apply (perform_calls_watcher _ _ _ _ Hall Hp).
Qed.

Section WatcherLeftAlone.

Hypothesis Halone : watcher_left_alone.

Lemma deliver_message_watcher parts (s s1 : Sock) o :
  deliver_message parts s = (s1, o) -> _watcher s1 = _watcher s.
Proof.
  unfold deliver_message.
  pose proof (proj1 Halone (listeners s) parts) as Hall.
  destruct (Wide.message_listener (listeners s) parts) as [a b].
  intros Hp. apply (perform_watcher _ _ _ _ Hall) in Hp. exact Hp.
Qed.

Lemma deliver_error_watcher e (s s1 : Sock) o :
  deliver_error e s = (s1, o) -> _watcher s1 = _watcher s.
Proof.
  unfold deliver_error.
  destruct (Wide.error_listener (listeners s) e) as [[a b]|] eqn:He.
  - intros Hp. apply (perform_watcher _ _ _ _ (proj2 Halone _ _ _ _ He)) in Hp. exact Hp.
  - intros [= <- <-]. reflexivity.
Qed.

Lemma wide_okstep_watcher (s s1 : Sock) : wide_okstep s s1 -> _watcher s1 = _watcher s.
Proof.
  destruct 1 as [opt s s1 v Hg | s s1 b Hr | s [b f] q s1 u Hq Hs | s parts s1 Hm].
  - apply getsockopt_spec in Hg as (h & _ & ->). reflexivity.
  - apply recv_spec in Hr as (h & _ & ->). reflexivity.
  - apply send_entry_spec in Hs as (h & _ & ->). reflexivity.
  - apply (deliver_message_watcher _ _ _ _ Hm).
Qed.

Lemma wide_failstep_watcher v (s s1 : Sock) :
  wide_failstep v s s1 -> _watcher s1 = _watcher s.
Proof.
  destruct 1 as [opt s s1 e Hg | s s1 e Hr | s [b f] q s1 e Hq Hs | s parts s1 v Hm].
  - apply getsockopt_spec in Hg as (h & _ & ->). reflexivity.
  - apply recv_spec in Hr as (h & _ & ->). reflexivity.
  - apply send_entry_spec in Hs as (h & _ & ->). reflexivity.
  - apply (deliver_message_watcher _ _ _ _ Hm).
Qed.

Lemma wide_oksteps_watcher (s s' : Sock) :
  wide_oksteps s s' -> _watcher s' = _watcher s.
Proof.
  induction 1 as [s | s s1 s2 Hstep _ IH]; [reflexivity|].
  rewrite IH. apply wide_okstep_watcher, Hstep.
Qed.

End WatcherLeftAlone.

(** *** The shape of one activation *)

Lemma wide_flush_unfold n (s : Sock) :
  _inFlush s = false ->
  wflush (S n) s
  = match wloop (wflush n) n None (record EvGuardSet (set_inFlush true s)) with
    | None => None
    | Some (s1, flags, Wide.XRaised v) =>
        match Wide.attach_to inspect flags (_outgoing s1) v with
        | Raise t => Some (s1, Wide.Throws (Wide.ThrownError t))
        | Ok e =>
            match Wide.emit_error utf8 (wflush n) e s1 with
            | None => None
            | Some (s2, Wide.Throws v2) => Some (clear_guard s2, Wide.Throws v2)
            | Some (s2, Wide.Returns) => Some (clear_guard s2, Wide.Returns)
            end
        end
    | Some (s1, _, Wide.XReturn) => Some (s1, Wide.Returns)
    | Some (s1, _, _) => Some (clear_guard s1, Wide.Returns)
    end.
Proof. intros Hg. cbn [Wide._flush]. rewrite Hg. reflexivity. Qed.

Lemma wide_loop_unfold flush_rec n fl (s : Sock) :
  wloop flush_rec (S n) fl s
  = match _ioevents s with
    | (s1, Raise e) => Some (s1, fl, Wide.XRaised (Wide.ThrownError e))
    | (s1, Ok ioevents) =>
        let flags1 := loop_flags (_outgoing s1) ioevents in
        if negb (truthy flags1) then Some (s1, Some flags1, Wide.XBreak)
        else
          match (if truthy (js_and flags1 ZMQ_POLLIN)
                 then Wide.receive_block utf8 flush_rec n s1
                 else Some (s1, Wide.XProceed)) with
          | None => None
          | Some (s2, Wide.XProceed) =>
              match send_burst (_outgoing s2) flags1 s2 with
              | (s3, flags2, Throw e) =>
                  Some (s3, Some flags2, Wide.XRaised (Wide.ThrownError e))
              | (s3, flags2, Normal) => wloop flush_rec n (Some flags2) s3
              end
          | Some (s2, x) => Some (s2, Some flags1, x)
          end
    end.
Proof. reflexivity. Qed.

(** What the [catch] does with what reached it. *)
Lemma wide_flush_catch n (s s1 : Sock) fl v :
  _inFlush s = false ->
  wloop (wflush n) n None (record EvGuardSet (set_inFlush true s))
  = Some (s1, fl, Wide.XRaised v) ->
  _inFlush s1 = true /\
  wflush (S n) s
  = match Wide.attach_to inspect fl (_outgoing s1) v with
    | Raise t => Some (s1, Wide.Throws (Wide.ThrownError t))
    | Ok e => Some (clear_guard (fst (deliver_error e s1)), snd (deliver_error e s1))
    end.
Proof.
  intros Hg Hloop.
  assert (Hg1 : _inFlush s1 = true).
  { apply (wide_flush_loop_steps _ (wide_flush_guarded n)) in Hloop
      as (_ & sp & Hsteps & Hend); [|reflexivity].
    cbn [wide_ends] in Hend. apply wide_failstep_held in Hend as (evs & Hh & _).
    rewrite (held_guard _ _ _ Hh), (wide_oksteps_guard _ _ Hsteps). reflexivity. }
  split; [exact Hg1|].
  rewrite wide_flush_unfold by exact Hg. rewrite Hloop.
  destruct (Wide.attach_to inspect fl (_outgoing s1) v) as [e|t]; [|reflexivity].
  rewrite (wide_emit_error_guarded _ (wide_flush_guarded n)) by exact Hg1.
  destruct (deliver_error e s1) as [s2 [|v2]]; reflexivity.
Qed.

(** Every activation that returns: a row of successful actions [pre] from
    the setting of the guard, and then one of three ends.  The loop left
    by [break] or [return]: the guard is cleared.  An [Error] object
    caught: it is emitted with [flags] and the queue attached, and the
    guard is cleared.  [null] or [undefined] caught: [_flush] throws a
    [TypeError] there and then. *)
Lemma wide_flush_shape fuel (s s' : Sock) o :
  _inFlush s = false ->
  wflush fuel s = Some (s', o) ->
  exists sp pre,
    wide_oksteps (record EvGuardSet (set_inFlush true s)) sp /\
    held (record EvGuardSet (set_inFlush true s)) sp pre /\
    calm pre /\ popped pre = transmitted pre /\
    ((s' = clear_guard sp /\ o = Wide.Returns) \/
     (exists e evf s1 fl s2 lev,
         wide_failstep (Wide.ThrownError e) sp s1 /\
         held sp s1 evf /\ failure_events (Wide.ThrownError e) evf /\
         deliver_error (attach inspect fl (_outgoing s1) e) s1 = (s2, o) /\
         held s1 s2 (EvEmitError (attach inspect fl (_outgoing s1) e) :: lev) /\
         all_quiet lev /\
         s' = clear_guard s2) \/
     (exists evf,
         wide_failstep Wide.ThrownNullish sp s' /\
         held sp s' evf /\ failure_events Wide.ThrownNullish evf /\
         o = Wide.Throws (Wide.ThrownError Wide.assignment_error))).
Proof.
  intros Hg. destruct fuel as [|n]; [cbn [Wide._flush]; rewrite Hg; discriminate|].
  intros Hf.
  destruct (wloop (wflush n) n None (record EvGuardSet (set_inFlush true s)))
    as [[[s1 fl] x]|] eqn:Hloop.
  2: { rewrite wide_flush_unfold, Hloop in Hf by exact Hg. discriminate. }
  pose proof Hloop as Hrun.
  apply (wide_flush_loop_steps _ (wide_flush_guarded n)) in Hrun
    as (Hx & sp & Hsteps & Hend); [|reflexivity].
  destruct (wide_oksteps_held _ _ Hsteps) as (pre & Hpre & Hcalm & Hpt).
  exists sp, pre. do 4 (split; [assumption|]).
  destruct x as [| | |v]; cbn [wide_ends] in Hend.
  - congruence.
  - subst s1. rewrite wide_flush_unfold, Hloop in Hf by exact Hg.
    injection Hf as <- <-. left. split; reflexivity.
  - subst s1. rewrite wide_flush_unfold, Hloop in Hf by exact Hg.
    injection Hf as <- <-. left. split; reflexivity.
  - destruct (wide_flush_catch _ _ _ _ _ Hg Hloop) as (Hg1 & Heq).
    rewrite Heq in Hf. clear Heq.
    destruct (wide_failstep_held _ _ _ Hend) as (evf & Hhf & Hev).
    destruct v as [e|]; cbn [Wide.attach_to] in Hf.
    + destruct (deliver_error (attach inspect fl (_outgoing s1) e) s1) as [s2 o2] eqn:Hd.
      cbn [fst snd] in Hf. injection Hf as <- <-.
      destruct (deliver_error_held _ _ _ _ Hd) as (lev & Hhd & Hq).
      right. left. exists e, evf, s1, fl, s2, lev.
      do 6 (split; [assumption|]). reflexivity.
    + injection Hf as <- <-. right. right. exists evf.
      do 3 (split; [assumption|]). reflexivity.
Qed.

(** *** A message cut short, a burst cut short *)

Lemma recv_parts_breaks h items tail e h2 :
  handle_breaks h items tail e h2 ->
  forall k acc (s : Sock),
    _zmq s = h ->
    recv_parts k acc s
    = if (List.length items <? k)%nat
      then Some (advance h2 (receive_trace items ++ tail) s, Raise e)
      else None.
Proof.
  induction 1 as [h h1 e Hrecv
                 | h h1 h2 b e Hrecv Hmore
                 | h h1 h2 h3 b more items tail e Hrecv Hmore Hnext _ IH];
    intros k acc s Hs; subst h; (destruct k as [|k]; [reflexivity|]); cbn [recv_parts].
  - rewrite (recv_eq _ _ _ Hrecv). reflexivity.
  - rewrite (recv_eq _ _ _ Hrecv).
    unfold _receiveMore. rewrite (getsockopt_eq _ _ h2 (Raise e)) by exact Hmore.
    rewrite advance_advance. reflexivity.
  - rewrite (recv_eq _ _ _ Hrecv).
    unfold _receiveMore. rewrite (getsockopt_eq _ _ h2 (Ok more)) by exact Hmore.
    rewrite Hnext, advance_advance, IH by reflexivity.
    rewrite advance_advance. reflexivity.
Qed.

Lemma send_burst_refuses h flags q done tail fl e h' rest :
  handle_refuses h flags q done tail fl e h' rest ->
  forall s : Sock,
    _zmq s = h ->
    send_burst q flags s
    = (advance h' (burst_trace done ++ tail) (set_outgoing rest s), fl, Throw e).
Proof.
  induction 1 as [h h1 flags b f rest e Hout Hsend
                 | h h1 h2 flags b f rest e Hout Hsend Hread
                 | h h1 h2 h3 flags flags1 b f q done tail fl e rest Hout Hsend Hread _ IH];
    intros s Hs; subst h; cbn [send_burst]; rewrite Hout.
  - rewrite (send_entry_eq b f _ h1 (Raise e)) by exact Hsend. reflexivity.
  - rewrite (send_entry_eq b f _ h1 (Ok tt)) by exact Hsend.
    unfold _ioevents. rewrite (getsockopt_eq _ _ h2 (Raise e)) by exact Hread.
    rewrite advance_advance. reflexivity.
  - rewrite (send_entry_eq b f _ h1 (Ok tt)) by exact Hsend.
    unfold _ioevents. rewrite (getsockopt_eq _ _ h2 (Ok flags1)) by exact Hread.
    rewrite advance_advance, IH by reflexivity.
    unfold advance, set_outgoing. cbn. rewrite <- !app_assoc. reflexivity.
Qed.

(** The books of a burst cut short: what was popped, and what is left. *)
Lemma handle_refuses_queue h flags q done tail fl e h' rest :
  handle_refuses h flags q done tail fl e h' rest ->
  popped (burst_trace done ++ tail) ++ rest = q /\
  transmitted (burst_trace done) = map fst done /\
  truthy (js_and flags ZMQ_POLLOUT) = true.
Proof.
  induction 1 as [h h1 flags b f rest e Hout Hsend
                 | h h1 h2 flags b f rest e Hout Hsend Hread
                 | h h1 h2 h3 flags flags1 b f q done tail fl e rest Hout Hsend Hread _
                     (IHq & IHt & _)].
  - repeat split; auto.
  - repeat split; auto.
  - cbn [burst_trace flat_map fst snd app popped transmitted map] in *.
    fold (burst_trace done). fold (popped (burst_trace done ++ tail)).
    fold (transmitted (burst_trace done)).
    rewrite IHq, IHt. repeat split; auto.
Qed.

(** Every receive loop that returns has met one of the two: a handle that
    yields a complete message, or one that breaks it off. *)
Lemma recv_parts_classified fuel : forall acc (s s' : Sock) r,
  recv_parts fuel acc s = Some (s', r) ->
  match r with
  | Ok parts =>
      exists items h2,
        handle_yields (_zmq s) items h2 /\
        parts = acc ++ map fst items /\
        s' = advance h2 (receive_trace items) s
  | Raise e =>
      exists items tail h2,
        handle_breaks (_zmq s) items tail e h2 /\
        s' = advance h2 (receive_trace items ++ tail) s
  end.
Proof.
  induction fuel as [|n IH]; intros acc s s' r; cbn [recv_parts]; [discriminate|].
  destruct (zmq_recv (_zmq s)) as [h1 [b|e]] eqn:Hrecv;
    rewrite (recv_eq _ _ _ Hrecv).
  2: { intros [= <- <-]. exists [], [EvRecv (Raise e)], h1.
       split; [now constructor | reflexivity]. }
  unfold _receiveMore.
  destruct (zmq_getsockopt ZMQ_RCVMORE h1) as [h2 [more|e]] eqn:Hmore.
  2: { rewrite (getsockopt_eq _ _ h2 (Raise e)) by exact Hmore.
       intros [= <- <-]. eexists [], _, h2.
       split; [eapply breaks_more; eauto | now rewrite advance_advance]. }
  rewrite (getsockopt_eq _ _ h2 (Ok more)) by exact Hmore.
  rewrite advance_advance.
  destruct (truthy more) eqn:Htruthy.
  - intros Hrec. apply IH in Hrec. cbn [_zmq advance] in Hrec.
    destruct r as [parts|e].
    + destruct Hrec as (items & h3 & Hy & -> & ->).
      exists ((b, more) :: items), h3. split; [eapply yields_more; eauto|].
      split; [now rewrite <- app_assoc | now rewrite advance_advance].
    + destruct Hrec as (items & tail & h3 & Hb & ->).
      exists ((b, more) :: items), tail, h3. split; [eapply breaks_later; eauto|].
      now rewrite advance_advance.
  - intros [= <- <-]. exists [(b, more)], h2.
    split; [eapply yields_last; eauto | split; reflexivity].
Qed.

(** *** Pass by pass *)

Lemma passes_loop flush_rec n fl (s : Sock) n' fl' s' :
  passes flush_rec n fl s n' fl' s' ->
  wloop flush_rec n fl s = wloop flush_rec n' fl' s'.
Proof.
  induction 1 as [n fl s | n fl s s1 ev s2 s3 flags2 n' fl' s' Hio Hfl Hblock Hburst _ IH];
    [reflexivity|].
  rewrite wide_loop_unfold, Hio. cbn zeta. rewrite Hfl. cbn [negb].
  rewrite Hblock, Hburst. exact IH.
Qed.

Lemma passes_steps flush_rec n fl (s : Sock) n' fl' s' :
  wide_guarded flush_rec ->
  passes flush_rec n fl s n' fl' s' ->
  _inFlush s = true -> wide_oksteps s s'.
Proof.
  intros Hnoop.
  induction 1 as [n fl s | n fl s s1 ev s2 s3 flags2 n' fl' s' Hio Hfl Hblock Hburst _ IH];
    intros Hg; [apply wide_oksteps_refl|].
  assert (Hs1 : wide_oksteps s s1) by (eapply wide_oksteps_one, wide_ok_getsockopt; exact Hio).
  assert (Hg1 : _inFlush s1 = true) by (rewrite (wide_oksteps_guard _ _ Hs1); exact Hg).
  assert (Hs2 : wide_oksteps s1 s2).
  { destruct (truthy (js_and _ ZMQ_POLLIN)).
    - apply (wide_receive_block_steps _ Hnoop) in Hblock as (_ & s0 & Hsteps & Hend);
        [|exact Hg1].
      cbn in Hend. subst s2. exact Hsteps.
    - injection Hblock as <-. apply wide_oksteps_refl. }
  apply wide_send_burst_steps in Hburst as (s4 & Hs4 & ->); [|reflexivity].
  assert (Hall : wide_oksteps s s4).
  { eapply wide_oksteps_trans; [exact Hs1|]. eapply wide_oksteps_trans; eauto. }
  eapply wide_oksteps_trans; [exact Hall|].
  apply IH. rewrite (wide_oksteps_guard _ _ Hall). exact Hg.
Qed.

Lemma pass_reads flush_rec k fl (s : Sock) h0 ev :
  zmq_getsockopt ZMQ_EVENTS (_zmq s) = (h0, Ok ev) ->
  truthy (loop_flags (_outgoing s) ev) = true ->
  wloop flush_rec (S k) fl s
  = match (if truthy (js_and (loop_flags (_outgoing s) ev) ZMQ_POLLIN)
           then Wide.receive_block utf8 flush_rec k
                                   (advance h0 [EvGetsockopt ZMQ_EVENTS (Ok ev)] s)
           else Some (advance h0 [EvGetsockopt ZMQ_EVENTS (Ok ev)] s, Wide.XProceed)) with
    | None => None
    | Some (s2, Wide.XProceed) =>
        match send_burst (_outgoing s2) (loop_flags (_outgoing s) ev) s2 with
        | (s3, flags2, Throw e) =>
            Some (s3, Some flags2, Wide.XRaised (Wide.ThrownError e))
        | (s3, flags2, Normal) => wloop flush_rec k (Some flags2) s3
        end
    | Some (s2, x) => Some (s2, Some (loop_flags (_outgoing s) ev), x)
    end.
Proof.
  intros Hev Hfl. rewrite wide_loop_unfold. unfold _ioevents.
  rewrite (getsockopt_eq _ _ h0 (Ok ev)) by exact Hev.
  cbn zeta. change (_outgoing (advance h0 _ s)) with (_outgoing s).
  rewrite Hfl. reflexivity.
Qed.

(** A pass in which the receive is cut short ends the loop there. *)
Lemma pass_breaks flush_rec k fl (s : Sock) h0 ev items tail e h2 :
  zmq_getsockopt ZMQ_EVENTS (_zmq s) = (h0, Ok ev) ->
  truthy (js_and (loop_flags (_outgoing s) ev) ZMQ_POLLIN) = true ->
  handle_breaks h0 items tail e h2 ->
  (List.length items < k)%nat ->
  wloop flush_rec (S k) fl s
  = Some (advance h2 (EvGetsockopt ZMQ_EVENTS (Ok ev) :: receive_trace items ++ tail) s,
          Some (loop_flags (_outgoing s) ev), Wide.XRaised (Wide.ThrownError e)).
Proof.
  intros Hev Hin Hb Hk.
  rewrite (pass_reads _ _ _ _ _ _ Hev (truthy_js_and_l _ _ Hin)), Hin.
  unfold Wide.receive_block.
  rewrite (recv_parts_breaks _ _ _ _ _ Hb) by reflexivity.
  apply Nat.ltb_lt in Hk. rewrite Hk, advance_advance. reflexivity.
Qed.

(** A pass whose burst is cut short ends the loop there. *)
Lemma pass_refuses flush_rec k fl (s : Sock) h0 ev s2 done tail fl' e h' rest :
  zmq_getsockopt ZMQ_EVENTS (_zmq s) = (h0, Ok ev) ->
  (if truthy (js_and (loop_flags (_outgoing s) ev) ZMQ_POLLIN)
   then Wide.receive_block utf8 flush_rec k (advance h0 [EvGetsockopt ZMQ_EVENTS (Ok ev)] s)
   else Some (advance h0 [EvGetsockopt ZMQ_EVENTS (Ok ev)] s, Wide.XProceed))
  = Some (s2, Wide.XProceed) ->
  handle_refuses (_zmq s2) (loop_flags (_outgoing s) ev) (_outgoing s2)
                 done tail fl' e h' rest ->
  wloop flush_rec (S k) fl s
  = Some (advance h' (burst_trace done ++ tail) (set_outgoing rest s2),
          Some fl', Wide.XRaised (Wide.ThrownError e)).
Proof.
  intros Hev Hblock Hr.
  destruct (handle_refuses_queue _ _ _ _ _ _ _ _ _ Hr) as (_ & _ & Hout).
  rewrite (pass_reads _ _ _ _ _ _ Hev (truthy_js_and_l _ _ Hout)), Hblock.
  rewrite (send_burst_refuses _ _ _ _ _ _ _ _ _ Hr) by reflexivity.
  reflexivity.
Qed.

(** A complete message: what the receive block comes to. *)
Lemma block_yields flush_rec k (s : Sock) items h2 :
  wide_guarded flush_rec ->
  _inFlush s = true ->
  handle_yields (_zmq s) items h2 ->
  (List.length items <= k)%nat ->
  recv_parts k [] s = Some (advance h2 (receive_trace items) s, Ok (map fst items)) /\
  Wide.emit_message utf8 flush_rec (map fst items) (advance h2 (receive_trace items) s)
  = Some (deliver_message (map fst items) (advance h2 (receive_trace items) s)) /\
  Wide.receive_block utf8 flush_rec k s
  = Some (after_message
            (deliver_message (map fst items) (advance h2 (receive_trace items) s))).
Proof.
  intros Hnoop Hg Hy Hk.
  assert (Hrecv : recv_parts k [] s
                  = Some (advance h2 (receive_trace items) s, Ok (map fst items))).
  { rewrite (recv_parts_yields _ _ _ Hy) by reflexivity.
    apply Nat.leb_le in Hk. rewrite Hk. reflexivity. }
  split; [exact Hrecv|]. split.
  - apply (wide_emit_message_guarded _ Hnoop). exact Hg.
  - rewrite (wide_receive_block_eq _ Hnoop) by exact Hg. rewrite Hrecv. reflexivity.
Qed.

Lemma messages_receive_trace items : messages (receive_trace items) = [].
Proof. induction items as [|it items IH]; [reflexivity|]. cbn. exact IH. Qed.

Lemma handle_breaks_tail h items tail e h2 :
  handle_breaks h items tail e h2 ->
  messages tail = [] /\ popped tail = [] /\ enqueued tail = [] /\ no_guard tail.
Proof. induction 1; [repeat split; reflexivity..|assumption]. Qed.

(** *** Receiving a multi-part message *)

(** C2: the receive of the dispatch loop, whatever the listeners do.
    (1) Every receive loop that returns has called [recv] once per part,
    reading [ZMQ_RCVMORE] after each, and has gone on exactly while that
    read was true: either the handle yielded a complete message and the
    result is its parts in order, or a call raised and the result is that
    exception.  (2) On a handle that yields the parts [items], with fuel
    for them, the block receives them all, then emits ['message'] with
    exactly these parts, once, and not before the last part: the trace of
    the block is the receive calls, the event, and what the listener's own
    calls add, which holds no further event.  (3) On a handle that breaks
    the message off the block ends with the exception and no ['message']
    event, whatever had been collected.  (4) A pass of the loop that reads
    a readiness with the readable bit set runs this block before anything
    else. *)
Theorem C2_receive :
  (forall fuel (s s' : Sock) r,
      recv_parts fuel [] s = Some (s', r) ->
      match r with
      | Ok parts =>
          exists items h2,
            handle_yields (_zmq s) items h2 /\
            parts = map fst items /\
            s' = advance h2 (receive_trace items) s
      | Raise e =>
          exists items tail h2,
            handle_breaks (_zmq s) items tail e h2 /\
            s' = advance h2 (receive_trace items ++ tail) s
      end) /\
  (forall flush_rec k (s : Sock) items h2,
      wide_guarded flush_rec ->
      _inFlush s = true ->
      handle_yields (_zmq s) items h2 ->
      (List.length items <= k)%nat ->
      let parts := map fst items in
      let s1 := advance h2 (receive_trace items) s in
      recv_parts k [] s = Some (s1, Ok parts) /\
      exists s2 o evs,
        Wide.emit_message utf8 flush_rec parts s1 = Some (s2, o) /\
        Wide.receive_block utf8 flush_rec k s = Some (after_message (s2, o)) /\
        listeners s2 = fst (Wide.message_listener (listeners s) parts) /\
        trace s2 = trace s ++ receive_trace items ++ EvEmitMessage parts :: evs /\
        all_quiet evs /\
        messages (receive_trace items) = [] /\
        messages (receive_trace items ++ EvEmitMessage parts :: evs) = [parts]) /\
  (forall flush_rec k (s : Sock) items tail e h2,
      handle_breaks (_zmq s) items tail e h2 ->
      (List.length items < k)%nat ->
      let s1 := advance h2 (receive_trace items ++ tail) s in
      recv_parts k [] s = Some (s1, Raise e) /\
      Wide.receive_block utf8 flush_rec k s
      = Some (s1, Wide.XRaised (Wide.ThrownError e)) /\
      messages (receive_trace items ++ tail) = []) /\
  (forall flush_rec k fl (s : Sock) h0 ev,
      zmq_getsockopt ZMQ_EVENTS (_zmq s) = (h0, Ok ev) ->
      truthy (js_and (loop_flags (_outgoing s) ev) ZMQ_POLLIN) = true ->
      wloop flush_rec (S k) fl s
      = match Wide.receive_block utf8 flush_rec k
                (advance h0 [EvGetsockopt ZMQ_EVENTS (Ok ev)] s) with
        | None => None
        | Some (s2, Wide.XProceed) =>
            match send_burst (_outgoing s2) (loop_flags (_outgoing s) ev) s2 with
            | (s3, flags2, Throw e) =>
                Some (s3, Some flags2, Wide.XRaised (Wide.ThrownError e))
            | (s3, flags2, Normal) => wloop flush_rec k (Some flags2) s3
            end
        | Some (s2, x) => Some (s2, Some (loop_flags (_outgoing s) ev), x)
        end).
Proof.
  split; [|split; [|split]].
  - intros fuel s s' r Hrecv. apply recv_parts_classified in Hrecv. exact Hrecv.
  - intros flush_rec k s items h2 Hnoop Hg Hy Hk parts s1.
    destruct (block_yields flush_rec k s items h2 Hnoop Hg Hy Hk) as (Hrecv & Hemit & Hblock).
    split; [exact Hrecv|].
    fold parts s1 in Hemit, Hblock.
    destruct (deliver_message parts s1) as [s2 o] eqn:Hd.
    pose proof (deliver_message_listeners _ _ _ _ Hd) as Hl.
    apply deliver_message_held in Hd as (evs & Hh & Hq).
    exists s2, o, evs.
    destruct (all_quiet_facts evs Hq) as (_ & _ & _ & _ & Hm & _).
    split; [exact Hemit|]. split; [exact Hblock|]. split; [exact Hl|].
    split; [rewrite (held_trace _ _ _ Hh); cbn; now rewrite <- app_assoc|].
    split; [exact Hq|]. split; [apply messages_receive_trace|].
    change (EvEmitMessage parts :: evs) with ([EvEmitMessage parts] ++ evs).
    rewrite !messages_app, messages_receive_trace, Hm. reflexivity.
  - intros flush_rec k s items tail e h2 Hb Hk s1.
    assert (Hrecv : recv_parts k [] s = Some (s1, Raise e)).
    { rewrite (recv_parts_breaks _ _ _ _ _ Hb) by reflexivity.
      apply Nat.ltb_lt in Hk. rewrite Hk. reflexivity. }
    split; [exact Hrecv|]. split.
    + unfold Wide.receive_block. rewrite Hrecv. reflexivity.
    + destruct (handle_breaks_tail _ _ _ _ _ Hb) as (Hm & _).
      rewrite messages_app, messages_receive_trace, Hm. reflexivity.
  - intros flush_rec k fl s h0 ev Hev Hin.
    rewrite (pass_reads _ _ _ _ _ _ Hev (truthy_js_and_l _ _ Hin)), Hin. reflexivity.
Qed.

(** *** Errors *)

Lemma marked_unique (P : Event -> bool) l1 : forall x l2 pre y post,
  forallb (fun ev => negb (P ev)) l1 = true ->
  forallb (fun ev => negb (P ev)) l2 = true ->
  P y = true ->
  l1 ++ x :: l2 = pre ++ y :: post ->
  pre = l1 /\ y = x /\ post = l2.
Proof.
  induction l1 as [|a l1 IH]; intros x l2 pre y post H1 H2 Hy Heq.
  - destruct pre as [|p pre]; cbn [app] in Heq.
    + injection Heq as <- <-. auto.
    + injection Heq as <- ->. rewrite forallb_app in H2. cbn [forallb] in H2.
      rewrite Hy in H2. cbn in H2. rewrite andb_false_r in H2. discriminate.
  - cbn [forallb] in H1. apply andb_true_iff in H1 as [Ha H1].
    destruct pre as [|p pre]; cbn [app] in Heq.
    + injection Heq as -> _. rewrite Hy in Ha. discriminate.
    + injection Heq as <- Heq. destruct (IH _ _ _ _ _ H1 H2 Hy Heq) as (-> & -> & ->).
      auto.
Qed.

Lemma marked_none (P : Event -> bool) l pre y post :
  forallb (fun ev => negb (P ev)) l = true ->
  P y = true ->
  l = pre ++ y :: post -> False.
Proof.
  intros Hl Hy ->. rewrite forallb_app in Hl. cbn [forallb] in Hl.
  rewrite Hy in Hl. cbn in Hl. rewrite andb_false_r in Hl. discriminate.
Qed.

Lemma calm_no_raises evs :
  calm evs -> forallb (fun ev => negb (raises ev)) evs = true.
Proof.
  unfold calm. induction evs as [|ev evs IH]; cbn [forallb]; [reflexivity|].
  intros Hc. apply andb_true_iff in Hc as [Hev Hc]. rewrite (IH Hc), andb_true_r.
  unfold raises. destruct ev as [| | |[]|? ? []| | | | | | | | | |]; cbn in *; congruence.
Qed.

Lemma quiet_no_raises evs :
  all_quiet evs -> forallb (fun ev => negb (raises ev)) evs = true.
Proof. intros Hq. apply calm_no_raises, (all_quiet_facts _ Hq). Qed.

Lemma trace_guard_set (s : Sock) :
  trace (record EvGuardSet (set_inFlush true s)) = trace s ++ [EvGuardSet].
Proof. reflexivity. Qed.

(** The ['error'] event of the [catch]: it is always delivered, and what
    follows it. *)
Lemma emit_error_facts flush_rec e (s1 : Sock) :
  wide_guarded flush_rec ->
  _inFlush s1 = true ->
  exists s2 o evs,
    Wide.emit_error utf8 flush_rec e s1 = Some (s2, o) /\
    deliver_error e s1 = (s2, o) /\
    (Wide.error_listener (listeners s1) e = None ->
     o = Wide.Throws (Wide.ThrownError e)) /\
    trace (clear_guard s2) = trace s1 ++ EvEmitError e :: evs ++ [EvGuardClear] /\
    all_quiet evs.
Proof.
  intros Hnoop Hg1.
  rewrite (wide_emit_error_guarded _ Hnoop) by exact Hg1.
  destruct (deliver_error e s1) as [s2 o] eqn:Hd.
  pose proof Hd as Hheld. apply deliver_error_held in Hheld as (evs & Hh & Hq).
  exists s2, o, evs. split; [reflexivity|]. split; [reflexivity|]. split.
  { unfold deliver_error in Hd. intros Hnone. rewrite Hnone in Hd.
    injection Hd as _ <-. reflexivity. }
  split; [|exact Hq].
  cbn [clear_guard trace record set_inFlush].
  rewrite (held_trace _ _ _ Hh). cbn. now rewrite <- app_assoc.
Qed.

(** C5: exceptions of [recv] and [send], whatever the listeners do.
    (1) When, in any pass of an activation, the handle breaks off a
    message after any number of parts, the activation catches the
    exception, attaches the readiness of that pass (masked as the pass
    masked it) and the rendering of the queue, emits ['error'] with it and
    returns with the guard cleared.  (2) The same when the handle refuses
    an entry of the send burst, after any number of entries sent, in a pass
    whose receive (if there was one) has completed: the flags attached are
    the reading under which the entry was popped, the queue rendered is
    what was left once it was popped.  (3) Whatever [Error] reaches the
    [catch], the guard is cleared after the ['error'] event, also when the
    emission throws (without a listener it throws the error itself), and
    what the emission throws is what [_flush] throws.  (4) In every
    activation that returns, every [recv] and every [send] that raised is
    followed at once by the ['error'] event carrying its exception with
    the rendering of the queue as it then was, after which come only the
    listener's own calls and the clearing of the guard. *)
Theorem C5_error_reported :
  (forall n (s : Sock) k flk sk h0 ev items tail e h2,
      _inFlush s = false ->
      passes (wflush n) n None (record EvGuardSet (set_inFlush true s)) (S k) flk sk ->
      zmq_getsockopt ZMQ_EVENTS (_zmq sk) = (h0, Ok ev) ->
      truthy (js_and (loop_flags (_outgoing sk) ev) ZMQ_POLLIN) = true ->
      handle_breaks h0 items tail e h2 ->
      (List.length items < k)%nat ->
      let s1 := advance h2 (EvGetsockopt ZMQ_EVENTS (Ok ev) :: receive_trace items ++ tail) sk in
      let e' := attach inspect (Some (loop_flags (_outgoing sk) ev)) (_outgoing sk) e in
      wloop (wflush n) n None (record EvGuardSet (set_inFlush true s))
      = Some (s1, Some (loop_flags (_outgoing sk) ev), Wide.XRaised (Wide.ThrownError e)) /\
      exists s2 o evs,
        Wide.emit_error utf8 (wflush n) e' s1 = Some (s2, o) /\
        wflush (S n) s = Some (clear_guard s2, o) /\
        _inFlush (clear_guard s2) = false /\
        trace (clear_guard s2) = trace s1 ++ EvEmitError e' :: evs ++ [EvGuardClear] /\
        all_quiet evs) /\
  (forall n (s : Sock) k flk sk h0 ev s2 done tail fl e h' rest,
      _inFlush s = false ->
      passes (wflush n) n None (record EvGuardSet (set_inFlush true s)) (S k) flk sk ->
      zmq_getsockopt ZMQ_EVENTS (_zmq sk) = (h0, Ok ev) ->
      (if truthy (js_and (loop_flags (_outgoing sk) ev) ZMQ_POLLIN)
       then Wide.receive_block utf8 (wflush n) k
                               (advance h0 [EvGetsockopt ZMQ_EVENTS (Ok ev)] sk)
       else Some (advance h0 [EvGetsockopt ZMQ_EVENTS (Ok ev)] sk, Wide.XProceed))
      = Some (s2, Wide.XProceed) ->
      handle_refuses (_zmq s2) (loop_flags (_outgoing sk) ev) (_outgoing s2)
                     done tail fl e h' rest ->
      let s3 := advance h' (burst_trace done ++ tail) (set_outgoing rest s2) in
      let e' := attach inspect (Some fl) rest e in
      popped (burst_trace done ++ tail) ++ rest = _outgoing s2 /\
      wloop (wflush n) n None (record EvGuardSet (set_inFlush true s))
      = Some (s3, Some fl, Wide.XRaised (Wide.ThrownError e)) /\
      exists s4 o evs,
        Wide.emit_error utf8 (wflush n) e' s3 = Some (s4, o) /\
        wflush (S n) s = Some (clear_guard s4, o) /\
        _inFlush (clear_guard s4) = false /\
        trace (clear_guard s4) = trace s3 ++ EvEmitError e' :: evs ++ [EvGuardClear] /\
        all_quiet evs) /\
  (forall n (s s1 : Sock) fl e,
      _inFlush s = false ->
      wloop (wflush n) n None (record EvGuardSet (set_inFlush true s))
      = Some (s1, fl, Wide.XRaised (Wide.ThrownError e)) ->
      let e' := attach inspect fl (_outgoing s1) e in
      err_flags e' = fl /\
      err_outgoing e' = Some (inspect (_outgoing s1)) /\
      err_kind e' = err_kind e /\
      err_message e' = err_message e /\
      exists s2 o evs,
        Wide.emit_error utf8 (wflush n) e' s1 = Some (s2, o) /\
        wflush (S n) s = Some (clear_guard s2, o) /\
        (Wide.error_listener (listeners s1) e' = None ->
         o = Wide.Throws (Wide.ThrownError e')) /\
        _inFlush (clear_guard s2) = false /\
        trace (clear_guard s2) = trace s1 ++ EvEmitError e' :: evs ++ [EvGuardClear] /\
        all_quiet evs) /\
  (forall fuel (s s' : Sock) o pre ev post e,
      _inFlush s = false ->
      wflush fuel s = Some (s', o) ->
      trace s' = trace s ++ pre ++ ev :: post ->
      raising ev = Some e ->
      exists fl q evs,
        post = EvEmitError (attach inspect fl q e) :: evs ++ [EvGuardClear] /\
        all_quiet evs /\
        _outgoing s ++ enqueued pre = popped (pre ++ [ev]) ++ q /\
        _inFlush s' = false).
Proof.
  assert (Hcatch : forall n (s s1 : Sock) fl e,
      _inFlush s = false ->
      wloop (wflush n) n None (record EvGuardSet (set_inFlush true s))
      = Some (s1, fl, Wide.XRaised (Wide.ThrownError e)) ->
      let e' := attach inspect fl (_outgoing s1) e in
      err_flags e' = fl /\
      err_outgoing e' = Some (inspect (_outgoing s1)) /\
      err_kind e' = err_kind e /\
      err_message e' = err_message e /\
      exists s2 o evs,
        Wide.emit_error utf8 (wflush n) e' s1 = Some (s2, o) /\
        wflush (S n) s = Some (clear_guard s2, o) /\
        (Wide.error_listener (listeners s1) e' = None ->
         o = Wide.Throws (Wide.ThrownError e')) /\
        _inFlush (clear_guard s2) = false /\
        trace (clear_guard s2) = trace s1 ++ EvEmitError e' :: evs ++ [EvGuardClear] /\
        all_quiet evs).
  { intros n s s1 fl e Hg Hloop e'.
    destruct (wide_flush_catch _ _ _ _ _ Hg Hloop) as (Hg1 & Heq).
    destruct (emit_error_facts (wflush n) e' s1 (wide_flush_guarded n) Hg1)
      as (s2 & o & evs & Hemit & Hd & Hnone & Htrace & Hq).
    do 4 (split; [reflexivity|]).
    exists s2, o, evs. split; [exact Hemit|].
    split; [rewrite Heq; cbn [Wide.attach_to]; fold e'; rewrite Hd; reflexivity|].
    split; [exact Hnone|]. split; [reflexivity|]. split; [exact Htrace | exact Hq]. }
  split; [|split; [|split]].
  - intros n s k flk sk h0 ev items tail e h2 Hg Hpasses Hev Hin Hb Hk s1 e'.
    assert (Hloop : wloop (wflush n) n None (record EvGuardSet (set_inFlush true s))
                    = Some (s1, Some (loop_flags (_outgoing sk) ev),
                            Wide.XRaised (Wide.ThrownError e))).
    { rewrite (passes_loop _ _ _ _ _ _ _ Hpasses).
      apply (pass_breaks _ _ _ _ _ _ _ _ _ _ Hev Hin Hb Hk). }
    destruct (Hcatch _ _ _ _ _ Hg Hloop)
      as (_ & _ & _ & _ & s2 & o & evs & Hemit & Heq & _ & Hclear & Htrace & Hq).
    split; [exact Hloop|]. exists s2, o, evs.
    split; [exact Hemit|]. split; [exact Heq|]. split; [exact Hclear|].
    split; [exact Htrace | exact Hq].
  - intros n s k flk sk h0 ev s2 done tail fl e h' rest Hg Hpasses Hev Hblock Hr s3 e'.
    assert (Hloop : wloop (wflush n) n None (record EvGuardSet (set_inFlush true s))
                    = Some (s3, Some fl, Wide.XRaised (Wide.ThrownError e))).
    { rewrite (passes_loop _ _ _ _ _ _ _ Hpasses).
      apply (pass_refuses _ _ _ _ _ _ _ _ _ _ _ _ _ Hev Hblock Hr). }
    destruct (Hcatch _ _ _ _ _ Hg Hloop)
      as (_ & _ & _ & _ & s4 & o & evs & Hemit & Heq & _ & Hclear & Htrace & Hq).
    split; [apply (handle_refuses_queue _ _ _ _ _ _ _ _ _ Hr)|].
    split; [exact Hloop|]. exists s4, o, evs.
    split; [exact Hemit|]. split; [exact Heq|]. split; [exact Hclear|].
    split; [exact Htrace | exact Hq].
  - exact Hcatch.
  - intros fuel s s' o pre ev post e Hg Hf Htrace Hraise.
    assert (Hmark : raises ev = true) by (unfold raises; now rewrite Hraise).
    destruct (wide_flush_shape _ _ _ _ Hg Hf)
      as (sp & pre0 & _ & Hpre & Hcalm & _ & Hcases).
    pose proof (calm_no_raises _ Hcalm) as Hpre0.
    destruct Hcases as [(-> & _) | [(e0 & evf & s1 & fl & s2 & evs & _ & Hhf & Hev & _ & Hhd & Hq & ->)
                                   | (evf & _ & Hhf & Hev & _)]].
    + exfalso.
      cbn [trace clear_guard record set_inFlush] in Htrace.
      rewrite (held_trace _ _ _ Hpre), trace_guard_set, <- !app_assoc in Htrace.
      apply app_inv_head in Htrace. cbn [app] in Htrace.
      eapply (marked_none raises); [|exact Hmark|exact Htrace].
      cbn [forallb raises raising negb andb]. rewrite forallb_app, Hpre0. reflexivity.
    + cbn [trace clear_guard record set_inFlush] in Htrace.
      rewrite (held_trace _ _ _ Hhd), (held_trace _ _ _ Hhf), (held_trace _ _ _ Hpre),
        trace_guard_set, <- !app_assoc in Htrace.
      apply app_inv_head in Htrace. cbn [app] in Htrace.
      pose proof (quiet_no_raises _ Hq) as Hevs.
      pose proof (held_queue _ _ _ (held_trans _ _ _ _ _ Hpre Hhf)) as Hbooks.
      cbn [_outgoing record set_inFlush] in Hbooks.
      assert (Hone : forall x, evf = [x] -> raising x = Some e0 -> enqueued [x] = [] ->
                exists fl q evs,
                  post = EvEmitError (attach inspect fl q e) :: evs ++ [EvGuardClear] /\
                  all_quiet evs /\
                  _outgoing s ++ enqueued pre = popped (pre ++ [ev]) ++ q /\
                  _inFlush (clear_guard s2) = false).
      { intros x -> Hx Hnone. cbn [app] in Htrace.
        destruct (marked_unique raises (EvGuardSet :: pre0) x
                    (EvEmitError (attach inspect fl (_outgoing s1) e0)
                                 :: evs ++ [EvGuardClear]) pre ev post) as (-> & -> & ->).
        - cbn [forallb raises raising negb andb]. exact Hpre0.
        - cbn [forallb raises raising negb andb]. rewrite forallb_app, Hevs. reflexivity.
        - exact Hmark.
        - exact Htrace.
        - assert (e0 = e) by congruence. subst e0.
          exists fl, (_outgoing s1), evs. split; [reflexivity|]. split; [exact Hq|].
          split; [|reflexivity].
          rewrite enqueued_app, Hnone, app_nil_r in Hbooks. exact Hbooks. }
      inversion Hev as [opt e1 | e1 | b f e1 | v parts qs Hqs]; subst.
      * exfalso. eapply (marked_none raises); [|exact Hmark|exact Htrace].
        cbn [forallb raises raising negb andb app].
        rewrite forallb_app, Hpre0. cbn [forallb raises raising negb andb].
        rewrite forallb_app, Hevs. reflexivity.
      * apply (Hone _ eq_refl); reflexivity.
      * apply (Hone _ eq_refl); reflexivity.
      * exfalso. eapply (marked_none raises); [|exact Hmark|exact Htrace].
        cbn [forallb raises raising negb andb app].
        rewrite forallb_app, Hpre0. cbn [forallb raises raising negb andb].
        rewrite forallb_app, (quiet_no_raises _ Hqs).
        cbn [forallb raises raising negb andb].
        rewrite forallb_app, Hevs. reflexivity.
    + exfalso.
      rewrite (held_trace _ _ _ Hhf), (held_trace _ _ _ Hpre),
        trace_guard_set, <- !app_assoc in Htrace.
      apply app_inv_head in Htrace. cbn [app] in Htrace.
      inversion Hev as [| | | v parts qs Hqs]; subst.
      eapply (marked_none raises); [|exact Hmark|exact Htrace].
      cbn [forallb raises raising negb andb app].
      rewrite forallb_app, Hpre0. cbn [forallb raises raising negb andb].
      rewrite (quiet_no_raises _ Hqs). reflexivity.
Qed.

Lemma calm_no_error evs : calm evs -> no_error_event evs.
Proof.
  unfold calm, no_error_event. induction evs as [|ev evs IH]; cbn [forallb]; [reflexivity|].
  intros Hc. apply andb_true_iff in Hc as [Hev Hc]. rewrite (IH Hc), andb_true_r.
  destruct ev; cbn in *; congruence.
Qed.

Lemma no_error_app evs1 evs2 :
  no_error_event evs1 -> no_error_event evs2 -> no_error_event (evs1 ++ evs2).
Proof. unfold no_error_event. intros H1 H2. now rewrite forallb_app, H1, H2. Qed.

(** *** The queue and the watcher *)

(** The books of every activation that returns. *)
Lemma wide_flush_books fuel (s s' : Sock) o :
  _inFlush s = false ->
  wflush fuel s = Some (s', o) ->
  exists mid lost,
    trace s' = trace s ++ EvGuardSet :: mid
                       ++ (if _inFlush s' then [] else [EvGuardClear]) /\
    no_guard mid /\
    _outgoing s ++ enqueued mid = popped mid ++ _outgoing s' /\
    popped mid = transmitted mid ++ lost /\
    (lost = [] \/ exists b f e, lost = [(b, f)] /\ In (EvSend b f (Raise e)) mid) /\
    (watcher_untouched mid -> _watcher s' = _watcher s) /\
    (watcher_left_alone -> _watcher s' = _watcher s).
Proof.
  intros Hg Hf.
  destruct (wide_flush_shape _ _ _ _ Hg Hf)
    as (sp & pre & Hsteps & Hpre & Hcalm & Hpt & Hcases).
  destruct Hcases as [(-> & _) | [(e & evf & s1 & fl & s2 & evs & Hfail & Hhf & Hev & Hd & Hhd & Hq & ->)
                                 | (evf & Hfail & Hhf & Hev & _)]].
  - exists pre, []. destruct Hpre as [Ht Hgd Hn Hk Hw].
    cbn [trace _inFlush _outgoing _watcher clear_guard record set_inFlush] in *.
    split; [rewrite Ht, <- !app_assoc; reflexivity|].
    split; [exact Hn|]. split; [exact Hk|].
    split; [now rewrite app_nil_r|]. split; [left; reflexivity|].
    split; [exact Hw|].
    intros Halone. apply (wide_oksteps_watcher Halone) in Hsteps. exact Hsteps.
  - destruct (failure_events_facts _ _ Hev) as (Htf & _ & Hlost).
    destruct (all_quiet_facts _ Hq) as (_ & _ & Hpq & Htq & _).
    pose proof (held_trans _ _ _ _ _ Hpre (held_trans _ _ _ _ _ Hhf Hhd)) as Hall.
    exists (pre ++ evf ++ EvEmitError (attach inspect fl (_outgoing s1) e) :: evs), (popped evf).
    destruct Hall as [Ht Hgd Hn Hk Hw].
    cbn [trace _inFlush _outgoing _watcher clear_guard record set_inFlush] in *.
    split; [rewrite Ht, <- !app_assoc; reflexivity|].
    split; [exact Hn|]. split; [exact Hk|].
    split.
    { change (EvEmitError ?x :: evs) with ([EvEmitError x] ++ evs).
      rewrite !popped_app, !transmitted_app, Hpt, Htf, Hpq, Htq. cbn.
      now rewrite !app_nil_r. }
    split.
    { destruct Hlost as [Hnil | (b & f & e0 & _ & ->)]; [left; exact Hnil | right].
      exists b, f, e0. split; [reflexivity|].
      apply in_or_app. right. left. reflexivity. }
    split; [exact Hw|].
    intros Halone.
    rewrite (deliver_error_watcher Halone _ _ _ _ Hd),
      (wide_failstep_watcher Halone _ _ _ Hfail).
    apply (wide_oksteps_watcher Halone) in Hsteps. exact Hsteps.
  - destruct (failure_events_facts _ _ Hev) as (Htf & _ & Hlost).
    pose proof (held_trans _ _ _ _ _ Hpre Hhf) as Hall.
    exists (pre ++ evf), [].
    destruct Hall as [Ht Hgd Hn Hk Hw].
    cbn [trace _inFlush _outgoing _watcher record set_inFlush] in *.
    rewrite Hgd.
    split; [rewrite Ht, <- !app_assoc, app_nil_r; reflexivity|].
    split; [exact Hn|]. split; [exact Hk|].
    split.
    { destruct Hlost as [Hnil | (b & f & e0 & Hv & _)]; [|discriminate Hv].
      rewrite popped_app, transmitted_app, Hpt, Htf, Hnil. now rewrite !app_nil_r. }
    split; [left; reflexivity|].
    split; [exact Hw|].
    intros Halone. rewrite (wide_failstep_watcher Halone _ _ _ Hfail).
    apply (wide_oksteps_watcher Halone) in Hsteps. exact Hsteps.
Qed.

(** A pass that receives a complete message. *)
Lemma pass_yields flush_rec k fl (s : Sock) h0 ev items h2 :
  wide_guarded flush_rec ->
  _inFlush s = true ->
  zmq_getsockopt ZMQ_EVENTS (_zmq s) = (h0, Ok ev) ->
  truthy (js_and (loop_flags (_outgoing s) ev) ZMQ_POLLIN) = true ->
  handle_yields h0 items h2 ->
  (List.length items <= k)%nat ->
  wloop flush_rec (S k) fl s
  = match after_message
            (deliver_message (map fst items)
               (advance h2 (EvGetsockopt ZMQ_EVENTS (Ok ev) :: receive_trace items) s)) with
    | (s2, Wide.XProceed) =>
        match send_burst (_outgoing s2) (loop_flags (_outgoing s) ev) s2 with
        | (s3, flags2, Throw e) =>
            Some (s3, Some flags2, Wide.XRaised (Wide.ThrownError e))
        | (s3, flags2, Normal) => wloop flush_rec k (Some flags2) s3
        end
    | (s2, x) => Some (s2, Some (loop_flags (_outgoing s) ev), x)
    end.
Proof.
  intros Hnoop Hg Hev Hin Hy Hk.
  rewrite (pass_reads _ _ _ _ _ _ Hev (truthy_js_and_l _ _ Hin)), Hin.
  destruct (block_yields flush_rec k (advance h0 [EvGetsockopt ZMQ_EVENTS (Ok ev)] s)
              items h2 Hnoop Hg Hy Hk) as (_ & _ & ->).
  rewrite advance_advance. cbn [app].
  destruct (after_message _) as [s2 x]. reflexivity.
Qed.

Lemma passes_guard n (s : Sock) k flk sk :
  passes (wflush n) n None (record EvGuardSet (set_inFlush true s)) k flk sk ->
  _inFlush sk = true.
Proof.
  intros Hp. apply (passes_steps _ _ _ _ _ _ _ (wide_flush_guarded n)) in Hp; [|reflexivity].
  rewrite (wide_oksteps_guard _ _ Hp). reflexivity.
Qed.

(** C7 (amended): the queue and the watcher over an activation, whatever
    the listeners do.  (1) In every activation that returns, the queue
    holds at the end exactly what was queued and not popped for a [send]
    on the handle, in order; every popped entry was transmitted except,
    when a [send] raised, the entry of that [send], which had been popped
    before the call and is not put back; and the engine does not touch the
    watcher: it is as it was unless a listener had it stopped or started
    ([close], [bind], [bindSync]) during the activation.  (2) Unless the
    handle is no longer ready after a ['message'] event, as it is when the
    listener has closed the socket: then the activation returns there,
    before any [send] of that pass, with the guard cleared and the queue as
    the listener left it. *)
Theorem C7_queue_and_watcher :
  (forall fuel (s s' : Sock) o,
      _inFlush s = false ->
      wflush fuel s = Some (s', o) ->
      exists mid lost,
        trace s' = trace s ++ EvGuardSet :: mid
                           ++ (if _inFlush s' then [] else [EvGuardClear]) /\
        _outgoing s ++ enqueued mid = popped mid ++ _outgoing s' /\
        popped mid = transmitted mid ++ lost /\
        (lost = [] \/ exists b f e, lost = [(b, f)] /\ In (EvSend b f (Raise e)) mid) /\
        (watcher_untouched mid -> _watcher s' = _watcher s) /\
        (watcher_left_alone -> _watcher s' = _watcher s)) /\
  (forall n (s : Sock) k flk sk h0 ev items h2 s3,
      _inFlush s = false ->
      passes (wflush n) n None (record EvGuardSet (set_inFlush true s)) (S k) flk sk ->
      zmq_getsockopt ZMQ_EVENTS (_zmq sk) = (h0, Ok ev) ->
      truthy (js_and (loop_flags (_outgoing sk) ev) ZMQ_POLLIN) = true ->
      handle_yields h0 items h2 ->
      (List.length items <= k)%nat ->
      Wide.emit_message utf8 (wflush n) (map fst items)
        (advance h2 (EvGetsockopt ZMQ_EVENTS (Ok ev) :: receive_trace items) sk)
      = Some (s3, Wide.Returns) ->
      zmq_state (_zmq s3) <> STATE_READY ->
      wflush (S n) s = Some (clear_guard s3, Wide.Returns) /\
      _inFlush (clear_guard s3) = false /\
      exists evs,
        trace (clear_guard s3)
        = trace sk ++ EvGetsockopt ZMQ_EVENTS (Ok ev) :: receive_trace items
                   ++ EvEmitMessage (map fst items) :: evs ++ [EvGuardClear] /\
        all_quiet evs /\
        _outgoing (clear_guard s3) = _outgoing sk ++ enqueued evs).
Proof.
  split.
  - intros fuel s s' o Hg Hf.
    destruct (wide_flush_books _ _ _ _ Hg Hf)
      as (mid & lost & Ht & _ & Hk & Hp & Hl & Hw & Ha).
    exists mid, lost. auto 7.
  - intros n s k flk sk h0 ev items h2 s3 Hg Hpasses Hev Hin Hy Hk Hd Hstate.
    pose proof (passes_guard _ _ _ _ _ Hpasses) as Hgk.
    rewrite (wide_emit_message_guarded _ (wide_flush_guarded n)) in Hd by exact Hgk.
    injection Hd as Hd.
    assert (Hloop : wloop (wflush n) n None (record EvGuardSet (set_inFlush true s))
                    = Some (clear_guard s3, Some (loop_flags (_outgoing sk) ev), Wide.XReturn)).
    { rewrite (passes_loop _ _ _ _ _ _ _ Hpasses).
      rewrite (pass_yields _ _ _ _ _ _ _ _ (wide_flush_guarded n) Hgk Hev Hin Hy Hk).
      rewrite Hd. unfold after_message.
      apply Z.eqb_neq in Hstate. rewrite Hstate. reflexivity. }
    split; [rewrite wide_flush_unfold, Hloop by exact Hg; reflexivity|].
    split; [reflexivity|].
    apply deliver_message_held in Hd as (evs & Hh & Hq).
    destruct (all_quiet_facts _ Hq) as (_ & _ & Hpq & _).
    exists evs. destruct Hh as [Ht _ _ Hbooks _].
    cbn [trace _outgoing clear_guard record set_inFlush advance] in *.
    split; [rewrite Ht, <- !app_assoc; reflexivity|].
    split; [exact Hq|].
    change (EvEmitMessage (map fst items) :: evs)
      with ([EvEmitMessage (map fst items)] ++ evs) in Hbooks.
    rewrite popped_app, enqueued_app, Hpq in Hbooks. cbn in Hbooks.
    symmetry. exact Hbooks.
Qed.

(** *** The re-entrancy guard *)

Lemma running_no_guard mid :
  no_guard mid -> forall k, running (firstn k mid) = 0.
Proof.
  unfold no_guard. induction mid as [|ev mid IH]; intros Hn k.
  - destruct k; reflexivity.
  - cbn [forallb] in Hn. apply andb_true_iff in Hn as [Hev Hn].
    destruct k as [|k]; [reflexivity|].
    cbn [firstn]. specialize (IH Hn k).
    destruct ev; cbn in Hev; try discriminate; cbn [running]; exact IH.
Qed.

Lemma failure_nullish evf :
  failure_events Wide.ThrownNullish evf ->
  exists parts evs, evf = EvEmitMessage parts :: evs /\ all_quiet evs.
Proof. inversion 1; subst. eauto. Qed.

(** C1: the guard, whatever the listeners do.  (1) While the guard is set
    [_flush] returns at once and leaves the socket, trace included, as it
    was.  (2) With the guard clear, every call that returns has set the
    guard first, and has cleared it last and left it clear on every way
    out but one: when what the [catch] caught is [null] or [undefined],
    which only a ['message'] listener can have thrown, [_flush] throws a
    [TypeError] with the guard still set, no ['error'] event and no
    clearing of the guard.  (3) That way out exists and locks the engine:
    when, in any pass, the ['message'] listener throws [null] or
    [undefined], the activation ends there by that [TypeError], the guard
    stays set, and from then on every [_flush] returns at once and every
    [send] only queues. *)
Theorem C1_guard_left_set :
  (forall fuel (s : Sock), _inFlush s = true -> wflush fuel s = Some (s, Wide.Returns)) /\
  (forall fuel (s s' : Sock) o,
      _inFlush s = false ->
      wflush fuel s = Some (s', o) ->
      exists mid,
        no_guard mid /\
        ((trace s' = trace s ++ EvGuardSet :: mid ++ [EvGuardClear] /\
          _inFlush s' = false /\
          forall k, 0 <= running (firstn k (EvGuardSet :: mid ++ [EvGuardClear])) <= 1) \/
         (trace s' = trace s ++ EvGuardSet :: mid /\
          _inFlush s' = true /\
          o = Wide.Throws (Wide.ThrownError Wide.assignment_error) /\
          no_error_event mid /\
          (forall k, 0 <= running (firstn k (EvGuardSet :: mid)) <= 1) /\
          exists pre parts evs,
            mid = pre ++ EvEmitMessage parts :: evs /\ all_quiet evs))) /\
  (forall n (s : Sock) k flk sk h0 ev items h2 s3,
      _inFlush s = false ->
      passes (wflush n) n None (record EvGuardSet (set_inFlush true s)) (S k) flk sk ->
      zmq_getsockopt ZMQ_EVENTS (_zmq sk) = (h0, Ok ev) ->
      truthy (js_and (loop_flags (_outgoing sk) ev) ZMQ_POLLIN) = true ->
      handle_yields h0 items h2 ->
      (List.length items <= k)%nat ->
      Wide.emit_message utf8 (wflush n) (map fst items)
        (advance h2 (EvGetsockopt ZMQ_EVENTS (Ok ev) :: receive_trace items) sk)
      = Some (s3, Wide.Throws Wide.ThrownNullish) ->
      wflush (S n) s = Some (s3, Wide.Throws (Wide.ThrownError Wide.assignment_error)) /\
      _inFlush s3 = true /\
      (forall fuel, wflush fuel s3 = Some (s3, Wide.Returns)) /\
      (forall fuel arguments,
          Wide.send inspect utf8 fuel arguments s3
          = Some (enqueue utf8 arguments s3, Wide.Returns))).
Proof.
  split; [|split].
  - intros fuel s Hg. apply wide_flush_guarded. exact Hg.
  - intros fuel s s' o Hg Hf.
    destruct (wide_flush_shape _ _ _ _ Hg Hf)
      as (sp & pre & Hsteps & Hpre & Hcalm & Hpt & Hcases).
    assert (Hleft : forall mid sq,
               held (record EvGuardSet (set_inFlush true s)) sq mid ->
               no_guard mid /\
               trace (clear_guard sq) = trace s ++ EvGuardSet :: mid ++ [EvGuardClear] /\
               _inFlush (clear_guard sq) = false /\
               forall k, 0 <= running (firstn k (EvGuardSet :: mid ++ [EvGuardClear])) <= 1).
    { intros mid sq [Ht _ Hn _ _]. split; [exact Hn|].
      cbn [trace _inFlush clear_guard record set_inFlush] in *.
      split; [rewrite Ht, <- !app_assoc; reflexivity|]. split; [reflexivity|].
      destruct k as [|k]; cbn [firstn running]; [lia|].
      pose proof (running_tail mid Hn k). lia. }
    destruct Hcases as [(-> & _) | [(e & evf & s1 & fl & s2 & evs & _ & Hhf & _ & _ & Hhd & _ & ->)
                                   | (evf & _ & Hhf & Hev & ->)]].
    + exists pre. destruct (Hleft _ _ Hpre) as (Hn & Hrest). split; [exact Hn|]. left. exact Hrest.
    + pose proof (held_trans _ _ _ _ _ Hpre (held_trans _ _ _ _ _ Hhf Hhd)) as Hall.
      eexists. destruct (Hleft _ _ Hall) as (Hn & Hrest). split; [exact Hn|]. left. exact Hrest.
    + pose proof (held_trans _ _ _ _ _ Hpre Hhf) as [Ht Hgd Hn _ _].
      destruct (failure_nullish _ Hev) as (parts & evs & -> & Hq).
      destruct (all_quiet_facts _ Hq) as (_ & _ & _ & _ & _ & Hne & _).
      exists (pre ++ EvEmitMessage parts :: evs). split; [exact Hn|]. right.
      cbn [trace _inFlush record set_inFlush] in *.
      split; [rewrite Ht, <- !app_assoc; reflexivity|]. split; [exact Hgd|].
      split; [reflexivity|].
      split; [apply no_error_app; [apply calm_no_error, Hcalm | exact Hne]|].
      split; [|eauto].
      destruct k as [|k]; cbn [firstn running]; [lia|].
      rewrite (running_no_guard _ Hn k). lia.
  - intros n s k flk sk h0 ev items h2 s3 Hg Hpasses Hev Hin Hy Hk Hd.
    pose proof (passes_guard _ _ _ _ _ Hpasses) as Hgk.
    rewrite (wide_emit_message_guarded _ (wide_flush_guarded n)) in Hd by exact Hgk.
    injection Hd as Hd.
    assert (Hloop : wloop (wflush n) n None (record EvGuardSet (set_inFlush true s))
                    = Some (s3, Some (loop_flags (_outgoing sk) ev),
                            Wide.XRaised Wide.ThrownNullish)).
    { rewrite (passes_loop _ _ _ _ _ _ _ Hpasses).
      rewrite (pass_yields _ _ _ _ _ _ _ _ (wide_flush_guarded n) Hgk Hev Hin Hy Hk).
      rewrite Hd. reflexivity. }
    destruct (wide_flush_catch _ _ _ _ _ Hg Hloop) as (Hg3 & Heq).
    split; [exact Heq|]. split; [exact Hg3|]. split.
    + intros fuel. apply wide_flush_guarded. exact Hg3.
    + intros fuel arguments. unfold Wide.send. apply wide_flush_guarded. exact Hg3.
Qed.


(** *** The two engines *)

Section Restricted.

Variables flush_wide : Sock -> option (Sock * Wide.Outcome).
Variables flush_narrow : Sock -> option (Sock * Completion).
Hypothesis Hsame : forall s, flush_wide s = Wide.lifted (flush_narrow s).

Lemma run_calls_widen calls : forall s : Sock,
  Wide.run_calls utf8 flush_wide (map Wide.CallSend calls) s
  = Wide.lifted (run_sends utf8 flush_narrow calls s).
Proof.
  induction calls as [|c calls IH]; intros s; cbn [map Wide.run_calls run_sends];
    [reflexivity|].
  cbn [Wide.run_call]. unfold send_with. rewrite Hsame.
  destruct (flush_narrow (enqueue utf8 c s)) as [[s1 [|e]]|]; cbn; auto.
Qed.

Lemma run_listener_widen sc (s : Sock) :
  Wide.run_listener utf8 flush_wide (Wide.widen sc) s
  = Wide.lifted (run_script utf8 flush_narrow sc s).
Proof.
  unfold Wide.run_listener, run_script, Wide.widen. cbn [Wide.behaviour_calls].
  rewrite run_calls_widen.
  destruct (run_sends utf8 flush_narrow (script_sends sc) s) as [[s1 [|e]]|]; cbn;
    try reflexivity.
  destruct (script_throws sc); reflexivity.
Qed.

Lemma emit_message_widen parts (s : Sock) :
  Wide.emit_message (guests := Wide.widened application) utf8 flush_wide parts s
  = Wide.lifted (emit_message utf8 flush_narrow parts s).
Proof.
  unfold Wide.emit_message, emit_message. cbn [Wide.message_listener Wide.widened].
  destruct (on_message (listeners s) parts) as [a sc]. apply run_listener_widen.
Qed.

Lemma emit_error_widen e (s : Sock) :
  Wide.emit_error (guests := Wide.widened application) utf8 flush_wide e s
  = Wide.lifted (emit_error utf8 flush_narrow e s).
Proof.
  unfold Wide.emit_error, emit_error. cbn [Wide.error_listener Wide.widened].
  destruct (on_error (listeners s) e) as [[a sc]|]; [apply run_listener_widen | reflexivity].
Qed.

Lemma receive_block_widen fuel (s : Sock) :
  Wide.receive_block (guests := Wide.widened application) utf8 flush_wide fuel s
  = match receive_block utf8 flush_narrow fuel s with
    | Some (s', c) => Some (s', Wide.exit_of c)
    | None => None
    end.
Proof.
  unfold Wide.receive_block, receive_block.
  destruct (recv_parts fuel [] s) as [[s1 [parts|e]]|]; try reflexivity.
  rewrite emit_message_widen.
  destruct (emit_message utf8 flush_narrow parts s1) as [[s2 [|e]]|]; cbn; try reflexivity.
  destruct (negb (zmq_state (_zmq s2) =? STATE_READY)); reflexivity.
Qed.

Lemma flush_loop_widen fuel : forall fl (s : Sock),
  Wide.flush_loop (guests := Wide.widened application) utf8 flush_wide fuel fl s
  = match loop flush_narrow fuel fl s with
    | Some (s', fl', c) => Some (s', fl', Wide.exit_of c)
    | None => None
    end.
Proof.
  induction fuel as [|n IH]; intros fl s; [reflexivity|].
  cbn [Wide.flush_loop flush_loop].
  destruct (_ioevents s) as [s1 [ev|e]]; [|reflexivity].
  cbn zeta. destruct (negb (truthy (loop_flags (_outgoing s1) ev))); [reflexivity|].
  destruct (truthy (js_and (loop_flags (_outgoing s1) ev) ZMQ_POLLIN)).
  - rewrite receive_block_widen.
    destruct (receive_block utf8 flush_narrow n s1) as [[s2 [| | |e]]|]; cbn; try reflexivity.
    destruct (send_burst (_outgoing s2) (loop_flags (_outgoing s1) ev) s2)
      as [[s3 fl3] [|e]]; [apply IH | reflexivity].
  - destruct (send_burst (_outgoing s1) (loop_flags (_outgoing s1) ev) s1)
      as [[s3 fl3] [|e]]; [apply IH | reflexivity].
Qed.

End Restricted.

(** With listeners that only call [send] and only throw [Error] objects,
    the engine for listeners at large is the engine of the first part: the
    two return the same socket, trace included, and end the same way, for
    every amount of fuel. *)
Theorem engine_restricted fuel : forall s : Sock,
  Wide._flush (guests := Wide.widened application) inspect utf8 fuel s
  = Wide.lifted (_flush inspect utf8 fuel s).
Proof.
  induction fuel as [|n IH]; intros s; cbn [Wide._flush _flush];
    destruct (_inFlush s); try reflexivity.
  rewrite (flush_loop_widen _ _ IH).
  destruct (loop (flush n) n None (record EvGuardSet (set_inFlush true s)))
    as [[[s1 fl] [| | |e]]|]; cbn; try reflexivity.
  rewrite (emit_error_widen _ _ IH).
  destruct (emit_error utf8 (flush n) (attach inspect fl (_outgoing s1) e) s1)
    as [[s2 [|e2]]|]; reflexivity.
Qed.

End Properties.

(** ** The theorems on concrete sockets *)

Import Scripted.

(** C1 on a socket whose ['message'] listener throws [null]. *)
Lemma C1_witness :
  (_inFlush upset_locked = true /\
   Wide._flush render bytes 4 upset_locked = Some (upset_locked, Wide.Returns)) /\
  (_inFlush upset = false /\
   Wide._flush render bytes 4 upset
   = Some (upset_locked, Wide.Throws (Wide.ThrownError Wide.assignment_error)) /\
   exists mid,
     no_guard mid /\
     ((trace upset_locked = trace upset ++ EvGuardSet :: mid ++ [EvGuardClear] /\
       _inFlush upset_locked = false /\
       forall k, 0 <= running (firstn k (EvGuardSet :: mid ++ [EvGuardClear])) <= 1) \/
      (trace upset_locked = trace upset ++ EvGuardSet :: mid /\
       _inFlush upset_locked = true /\
       Wide.Throws (Wide.ThrownError Wide.assignment_error)
       = Wide.Throws (Wide.ThrownError Wide.assignment_error) /\
       no_error_event mid /\
       (forall k, 0 <= running (firstn k (EvGuardSet :: mid)) <= 1) /\
       exists pre parts evs,
         mid = pre ++ EvEmitMessage parts :: evs /\ all_quiet evs))) /\
  (_inFlush upset = false /\
   zmq_getsockopt ZMQ_EVENTS (_zmq upset) = (two_parts, Ok 3) /\
   truthy (js_and (loop_flags (_outgoing upset) 3) ZMQ_POLLIN) = true /\
   handle_yields two_parts [(bytes "a", 1); (bytes "b", 0)] delivered /\
   Wide.emit_message bytes (Wide._flush render bytes 3) [bytes "a"; bytes "b"]
     (advance delivered
        (EvGetsockopt ZMQ_EVENTS (Ok 3) :: receive_trace [(bytes "a", 1); (bytes "b", 0)])
        (record EvGuardSet (set_inFlush true upset)))
   = Some (upset_locked, Wide.Throws Wide.ThrownNullish) /\
   Wide._flush render bytes 4 upset
   = Some (upset_locked, Wide.Throws (Wide.ThrownError Wide.assignment_error)) /\
   _inFlush upset_locked = true /\
   (forall fuel, Wide._flush render bytes fuel upset_locked
                 = Some (upset_locked, Wide.Returns)) /\
   (forall fuel arguments,
       Wide.send render bytes fuel arguments upset_locked
       = Some (enqueue bytes arguments upset_locked, Wide.Returns))).
Proof.
  assert (Hy : handle_yields two_parts [(bytes "a", 1); (bytes "b", 0)] delivered).
  { eapply yields_more; [reflexivity | reflexivity | reflexivity |].
    eapply yields_last; reflexivity. }
  assert (Hrun : Wide._flush render bytes 4 upset
                 = Some (upset_locked, Wide.Throws (Wide.ThrownError Wide.assignment_error)))
    by (vm_compute; reflexivity).
  split; [|split].
  - split; [reflexivity|].
    exact (proj1 (C1_guard_left_set render bytes) 4%nat upset_locked eq_refl).
  - split; [reflexivity|]. split; [exact Hrun|].
    exact (proj1 (proj2 (C1_guard_left_set render bytes)) 4%nat upset upset_locked _
             eq_refl Hrun).
  - do 4 (split; [first [reflexivity | exact Hy]|]).
    split; [vm_compute; reflexivity|].
    apply (proj2 (proj2 (C1_guard_left_set render bytes)) 3%nat upset 2%nat None
             (record EvGuardSet (set_inFlush true upset)) two_parts 3
             [(bytes "a", 1); (bytes "b", 0)] delivered upset_locked).
    + reflexivity.
    + apply passes_none.
    + reflexivity.
    + reflexivity.
    + exact Hy.
    + apply le_n.
    + vm_compute; reflexivity.
Defined.

(** C2 on a handle with a two-part message, and on one that breaks the
    message off after the first part. *)
Lemma C2_witness :
  (recv_parts 2 [] visited
   = Some (advance delivered (receive_trace [(bytes "a", 1); (bytes "b", 0)]) visited,
           Ok [bytes "a"; bytes "b"]) /\
   exists items h2,
     handle_yields (_zmq visited) items h2 /\
     [bytes "a"; bytes "b"] = map fst items /\
     advance delivered (receive_trace [(bytes "a", 1); (bytes "b", 0)]) visited
     = advance h2 (receive_trace items) visited) /\
  (wide_guarded (Wide._flush render bytes 4) /\
   _inFlush visited = true /\
   handle_yields (_zmq visited) [(bytes "a", 1); (bytes "b", 0)] delivered /\
   let parts := map fst [(bytes "a", 1); (bytes "b", 0)] in
   let s1 := advance delivered (receive_trace [(bytes "a", 1); (bytes "b", 0)]) visited in
   recv_parts 2 [] visited = Some (s1, Ok parts) /\
   exists s2 o evs,
     Wide.emit_message bytes (Wide._flush render bytes 4) parts s1 = Some (s2, o) /\
     Wide.receive_block bytes (Wide._flush render bytes 4) 2 visited
     = Some (after_message (s2, o)) /\
     listeners s2 = fst (Wide.message_listener (listeners visited) parts) /\
     trace s2 = trace visited ++ receive_trace [(bytes "a", 1); (bytes "b", 0)]
                              ++ EvEmitMessage parts :: evs /\
     all_quiet evs /\
     messages (receive_trace [(bytes "a", 1); (bytes "b", 0)]) = [] /\
     messages (receive_trace [(bytes "a", 1); (bytes "b", 0)] ++ EvEmitMessage parts :: evs)
     = [parts]) /\
  (handle_breaks (_zmq torn) [(bytes "a", 1)] [EvRecv (Raise eagain)] eagain true /\
   let s1 := advance true (receive_trace [(bytes "a", 1)] ++ [EvRecv (Raise eagain)]) torn in
   recv_parts 2 [] torn = Some (s1, Raise eagain) /\
   Wide.receive_block bytes (Wide._flush render bytes 4) 2 torn
   = Some (s1, Wide.XRaised (Wide.ThrownError eagain)) /\
   messages (receive_trace [(bytes "a", 1)] ++ [EvRecv (Raise eagain)]) = []) /\
  (zmq_getsockopt ZMQ_EVENTS (_zmq visited) = (two_parts, Ok 3) /\
   truthy (js_and (loop_flags (_outgoing visited) 3) ZMQ_POLLIN) = true /\
   Wide.flush_loop bytes (Wide._flush render bytes 4) 3 None visited
   = match Wide.receive_block bytes (Wide._flush render bytes 4) 2
             (advance two_parts [EvGetsockopt ZMQ_EVENTS (Ok 3)] visited) with
     | None => None
     | Some (s2, Wide.XProceed) =>
         match send_burst (_outgoing s2) (loop_flags (_outgoing visited) 3) s2 with
         | (s3, flags2, Throw e) =>
             Some (s3, Some flags2, Wide.XRaised (Wide.ThrownError e))
         | (s3, flags2, Normal) =>
             Wide.flush_loop bytes (Wide._flush render bytes 4) 2 (Some flags2) s3
         end
     | Some (s2, x) => Some (s2, Some (loop_flags (_outgoing visited) 3), x)
     end).
Proof.
  assert (Hy : handle_yields two_parts [(bytes "a", 1); (bytes "b", 0)] delivered).
  { eapply yields_more; [reflexivity | reflexivity | reflexivity |].
    eapply yields_last; reflexivity. }
  assert (Hb : handle_breaks false [(bytes "a", 1)] [EvRecv (Raise eagain)] eagain true).
  { eapply breaks_later; [reflexivity | reflexivity | reflexivity |].
    eapply breaks_recv; reflexivity. }
  assert (Hrecv : recv_parts 2 [] visited
                  = Some (advance delivered (receive_trace [(bytes "a", 1); (bytes "b", 0)])
                            visited, Ok [bytes "a"; bytes "b"]))
    by (vm_compute; reflexivity).
  destruct (C2_receive (H := Stub) (A := Guest) bytes) as (Hall & Hyield & _ & Hpass).
  destruct (C2_receive (H := bool) (A := Guest) bytes) as (_ & _ & Hbreak & _).
  split; [|split; [|split]].
  - split; [exact Hrecv|]. exact (Hall 2%nat visited _ _ Hrecv).
  - split; [apply wide_flush_guarded|]. split; [reflexivity|]. split; [exact Hy|].
    exact (Hyield (Wide._flush render bytes 4) 2%nat visited
             [(bytes "a", 1); (bytes "b", 0)] delivered
             (wide_flush_guarded render bytes 4%nat) eq_refl Hy (le_n 2)).
  - split; [exact Hb|].
    exact (Hbreak (Wide._flush render bytes 4) 2%nat torn [(bytes "a", 1)]
             [EvRecv (Raise eagain)] eagain true Hb (le_n 2)).
  - split; [reflexivity|]. split; [reflexivity|].
    exact (Hpass (Wide._flush render bytes 4) 2%nat None visited two_parts 3
             eq_refl eq_refl).
Defined.


(** C4 for a two-part [send] on a socket at rest. *)
Lemma C4_witness :
  _inFlush at_rest = false /\
  exists s' c,
    send render bytes 3 [PartString "a"; PartString "b"] at_rest = Some (s', c) /\
    List.length (group (map (to_buffer bytes) [PartString "a"; PartString "b"])) = 2%nat /\
    _outgoing (enqueue bytes [PartString "a"; PartString "b"] at_rest)
    = _outgoing at_rest ++ [(bytes "a", 2); (bytes "b", 0)] /\
    exists mid,
      trace s' = trace at_rest
                 ++ EvEnqueue (group (map (to_buffer bytes) [PartString "a"; PartString "b"]))
                 :: EvGuardSet :: mid ++ [EvGuardClear] /\
      no_guard mid.
Proof.
  split; [reflexivity|].
  destruct (C4_send render bytes 3%nat [PartString "a"; PartString "b"] at_rest)
    as (Hlen & Hqueue & _ & Hrun).
  eexists _, _. split; [vm_compute; reflexivity|].
  split; [exact Hlen|]. split; [exact Hqueue|].
  eapply Hrun; vm_compute; reflexivity.
Defined.

(** C5 on a message broken off after its first part, and on a reply whose
    second part the handle refuses, in the second pass of the activation;
    neither socket has an ['error'] listener. *)
Lemma C5_witness :
  (_inFlush torn = false /\
   zmq_getsockopt ZMQ_EVENTS (_zmq torn) = (false, Ok 1) /\
   truthy (js_and (loop_flags (_outgoing torn) 1) ZMQ_POLLIN) = true /\
   handle_breaks false [(bytes "a", 1)] [EvRecv (Raise eagain)] eagain true /\
   Wide._flush render bytes 4 torn
   = Some (torn_done, Wide.Throws (Wide.ThrownError torn_error)) /\
   _inFlush torn_done = false) /\
  (_inFlush asked = false /\
   passes bytes (Wide._flush render bytes 3) 3 None
          (record EvGuardSet (set_inFlush true asked)) 2 (Some 1) asked_again /\
   zmq_getsockopt ZMQ_EVENTS (_zmq asked_again) = (one_left, Ok 2) /\
   handle_refuses one_left 2 [(bytes "r", 2); (bytes "s", 0)]
                  [((bytes "r", 2), 2)] [EvSend (bytes "s") 0 (Raise eagain)]
                  2 eagain none_left [] /\
   Wide._flush render bytes 4 asked
   = Some (asked_done, Wide.Throws (Wide.ThrownError asked_error)) /\
   _inFlush asked_done = false) /\
  (Wide.error_listener (listeners asked_done) asked_error = None /\
   err_flags asked_error = Some 2 /\
   err_outgoing asked_error = Some (render [])) /\
  (exists fl q evs,
      [EvEmitError asked_error; EvGuardClear]
      = EvEmitError (attach render fl q eagain) :: evs ++ [EvGuardClear] /\
      all_quiet evs /\
      _outgoing asked
      ++ enqueued [EvGuardSet; EvGetsockopt 15 (Ok 3);
                   EvRecv (Ok (bytes "a")); EvGetsockopt 13 (Ok 0);
                   EvEmitMessage [bytes "a"];
                   EvEnqueue [(bytes "r", 2); (bytes "s", 0)];
                   EvGetsockopt 15 (Ok 2); EvSend (bytes "r") 2 (Ok tt);
                   EvGetsockopt 15 (Ok 2)]
      = popped ([EvGuardSet; EvGetsockopt 15 (Ok 3);
                 EvRecv (Ok (bytes "a")); EvGetsockopt 13 (Ok 0);
                 EvEmitMessage [bytes "a"];
                 EvEnqueue [(bytes "r", 2); (bytes "s", 0)];
                 EvGetsockopt 15 (Ok 2); EvSend (bytes "r") 2 (Ok tt);
                 EvGetsockopt 15 (Ok 2)]
                ++ [EvSend (bytes "s") 0 (Raise eagain)]) ++ q /\
      _inFlush asked_done = false).
Proof.
  assert (Hb : handle_breaks false [(bytes "a", 1)] [EvRecv (Raise eagain)] eagain true).
  { eapply breaks_later; [reflexivity | reflexivity | reflexivity |].
    eapply breaks_recv; reflexivity. }
  assert (Hpasses : passes bytes (Wide._flush render bytes 3) 3 None
                           (record EvGuardSet (set_inFlush true asked))
                           2 (Some 1) asked_again).
  { eapply passes_next;
      [vm_compute; reflexivity | vm_compute; reflexivity | vm_compute; reflexivity
      | vm_compute; reflexivity |].
    apply passes_none. }
  assert (Hr : handle_refuses one_left 2 [(bytes "r", 2); (bytes "s", 0)]
                              [((bytes "r", 2), 2)] [EvSend (bytes "s") 0 (Raise eagain)]
                              2 eagain none_left []).
  { eapply refuses_later; [reflexivity | reflexivity | reflexivity |].
    eapply refuses_send; reflexivity. }
  destruct (C5_error_reported (H := bool) (A := Guest) render bytes) as (Hrecv & _).
  destruct (C5_error_reported (H := Stub) (A := Guest) render bytes)
    as (_ & Hsend & Hcatch & Hevery).
  destruct (Hrecv 3%nat torn 2%nat None (record EvGuardSet (set_inFlush true torn))
              false 1 [(bytes "a", 1)] [EvRecv (Raise eagain)] eagain true
              eq_refl ltac:(apply passes_none) eq_refl eq_refl Hb (le_n 2))
    as (_ & s2 & o2 & evs2 & Hemit1 & Hrun1 & Hclear1 & _).
  vm_compute in Hemit1. injection Hemit1 as <- <-.
  destruct (Hsend 3%nat asked 1%nat (Some 1) asked_again one_left 2
              (advance one_left [EvGetsockopt ZMQ_EVENTS (Ok 2)] asked_again)
              [((bytes "r", 2), 2)] [EvSend (bytes "s") 0 (Raise eagain)]
              2 eagain none_left [] eq_refl Hpasses eq_refl eq_refl Hr)
    as (_ & Hloop2 & s4 & o4 & evs4 & Hemit2 & Hrun2 & Hclear2 & _).
  vm_compute in Hemit2. injection Hemit2 as <- <-.
  split; [|split; [|split]].
  - do 4 (split; [first [reflexivity | exact Hb]|]).
    split; [exact Hrun1 | exact Hclear1].
  - split; [reflexivity|]. split; [exact Hpasses|]. split; [reflexivity|].
    split; [exact Hr|]. split; [exact Hrun2 | exact Hclear2].
  - destruct (Hcatch 3%nat asked _ _ _ eq_refl Hloop2) as (Hfl & Hout & _).
    split; [reflexivity|]. split; [exact Hfl | exact Hout].
  - exact (Hevery 4%nat asked asked_done _
             [EvGuardSet; EvGetsockopt 15 (Ok 3);
              EvRecv (Ok (bytes "a")); EvGetsockopt 13 (Ok 0);
              EvEmitMessage [bytes "a"];
              EvEnqueue [(bytes "r", 2); (bytes "s", 0)];
              EvGetsockopt 15 (Ok 2); EvSend (bytes "r") 2 (Ok tt);
              EvGetsockopt 15 (Ok 2)]
             (EvSend (bytes "s") 0 (Raise eagain))
             [EvEmitError asked_error; EvGuardClear] eagain
             eq_refl Hrun2 eq_refl eq_refl).
Defined.

(** C6 on a socket at rest. *)
Lemma C6_witness :
  _inFlush at_rest = false /\
  _outgoing at_rest = [] /\
  zmq_getsockopt ZMQ_EVENTS (_zmq at_rest) = (idle, Ok ZMQ_POLLOUT) /\
  exists s',
    _flush render bytes 2 at_rest = Some (s', Normal) /\
    trace s' = trace at_rest ++ [EvGuardSet; EvGetsockopt ZMQ_EVENTS (Ok ZMQ_POLLOUT);
                                 EvGuardClear] /\
    _outgoing s' = [] /\
    _inFlush s' = false.
Proof.
  split; [reflexivity|]. split; [reflexivity|]. split; [reflexivity|].
  exact (proj2 (C6_empty_queue render bytes) 0%nat at_rest idle eq_refl eq_refl eq_refl).
Defined.

(** C7 on a reply whose second part the handle refuses, and on a socket
    that its ['message'] listener closes. *)
Lemma C7_witness :
  (_inFlush asked = false /\
   Wide._flush render bytes 4 asked
   = Some (asked_done, Wide.Throws (Wide.ThrownError asked_error)) /\
   exists mid lost,
     trace asked_done = trace asked ++ EvGuardSet :: mid
                        ++ (if _inFlush asked_done then [] else [EvGuardClear]) /\
     _outgoing asked ++ enqueued mid = popped mid ++ _outgoing asked_done /\
     popped mid = transmitted mid ++ lost /\
     (lost = [] \/ exists b f e, lost = [(b, f)] /\ In (EvSend b f (Raise e)) mid) /\
     (watcher_untouched mid -> _watcher asked_done = _watcher asked) /\
     (watcher_left_alone (A := Guest) -> _watcher asked_done = _watcher asked)) /\
  (_inFlush farewell = false /\
   zmq_getsockopt ZMQ_EVENTS (_zmq farewell) = (one_part, Ok 3) /\
   truthy (js_and (loop_flags (_outgoing farewell) 3) ZMQ_POLLIN) = true /\
   handle_yields one_part [(bytes "a", 0)] idle /\
   Wide.emit_message bytes (Wide._flush render bytes 3) (map fst [(bytes "a", 0)])
     (advance idle (EvGetsockopt ZMQ_EVENTS (Ok 3) :: receive_trace [(bytes "a", 0)])
              (record EvGuardSet (set_inFlush true farewell)))
   = Some (farewell_closed, Wide.Returns) /\
   zmq_state (_zmq farewell_closed) <> STATE_READY /\
   Wide._flush render bytes 4 farewell = Some (farewell_done, Wide.Returns) /\
   _inFlush farewell_done = false /\
   _watcher farewell_done = None /\
   exists evs,
     trace farewell_done
     = trace (record EvGuardSet (set_inFlush true farewell))
       ++ EvGetsockopt ZMQ_EVENTS (Ok 3) :: receive_trace [(bytes "a", 0)]
       ++ EvEmitMessage (map fst [(bytes "a", 0)]) :: evs ++ [EvGuardClear] /\
     all_quiet evs /\
     _outgoing farewell_done
     = _outgoing (record EvGuardSet (set_inFlush true farewell)) ++ enqueued evs).
Proof.
  assert (Hrun : Wide._flush render bytes 4 asked
                 = Some (asked_done, Wide.Throws (Wide.ThrownError asked_error)))
    by (vm_compute; reflexivity).
  assert (Hy : handle_yields one_part [(bytes "a", 0)] idle)
    by (eapply yields_last; reflexivity).
  assert (Hd : Wide.emit_message bytes (Wide._flush render bytes 3)
                 (map fst [(bytes "a", 0)])
                 (advance idle
                    (EvGetsockopt ZMQ_EVENTS (Ok 3) :: receive_trace [(bytes "a", 0)])
                    (record EvGuardSet (set_inFlush true farewell)))
               = Some (farewell_closed, Wide.Returns))
    by (vm_compute; reflexivity).
  assert (Hstate : zmq_state (_zmq farewell_closed) <> STATE_READY)
    by (vm_compute; discriminate).
  destruct (C7_queue_and_watcher (H := Stub) (A := Guest) render bytes) as (Hbooks & Habort).
  split.
  - split; [reflexivity|]. split; [exact Hrun|].
    exact (Hbooks 4%nat asked asked_done _ eq_refl Hrun).
  - do 3 (split; [reflexivity|]). split; [exact Hy|]. split; [exact Hd|].
    split; [exact Hstate|].
    destruct (Habort 3%nat farewell 2%nat None
                (record EvGuardSet (set_inFlush true farewell)) one_part 3
                [(bytes "a", 0)] idle farewell_closed
                eq_refl ltac:(apply passes_none) eq_refl eq_refl Hy
                ltac:(cbn; lia) Hd Hstate)
      as (Hflush & Hclear & Htrace).
    split; [exact Hflush|]. split; [exact Hclear|]. split; [reflexivity | exact Htrace].
Defined.

(** C7, as it was stated: after the error the queue would hold every entry
    not yet transmitted.  Here the handle refuses the first [send]: nothing
    was transmitted, nothing was queued in between, and the queue has lost
    the entry that was being sent. *)
Lemma C7_counterexample :
  exists mid,
    _flush render bytes 3 stuck = Some (stuck_done, Normal) /\
    trace stuck_done = trace stuck ++ mid /\
    In (EvSend (bytes "x") 2 (Raise eagain)) mid /\
    transmitted mid = [] /\
    _outgoing stuck = [(bytes "x", 2); (bytes "y", 0)] /\
    _outgoing stuck_done = [(bytes "y", 0)] /\
    _outgoing stuck ++ enqueued mid <> transmitted mid ++ _outgoing stuck_done.
Proof.
  eexists. split; [vm_compute; reflexivity|]. split; [reflexivity|].
  split; [right; right; left; reflexivity|].
  split; [reflexivity|]. split; [reflexivity|]. split; [reflexivity|].
  cbn. discriminate.
Qed.



(** C9 for the type name [stream]. *)
Lemma C9_witness :
  ~ In "stream"%string (map fst types) /\
  createSocket (H := Stub) bytes to_int "stream" None listening start_up
  = (fst (defaultContext to_int start_up), Raise configuration_error) /\
  err_kind configuration_error = Configuration.
Proof.
  assert (Hnot : ~ In "stream"%string (map fst types)).
  { cbn. intros Hin.
    repeat (destruct Hin as [Hin | Hin]; [discriminate Hin|]). exact Hin. }
  split; [exact Hnot|].
  exact (C9_unknown_type (H := Stub) bytes to_int "stream" None listening start_up Hnot).
Defined.

(** C10 on a handle that refuses a [send], with a listener for ['error']. *)
Lemma C10_witness :
  _inFlush stuck = false /\
  flush_loop bytes (_flush render bytes 2) 2 None (record EvGuardSet (set_inFlush true stuck))
  = Some (stuck_caught, Some 2, CThrow eagain) /\
  on_error (listeners stuck_caught) (attach render (Some 2) (_outgoing stuck_caught) eagain)
  = Some (listening, quiet) /\
  script_throws quiet = None /\
  exists s' after,
    _flush render bytes 3 stuck = Some (s', Normal) /\
    _inFlush s' = false /\
    trace s' = trace stuck_caught
               ++ EvEmitError (attach render (Some 2) (_outgoing stuck_caught) eagain)
               :: after /\
    after = map (fun c => EvEnqueue (queued_by bytes c)) (script_sends quiet)
            ++ [EvGuardClear] /\
    forallb (fun ev => negb (is_transfer ev)) after = true.
Proof.
  assert (Hloop : flush_loop bytes (_flush render bytes 2) 2 None
                    (record EvGuardSet (set_inFlush true stuck))
                  = Some (stuck_caught, Some 2, CThrow eagain))
    by (vm_compute; reflexivity).
  split; [reflexivity|]. split; [exact Hloop|]. split; [reflexivity|].
  split; [reflexivity|].
  exact (C10_error_ends_activation render bytes 2%nat stuck stuck_caught (Some 2) eagain
           listening quiet eq_refl Hloop eq_refl eq_refl).
Defined.

(** ** Further properties on concrete sockets *)

(** [defaultContext_threads] for a process that asks for two threads. *)
Lemma defaultContext_threads_witness :
  context_ configured = None /\
  1 <= io_threads (snd (defaultContext to_int configured)) /\
  io_threads (snd (defaultContext to_int configured)) = 2 /\
  stderr (fst (defaultContext to_int configured)) = stderr configured.
Proof.
  split; [reflexivity|].
  exact (defaultContext_threads to_int configured eq_refl).
Defined.

(** [createSocket_known] for the type name [req]. *)
Lemma createSocket_known_witness :
  In "req"%string (map fst types) /\
  (forall t, lookup types "req" = Some t ->
     zmq_getsockopt ZMQ_FD (zmq_socket (snd (defaultContext to_int start_up)) t)
     = (idle, Ok 7)) /\
  exists sock : SocketObj Stub App,
    createSocket bytes to_int "req" None listening start_up
    = (fst (defaultContext to_int start_up), Ok sock) /\
    type sock = "req"%string /\
    _zmq sock = idle /\
    currentSendBacklog sock = 0 /\
    _inFlush sock = false /\
    _watcher sock = Some (mkWatcher 7 true) /\
    listeners sock = listening /\
    trace sock = [EvGetsockopt ZMQ_FD (Ok 7); EvWatcherStart].
Proof.
  assert (Hin : In "req"%string (map fst types)) by (cbn; auto).
  assert (Hfd : forall t, lookup types "req" = Some t ->
            zmq_getsockopt ZMQ_FD (zmq_socket (snd (defaultContext to_int start_up)) t)
            = (idle, Ok 7)) by (intros t _; reflexivity).
  split; [exact Hin|]. split; [exact Hfd|].
  exact (createSocket_known (H := Stub) bytes to_int "req" listening start_up idle (Ok 7)
           Hin Hfd).
Defined.


(** [close_then] on a socket at rest. *)
Lemma close_then_witness :
  _watcher at_rest = Some (mkWatcher 7 true) /\
  snd (close at_rest) = Normal /\
  _watcher (fst (close at_rest)) = None /\
  _zmq (fst (close at_rest)) = fst (zmq_close (_zmq at_rest)) /\
  trace (fst (close at_rest)) = trace at_rest ++ [EvWatcherStop] /\
  _outgoing (fst (close at_rest)) = _outgoing at_rest /\
  _inFlush (fst (close at_rest)) = _inFlush at_rest /\
  close (fst (close at_rest)) = (fst (close at_rest), Throw type_error) /\
  bindSync "tcp://127.0.0.1:5555" (fst (close at_rest))
  = (fst (close at_rest), Throw type_error) /\
  bind render bytes 3 "tcp://127.0.0.1:5555" no_callback (fst (close at_rest))
  = Some (fst (close at_rest), Throw type_error).
Proof.
  split; [reflexivity|].
  exact (close_then render bytes 3%nat "tcp://127.0.0.1:5555" no_callback at_rest
           (mkWatcher 7 true) eq_refl).
Defined.

(** [send_inside_activation] on a socket in the middle of an activation. *)
Lemma send_inside_activation_witness :
  _inFlush busy = true /\
  send render bytes 0 [PartString "a"; PartString "b"] busy
  = Some (enqueue bytes [PartString "a"; PartString "b"] busy, Normal) /\
  currentSendBacklog (enqueue bytes [PartString "a"; PartString "b"] busy)
  = currentSendBacklog busy + 2 /\
  trace (enqueue bytes [PartString "a"; PartString "b"] busy)
  = trace busy ++ [EvEnqueue [(bytes "a", 2); (bytes "b", 0)]] /\
  _zmq (enqueue bytes [PartString "a"; PartString "b"] busy) = _zmq busy.
Proof.
  split; [reflexivity|].
  exact (send_inside_activation render bytes 0%nat [PartString "a"; PartString "b"] busy
           eq_refl).
Defined.

(** [send_not_ready] on a socket whose handle reports nothing. *)
Lemma send_not_ready_witness :
  _inFlush waiting = false /\
  zmq_getsockopt ZMQ_EVENTS (_zmq waiting) = (mute, Ok 0) /\
  exists s',
    send render bytes 2 [PartString "a"; PartString "b"] waiting = Some (s', Normal) /\
    _outgoing s' = _outgoing waiting ++ [(bytes "a", 2); (bytes "b", 0)] /\
    currentSendBacklog s' = currentSendBacklog waiting + 2 /\
    trace s' = trace waiting ++ [EvEnqueue [(bytes "a", 2); (bytes "b", 0)];
                                 EvGuardSet; EvGetsockopt ZMQ_EVENTS (Ok 0); EvGuardClear] /\
    _inFlush s' = false.
Proof.
  split; [reflexivity|]. split; [reflexivity|].
  exact (send_not_ready render bytes 0%nat [PartString "a"; PartString "b"] waiting mute
           eq_refl eq_refl).
Defined.

(** [queue_stays_complete] on a socket whose handle refuses a [send]. *)
Lemma queue_stays_complete_witness :
  complete (_outgoing stuck) = true /\
  _flush render bytes 3 stuck = Some (stuck_done, Normal) /\
  complete (_outgoing stuck_done) = true /\
  exists s' c,
    send render bytes 3 [PartString "a"; PartString "b"] stuck = Some (s', c) /\
    complete (_outgoing s') = true.
Proof.
  assert (Hrun : _flush render bytes 3 stuck = Some (stuck_done, Normal))
    by (vm_compute; reflexivity).
  split; [reflexivity|]. split; [exact Hrun|]. split.
  - exact (proj1 (queue_stays_complete render bytes) 3%nat stuck stuck_done Normal
             eq_refl Hrun).
  - eexists _, _. split; [vm_compute; reflexivity|].
    eapply (proj2 (queue_stays_complete render bytes) 3%nat
              [PartString "a"; PartString "b"] stuck).
    + reflexivity.
    + vm_compute; reflexivity.
Defined.


(** [flush_never_returns] on the handle that always has one more message. *)
Lemma flush_never_returns_witness :
  never_dry (H := nat) /\
  patient (A := App) /\
  _inFlush flooded = false /\
  _flush render bytes 1000 flooded = None.
Proof.
  assert (Hdry : never_dry (H := nat)).
  { constructor.
    - intros h. exists h, 1. split; [reflexivity|]. intros [|e q]; reflexivity.
    - intros h. eexists _, _. reflexivity.
    - intros h. eexists _, _. reflexivity.
    - intros b f h. eexists. reflexivity.
    - intros h. reflexivity. }
  assert (Hpatient : patient (A := App)) by (intros a parts; reflexivity).
  split; [exact Hdry|]. split; [exact Hpatient|]. split; [reflexivity|].
  exact (flush_never_returns render bytes Hdry Hpatient 1000%nat flooded eq_refl).
Defined.

(** [bind_throw_leaves_watcher_stopped] on a handle whose [bind] throws. *)
Lemma bind_throw_leaves_watcher_stopped_witness :
  _watcher broken_idle = Some (mkWatcher 7 true) /\
  zmq_bind "tcp://127.0.0.1:5555" (_zmq broken_idle) = (tt, Raise eagain) /\
  exists s',
    bind render bytes 3 "tcp://127.0.0.1:5555" no_callback broken_idle
    = Some (s', Throw eagain) /\
    _watcher s' = Some (mkWatcher 7 false) /\
    trace s' = trace broken_idle ++ [EvWatcherStop; EvBind "tcp://127.0.0.1:5555"].
Proof.
  split; [reflexivity|]. split; [reflexivity|].
  exact (bind_throw_leaves_watcher_stopped render bytes 3%nat "tcp://127.0.0.1:5555"
           no_callback broken_idle (mkWatcher 7 true) tt eagain eq_refl eq_refl).
Defined.
